(** * decisionTableCompiler (dtc.c): a shallow embedding and its properties

    The development follows the layout of [dtc.c]: symbols, names, values and
    inferences with their comparison functions, the sorted sequences that
    intern them, the independence analysis, the resolution algebra, the
    memoised tree builder [nodBld], the consistency check and the emitter.

    Conventions of the embedding.
    - Interned objects are compared by address in the C code.  Interning makes
      address equality coincide with equality of contents, so a pointer
      comparison [a == b] on symbols, names or values is a decidable equality
      on the contents; a Name is referred to by its Symbol.
    - [val->nam->vals] and [val->infs] are back references into the object
      graph; they are read through an explicit context [ctx_t].
    - Tree nodes are shared through the memoisation store and carry a mutable
      [lbl] field.  A node is an inductive tree tagged with the identity it
      received from [nodNew]; the emitter keeps the labels in a store indexed
      by that identity.
    - [malloc], [calloc] and [realloc] are taken to succeed, except in the
      [Add] operations of the sorted sequences where the outcome of [realloc]
      is an explicit argument.
    - Loops whose termination is not evident from their shape take a fuel
      argument and return [None] when it is exhausted. *)

From Stdlib Require Import ZArith List Bool Arith Lia.
From Stdlib Require String Ascii.
From Stdlib Require Import Permutation Sorted.
Import ListNotations.

Local Open Scope Z_scope.

(** ** Machine integers *)

(** Conversion of a mathematical integer to [unsigned int]. *)
Definition u32 (z : Z) : Z := z mod 2 ^ 32.

(** Conversion of an [unsigned int] to [int] (two's complement). *)
Definition int_of_u32 (z : Z) : Z := if z <? 2 ^ 31 then z else z - 2 ^ 32.

(** ** Symbols *)

(** [struct sym]: [n] bytes [v]. *)
Definition sym_t := String.string.

Definition sym_n (s : sym_t) : Z := Z.of_nat (String.length s).

Definition byte_val (c : Ascii.ascii) : Z := Z.of_N (Ascii.N_of_ascii c).

(** The scanning loop of [symCmp]:
    [for (i = 0; i < j && !(r = e1->v[i] - e2->v[i]); ++i);]
    with [j] the shorter length.  It returns the last value given to [r];
    [symNew] refuses empty symbols, so the loop body runs at least once. *)
Fixpoint symCmp_scan (e1 e2 : sym_t) (r : Z) : Z :=
  match e1, e2 with
  | String.String c1 t1, String.String c2 t2 =>
      let r' := byte_val c1 - byte_val c2 in
      if r' =? 0 then symCmp_scan t1 t2 r' else r'
  | _, _ => r
  end.

Definition symCmp (e1 e2 : sym_t) : Z :=
  let r := symCmp_scan e1 e2 0 in
  if r <? 0 then -1
  else if r >? 0 then 1
  else
    let r := int_of_u32 (u32 (sym_n e1 - sym_n e2)) in
    if r <? 0 then -1 else if r >? 0 then 1 else 0.

(** ** Values, names, inferences *)

(** [struct val]: the Name (through its Symbol) and the value Symbol.  The
    [infs] field lives in the context. *)
Record val_t : Type := mkVal { val_nam : sym_t; val_sym : sym_t }.

(** [struct nam]. *)
Record nam_t : Type := mkNam { nam_sym : sym_t; nam_vals : list val_t }.

(** [struct inf]. *)
Record inf_t : Type := mkInf {
  inf_val : val_t;
  inf_vals : list val_t;
  inf_fil : String.string;
  inf_row : Z
}.

Definition vals_t := list val_t.
Definition infs_t := list inf_t.

Definition namCmp (e1 e2 : nam_t) : Z := symCmp (nam_sym e1) (nam_sym e2).

Definition valCmp (e1 e2 : val_t) : Z :=
  let r := symCmp (val_nam e1) (val_nam e2) in
  if r =? 0 then symCmp (val_sym e1) (val_sym e2) else r.

(** The loop shared by [valsCmp], [infsCmp]: elementwise, then by length. *)
Fixpoint seqCmp {A : Type} (cmp : A -> A -> Z) (e1 e2 : list A) : Z :=
  match e1, e2 with
  | a :: t1, b :: t2 =>
      let r := cmp a b in
      if r =? 0 then seqCmp cmp t1 t2 else r
  | [], [] => 0
  | [], _ :: _ => -1
  | _ :: _, [] => 1
  end.

Definition valsCmp (e1 e2 : vals_t) : Z := seqCmp valCmp e1 e2.

Definition infCmp (e1 e2 : inf_t) : Z :=
  let r := valCmp (inf_val e1) (inf_val e2) in
  if r =? 0 then valsCmp (inf_vals e1) (inf_vals e2) else r.

Definition infsCmp (e1 e2 : infs_t) : Z := seqCmp infCmp e1 e2.

(** Address equality of interned objects. *)
Definition sym_eqb (a b : sym_t) : bool := String.eqb a b.

Definition val_eqb (a b : val_t) : bool :=
  sym_eqb (val_nam a) (val_nam b) && sym_eqb (val_sym a) (val_sym b).

(** [a->nam == b->nam]. *)
Definition nam_eqb (a b : sym_t) : bool := sym_eqb a b.

(** ** Library routines: [bsearch] and [qsort] *)

Section Libc.
Context {K A : Type}.

(** [bsearch(key, base, nmemb, size, compar)]: halving of the interval
    [lo, hi). *)
Fixpoint bsearch_go (fuel : nat) (compar : K -> A -> Z) (key : K)
    (base : list A) (lo hi : nat) : option A :=
  match fuel with
  | O => None
  | S fuel' =>
      if (lo <? hi)%nat then
        let idx := ((lo + hi) / 2)%nat in
        match nth_error base idx with
        | None => None
        | Some p =>
            let c := compar key p in
            if c <? 0 then bsearch_go fuel' compar key base lo idx
            else if c >? 0 then bsearch_go fuel' compar key base (S idx) hi
            else Some p
        end
      else None
  end.

Definition bsearch (compar : K -> A -> Z) (key : K) (base : list A)
    : option A :=
  bsearch_go (S (length base)) compar key base 0 (length base).
End Libc.

Section Qsort.
Context {A : Type} (compar : A -> A -> Z).

Fixpoint qsort_insert (x : A) (l : list A) : list A :=
  match l with
  | [] => [x]
  | y :: t => if compar x y <=? 0 then x :: y :: t else y :: qsort_insert x t
  end.

(** [qsort] as a stable insertion sort.  C leaves the relative order of
    elements that compare equal unspecified. *)
Definition qsort (l : list A) : list A := fold_right qsort_insert [] l.
End Qsort.

(** ** Sorted sequences and their [Add] *)

Section SeqAdd.
Context {A : Type} (cmp : A -> A -> Z).

(** The search loop shared by [valsAdd] and [infsAdd]:
    [while (lo < hi) { mid = lo + (hi - lo) / 2; c = cmp(item, v[mid]);
       if (c == 0) return v[mid]; if (c < 0) hi = mid; else lo = mid + 1; }]
    The result is the element found, or the insertion position [lo]. *)
Fixpoint add_search (fuel : nat) (v : list A) (item : A) (lo hi : nat)
    : A + nat :=
  match fuel with
  | O => inr lo
  | S fuel' =>
      if (lo <? hi)%nat then
        let mid := (lo + (hi - lo) / 2)%nat in
        match nth_error v mid with
        | None => inr lo
        | Some e =>
            let c := cmp item e in
            if c =? 0 then inl e
            else if c <? 0 then add_search fuel' v item lo mid
            else add_search fuel' v item (S mid) hi
        end
      else inr lo
  end.

(** [memmove(v + lo + 1, v + lo, ...); v[lo] = item; ++n]. *)
Definition insert_at (lo : nat) (item : A) (v : list A) : list A :=
  firstn lo v ++ item :: skipn lo v.

(** Binary insertion ([valsAdd], [infsAdd]).  [mem] is the outcome of
    [realloc]; the result is the canonical element (or [None] for the
    null pointer) and the sequence after the call. *)
Definition seqAdd (mem : bool) (v : list A) (item : A)
    : option A * list A :=
  match add_search (S (length v)) v item 0 (length v) with
  | inl e => (Some e, v)
  | inr lo =>
      if mem then (Some item, insert_at lo item v) else (None, v)
  end.

(** [bsearch], append, [qsort] ([symsAdd], [namsAdd]). *)
Definition seqAddQ (mem : bool) (v : list A) (item : A)
    : option A * list A :=
  match bsearch cmp item v with
  | Some e => (Some e, v)
  | None =>
      if mem then (Some item, qsort cmp (v ++ [item])) else (None, v)
  end.
End SeqAdd.

Definition symsAdd (mem : bool) (syms : list sym_t) (sym : sym_t) :=
  seqAddQ symCmp mem syms sym.

Definition namsAdd (mem : bool) (nams : list nam_t) (nam : nam_t) :=
  seqAddQ namCmp mem nams nam.

Definition valsAdd (mem : bool) (vals : vals_t) (val : val_t) :=
  seqAdd valCmp mem vals val.

Definition infsAdd (mem : bool) (infs : infs_t) (inf : inf_t) :=
  seqAdd infCmp mem infs inf.

(** ** The object graph *)

(** The loaded registries ([csv->nams], [csv->infs]) and the [infs] fields
    of the values, which [namsInd] populates for the independent ones. *)
Record ctx_t : Type := mkCtx {
  ctx_nams : list nam_t;
  ctx_infs : infs_t;
  ctx_vinfs : list (val_t * infs_t)
}.

Definition nam_of (cx : ctx_t) (n : sym_t) : option nam_t :=
  find (fun m => nam_eqb (nam_sym m) n) (ctx_nams cx).

(** [val->nam->vals]. *)
Definition namVals (cx : ctx_t) (v : val_t) : vals_t :=
  match nam_of cx (val_nam v) with
  | Some m => nam_vals m
  | None => []
  end.

Fixpoint vinfs_find (tbl : list (val_t * infs_t)) (v : val_t)
    : option infs_t :=
  match tbl with
  | [] => None
  | (w, i) :: tbl' => if val_eqb w v then Some i else vinfs_find tbl' v
  end.

(** [val->infs]; [None] is the null pointer. *)
Definition valInfs (cx : ctx_t) (v : val_t) : option infs_t :=
  vinfs_find (ctx_vinfs cx) v.

(** [val->infs] where the code dereferences it without a test; [main]
    has checked that it is populated. *)
Definition valInfsD (cx : ctx_t) (v : val_t) : infs_t :=
  match valInfs cx v with
  | Some i => i
  | None => []
  end.

Definition len {A : Type} (l : list A) : Z := Z.of_nat (length l).

(** ** Transitive closure and independence analysis *)

(** One pass of the two nested [for] loops of [infsValTrnAdd] over the
    frontier [v1]: the accumulator [r] and the next frontier [v2]. *)
Definition trn_round (v1 : vals_t) (infs : infs_t) (r : infs_t)
    (v2 : vals_t) : infs_t * vals_t :=
  fold_left
    (fun acc x =>
       fold_left
         (fun acc' inf =>
            match inf_vals inf with
            | [c] =>
                if val_eqb c x then
                  (snd (infsAdd true (fst acc') inf),
                   snd (valsAdd true (snd acc') (inf_val inf)))
                else acc'
            | _ => acc'
            end)
         infs acc)
    v1 (r, v2).

(** The [for (;;)] loop of [infsValTrnAdd]. *)
Fixpoint infsValTrnAdd_loop (fuel : nat) (v1 : vals_t) (infs : infs_t)
    (r : infs_t) : option infs_t :=
  match fuel with
  | O => None
  | S fuel' =>
      let '(r', v2) := trn_round v1 infs r [] in
      match v2 with
      | [] => Some r'
      | _ :: _ => infsValTrnAdd_loop fuel' v2 infs r'
      end
  end.

(** Single dependency transitive closure. *)
Definition infsValTrnAdd (fuel : nat) (val : val_t) (infs : infs_t)
    (r : infs_t) : option infs_t :=
  infsValTrnAdd_loop fuel (snd (valsAdd true [] val)) infs r.

Definition infsVal (val : val_t) (infs : infs_t) (r : infs_t) : infs_t :=
  let v := snd (valsAdd true [] val) in
  fold_left
    (fun r x =>
       fold_left
         (fun r inf =>
            match bsearch valCmp x (inf_vals inf) with
            | Some _ => snd (infsAdd true r inf)
            | None => r
            end)
         infs r)
    v r.

(** [infsValSchCmp]. *)
Definition infsValSchCmp (k : val_t) (e : inf_t) : Z := valCmp k (inf_val e).

(** First loop of [namsInd]: the values that are no conclusion. *)
Definition namsInd_vals (nams : list nam_t) (infs : infs_t)
    : option vals_t :=
  fold_left
    (fun acc nam =>
       fold_left
         (fun acc v =>
            match acc with
            | None => None
            | Some r =>
                match bsearch infsValSchCmp v infs with
                | Some _ => Some r
                | None =>
                    match valsAdd true r v with
                    | (Some e, r') => if val_eqb e v then Some r' else None
                    | (None, _) => None
                    end
                end
            end)
         (nam_vals nam) acc)
    nams (Some []).

(** Independent values, with the [infs] field each of them receives. *)
Definition namsInd (nams : list nam_t) (infs : infs_t)
    : option (vals_t * list (val_t * infs_t)) :=
  match namsInd_vals nams infs with
  | None => None
  | Some r => Some (r, map (fun v => (v, infsVal v infs [])) r)
  end.

(** ** Candidate order *)

Section Resolution.
Variable cx : ctx_t.

(** Sum of the "other" infs of [e]. *)
Definition othInfs (e : val_t) : Z :=
  fold_left
    (fun o s => if val_eqb s e then o else o + len (valInfsD cx s))
    (namVals cx e) 0.

Definition valsInfsCmp (e1 e2 : val_t) : Z :=
  let o1 := othInfs e1 in
  let o2 := othInfs e2 in
  let n1 := len (valInfsD cx e1) in
  let n2 := len (valInfsD cx e2) in
  let i1 := if n1 >? o1 then n1 - o1 else o1 - n1 in
  let i2 := if n2 >? o2 then n2 - o2 else o2 - n2 in
  if i1 <? i2 then -1
  else if i1 >? i2 then 1
  else
    let i1 := if n1 >? o1 then o1 else n1 in
    let i2 := if n2 >? o2 then o2 else n2 in
    if i1 >? i2 then -1 else if i1 <? i2 then 1 else 0.

(** ** Resolution algebra *)

(** [val] occurs among the conditions of some member of [infs]. *)
Definition inConds (v : val_t) (infs : infs_t) : bool :=
  existsb
    (fun inf =>
       match bsearch valCmp v (inf_vals inf) with
       | Some _ => true
       | None => false
       end)
    infs.

Definition valsSubValNam (vals : vals_t) (val : val_t) (infs : infs_t)
    : vals_t :=
  filter
    (fun v => negb (nam_eqb (val_nam v) (val_nam val)) && inConds v infs)
    vals.

Definition valsSubVal (vals : vals_t) (val : val_t) (infs : infs_t)
    : vals_t :=
  let r := filter (fun v => negb (val_eqb v val) && inConds v infs) vals in
  let j :=
    length (filter (fun v => nam_eqb (val_nam v) (val_nam val)) r) in
  if (j =? 1)%nat then
    filter (fun v => negb (nam_eqb (val_nam v) (val_nam val))) r
  else r.

Definition inVals (v : val_t) (vals : vals_t) : bool :=
  match bsearch valCmp v vals with
  | Some _ => true
  | None => false
  end.

(** The test applied by [infsResVal] to a member [inf] of both sets:
    no condition other than [val] is still in [vals] or concluded by an
    inference that has a condition in [vals]. *)
Definition resolved (vals : vals_t) (infs : infs_t) (val : val_t)
    (inf : inf_t) : bool :=
  forallb
    (fun c =>
       if val_eqb c val then true
       else if inVals c vals then false
       else
         negb
           (existsb
              (fun m =>
                 val_eqb c (inf_val m)
                 && existsb (fun x => inVals x vals) (inf_vals m))
              infs))
    (inf_vals inf).

(** The merge loop of [infsResVal] over [infs] (from index [i]) and
    [val->infs] (from index [j]). *)
Fixpoint infsResVal_merge (vals : vals_t) (infs : infs_t) (val : val_t)
    (l1 : infs_t) : infs_t -> infs_t :=
  fix inner (l2 : infs_t) : infs_t :=
    match l1, l2 with
    | a :: t1, b :: t2 =>
        let c := infCmp a b in
        if c <? 0 then infsResVal_merge vals infs val t1 l2
        else if c >? 0 then inner t2
        else if resolved vals infs val a
             then a :: infsResVal_merge vals infs val t1 t2
             else infsResVal_merge vals infs val t1 t2
    | _, _ => []
    end.

Definition infsResVal (vals : vals_t) (infs : infs_t) (val : val_t)
    : infs_t :=
  infsResVal_merge vals infs val infs (valInfsD cx val).

Definition infsResValNam (vals : vals_t) (infs : infs_t) (val : val_t)
    : infs_t :=
  let r :=
    fold_left
      (fun (r : option infs_t) s =>
         if val_eqb s val then r
         else if negb (inVals s vals) then r
         else
           Some (infsResVal vals
                   (match r with Some r' => r' | None => infs end) s))
      (namVals cx val) None in
  match r with
  | Some r' => r'
  | None => []
  end.

(** Minus. *)
Fixpoint infsMnsInfs (infs1 : infs_t) : infs_t -> infs_t :=
  fix inner (infs2 : infs_t) : infs_t :=
    match infs1, infs2 with
    | a :: t1, b :: t2 =>
        let c := infCmp a b in
        if c <? 0 then a :: infsMnsInfs t1 infs2
        else if c >? 0 then inner t2
        else infsMnsInfs t1 t2
    | _, [] => infs1
    | [], _ => []
    end.

(** Strip inf with same val or other vals. *)
Definition infsSrpInfs (infs1 infs2 : infs_t) : infs_t :=
  filter
    (fun a =>
       match bsearch infsValSchCmp (inf_val a) infs2 with
       | Some _ => false
       | None =>
           forallb
             (fun c =>
                negb
                  (existsb
                     (fun b =>
                        negb (val_eqb c (inf_val b))
                        && nam_eqb (val_nam c) (val_nam (inf_val b)))
                     infs2))
             (inf_vals a)
       end)
    infs1.
End Resolution.

(** ** Tree nodes *)

(** [struct nod].  [nod_id] is the identity of the allocation; the [lbl]
    field is kept by the emitter. *)
#[local] Unset Elimination Schemes.
Inductive nod_t : Type :=
  Nod (id : nat) (val : option val_t) (infsV infsO : option infs_t)
      (nodV nodO : option nod_t) (d : nat).
#[local] Set Elimination Schemes.

Definition nod_id (n : nod_t) : nat := let '(Nod i _ _ _ _ _ _) := n in i.
Definition nod_val (n : nod_t) : option val_t :=
  let '(Nod _ v _ _ _ _ _) := n in v.
Definition nod_infsV (n : nod_t) : option infs_t :=
  let '(Nod _ _ i _ _ _ _) := n in i.
Definition nod_infsO (n : nod_t) : option infs_t :=
  let '(Nod _ _ _ i _ _ _) := n in i.
Definition nod_nodV (n : nod_t) : option nod_t :=
  let '(Nod _ _ _ _ c _ _) := n in c.
Definition nod_nodO (n : nod_t) : option nod_t :=
  let '(Nod _ _ _ _ _ c _) := n in c.
Definition nod_d (n : nod_t) : nat := let '(Nod _ _ _ _ _ _ d) := n in d.

(** [nodNew]: [calloc] of a node, at a fresh identity. *)
Definition nodNew (id : nat) : nod_t := Nod id None None None None None 0.

(** The node bears a test ([nod->val] is set). *)
Definition hasVal (n : nod_t) : bool :=
  match nod_val n with Some _ => true | None => false end.

(** ** Consistency check *)

(** A line of the diagnostic stream. *)
Inductive diag_t : Type :=
  | DNames (n : nat)
  | DInferences (n : nat)
  | DFewValues (nam : sym_t)
  | DNoDependencies (fil : String.string) (row : Z)
  | DNoIndependent
  | DDependentValue (nam : sym_t) (sym : sym_t)
  | DIndependent (n : nat)
  | DBuildFailed
  | DUnresolvable (nam : sym_t)
      (sym1 : sym_t) (fil1 : String.string) (row1 : Z)
      (sym2 : sym_t) (fil2 : String.string) (row2 : Z).

(** The inner loop of [infsChk] for a fixed [i]. *)
Definition infsChk_row (a : inf_t) (rest : infs_t) : list diag_t :=
  flat_map
    (fun b =>
       if nam_eqb (val_nam (inf_val a)) (val_nam (inf_val b))
          && negb (val_eqb (inf_val a) (inf_val b))
       then [DUnresolvable (val_nam (inf_val a))
               (val_sym (inf_val a)) (inf_fil a) (inf_row a)
               (val_sym (inf_val b)) (inf_fil b) (inf_row b)]
       else [])
    rest.

Fixpoint infsChk_list (infs : infs_t) : list diag_t :=
  match infs with
  | [] => []
  | a :: rest => infsChk_row a rest ++ infsChk_list rest
  end.

(** [infsChk]: the diagnostics written; the C result is 1 when there are
    any. *)
Definition infsChk (infs : option infs_t) : list diag_t :=
  match infs with
  | None => []
  | Some i => infsChk_list i
  end.

Fixpoint nodChk (nod : nod_t) : list diag_t :=
  let '(Nod _ _ infsV infsO nodV nodO _) := nod in
  infsChk infsV ++ infsChk infsO
  ++ match nodV with Some c => nodChk c | None => [] end
  ++ match nodO with Some c => nodChk c | None => [] end.

(** ** Memoisation store *)

(** [struct bld]. *)
Record bld_t : Type := mkBld {
  bld_vals : vals_t;
  bld_infs : infs_t;
  bld_nod : nod_t
}.

Definition bldCmp (e1 e2 : bld_t) : Z :=
  let r := valsCmp (bld_vals e1) (bld_vals e2) in
  if r =? 0 then infsCmp (bld_infs e1) (bld_infs e2) else r.

(** The key [k] built on the stack by [bldsFnd]. *)
Definition bldKeyCmp (k : vals_t * infs_t) (e : bld_t) : Z :=
  let r := valsCmp (fst k) (bld_vals e) in
  if r =? 0 then infsCmp (snd k) (bld_infs e) else r.

Definition bldsFnd (blds : list bld_t) (vals : vals_t) (infs : infs_t)
    : option bld_t :=
  bsearch bldKeyCmp (vals, infs) blds.

(** The search loop of [bldsAdd] (no test for equality). *)
Fixpoint bldsAdd_search (fuel : nat) (v : list bld_t) (bld : bld_t)
    (lo hi : nat) : nat :=
  match fuel with
  | O => lo
  | S fuel' =>
      if (lo <? hi)%nat then
        let mid := (lo + (hi - lo) / 2)%nat in
        match nth_error v mid with
        | None => lo
        | Some e =>
            if bldCmp bld e <? 0 then bldsAdd_search fuel' v bld lo mid
            else bldsAdd_search fuel' v bld (S mid) hi
        end
      else lo
  end.

Definition bldsAdd (blds : list bld_t) (bld : bld_t) : list bld_t :=
  insert_at (bldsAdd_search (S (length blds)) blds bld 0 (length blds))
    bld blds.

(** ** Tree builder *)

(** Outcome of a call that may return the null pointer or run for ever. *)
Inductive res (A : Type) : Type :=
  | Ret (a : A)
  | Fail
  | Timeout.
Arguments Ret {A} a.
Arguments Fail {A}.
Arguments Timeout {A}.

(** The store [blds] and the allocation counter of [nodNew]. *)
Record bst_t : Type := mkBst { st_blds : list bld_t; st_next : nat }.

(** What becomes of one candidate of the loop of [nodBld]. *)
Inductive cand_t : Type :=
  | CandEmpty                (* a created child frontier is empty *)
  | CandNoTest               (* a child without test *)
  | CandNode (r : nod_t).    (* reaches the comparison with the bound *)

Section Builder.
Variable cx : ctx_t.
(** The [qsort] call on the candidates. *)
Variable sortv : (val_t -> val_t -> Z) -> vals_t -> vals_t.
(** Fuel of the closure loops. *)
Variable tf : nat.
Variable q : bool.

(** [for (j = 0; j < nV->n; ++j) infsValTrnAdd(nV->v[j]->val, infs, nV)]:
    [nV] grows while it is traversed. *)
Fixpoint trnAll (fuel j : nat) (infs nV : infs_t) : option infs_t :=
  match fuel with
  | O => None
  | S fuel' =>
      match nth_error nV j with
      | None => Some nV
      | Some x =>
          match infsValTrnAdd tf (inf_val x) infs nV with
          | None => None
          | Some nV' => trnAll fuel' (S j) infs nV'
          end
      end
  end.

(** [r->infsV] (resp. [r->infsO]) from the resolved set. *)
Definition inflate (infs nV : infs_t) : option (option infs_t) :=
  match nV with
  | [] => Some None
  | _ :: _ =>
      match trnAll tf 0 infs nV with
      | None => None
      | Some nV' => Some (Some nV')
      end
  end.

(** [infs] minus the infs of every sibling of [t]; null without sibling. *)
Definition mnsSiblings (infs : infs_t) (t : val_t) : option infs_t :=
  fold_left
    (fun (d : option infs_t) s =>
       if val_eqb s t then d
       else
         Some (infsMnsInfs (match d with Some d' => d' | None => infs end)
                 (valInfsD cx s)))
    (namVals cx t) None.

Definition strip (n : infs_t) (i : option infs_t) : infs_t :=
  match n, i with
  | _ :: _, Some i' => infsSrpInfs n i'
  | _, _ => n
  end.

Definition isEmpty {A : Type} (l : list A) : bool :=
  match l with [] => true | _ :: _ => false end.

Definition rec_t : Type :=
  bst_t -> vals_t -> infs_t -> nat -> res (bst_t * nod_t).

(** The body of the candidate loop up to the comparison with [bd]. *)
Definition cand (rec : rec_t) (st : bst_t) (vals : vals_t) (infs : infs_t)
    (bd : nat) (t : val_t) : res (bst_t * cand_t) :=
  let id := st_next st in
  let st := mkBst (st_blds st) (S id) in
  let nV := infsResVal cx vals infs t in
  let nO := infsResValNam cx vals infs t in
  match inflate infs nV with
  | None => Timeout
  | Some infsV =>
  match inflate infs nO with
  | None => Timeout
  | Some infsO =>
  match mnsSiblings infs t with
  | None => Fail
  | Some nV =>
      let nO := infsMnsInfs infs (valInfsD cx t) in
      let nV := strip nV infsV in
      let nO := strip nO infsO in
      let fV :=
        if isEmpty nV then None else Some (valsSubValNam vals t nV) in
      let fO :=
        if isEmpty nO then None else Some (valsSubVal vals t nO) in
      if match fV with Some [] => true | _ => false end
         || match fO with Some [] => true | _ => false end
      then Ret (st, CandEmpty)
      else
        let rV :=
          match fV with
          | Some f =>
              match rec st f nV bd with
              | Ret (st', n) => Ret (st', Some n)
              | Fail => Fail
              | Timeout => Timeout
              end
          | None => Ret (st, None)
          end in
        match rV with
        | Fail => Fail
        | Timeout => Timeout
        | Ret (st, nodV) =>
        let rO :=
          match fO with
          | Some f =>
              match rec st f nO bd with
              | Ret (st', n) => Ret (st', Some n)
              | Fail => Fail
              | Timeout => Timeout
              end
          | None => Ret (st, None)
          end in
        match rO with
        | Fail => Fail
        | Timeout => Timeout
        | Ret (st, nodO) =>
            let mk d := Ret (st, CandNode (Nod id (Some t) infsV infsO nodV nodO d)) in
            match nodV, nodO with
            | None, None => mk O
            | Some v, Some o =>
                if hasVal v && hasVal o
                then mk (1 + (if (nod_d o <? nod_d v)%nat
                              then nod_d v else nod_d o))%nat
                else Ret (st, CandNoTest)
            | Some v, None =>
                if hasVal v then mk (1 + nod_d v)%nat
                else Ret (st, CandNoTest)
            | None, Some o =>
                if hasVal o then mk (1 + nod_d o)%nat
                else Ret (st, CandNoTest)
            end
        end
        end
  end
  end
  end.

(** State of the candidate loop: the store, [bld->nod], [bd], and whether
    [break] was taken. *)
Record loop_t : Type := mkLoop {
  l_st : bst_t;
  l_nod : nod_t;
  l_bd : nat;
  l_brk : bool
}.

(** One turn of [for (i = 0; i < vs->n; ++i)]. *)
Definition nodBld_step (rec : rec_t) (vals : vals_t) (infs : infs_t)
    (s : loop_t) (t : val_t) : res loop_t :=
  if l_brk s then Ret s
  else
    match cand rec (l_st s) vals infs (l_bd s) t with
    | Fail => Fail
    | Timeout => Timeout
    | Ret (st, CandEmpty) | Ret (st, CandNoTest) =>
        Ret (mkLoop st (l_nod s) (l_bd s) false)
    | Ret (st, CandNode r) =>
        if (l_bd s <? nod_d r)%nat then
          Ret (mkLoop st (l_nod s) (l_bd s) false)
        else if negb (hasVal (l_nod s)) || (nod_d r <? nod_d (l_nod s))%nat
        then
          if q || (nod_d r =? 0)%nat
          then Ret (mkLoop st r (l_bd s) true)
          else Ret (mkLoop st r (nod_d r) false)
        else Ret (mkLoop st (l_nod s) (l_bd s) false)
    end.

Fixpoint nodBld_iter (rec : rec_t) (vals : vals_t) (infs : infs_t)
    (s : loop_t) (vs : vals_t) : res loop_t :=
  match vs with
  | [] => Ret s
  | t :: vs' =>
      match nodBld_step rec vals infs s t with
      | Ret s' => nodBld_iter rec vals infs s' vs'
      | Fail => Fail
      | Timeout => Timeout
      end
  end.

(** The leaf that ends the call when no candidate was installed. *)
Definition finish (infs : infs_t) (n : nod_t) : nod_t :=
  if hasVal n then n
  else Nod (nod_id n) None (Some infs) (nod_infsO n) (nod_nodV n)
         (nod_nodO n) (nod_d n).

(** [nodBld] past the store lookup. *)
Definition nodBld_fresh (rec : rec_t) (st : bst_t) (vals : vals_t)
    (infs : infs_t) (bd : nat) : res (bst_t * nod_t) :=
  let id := st_next st in
  let st := mkBst (st_blds st) (S id) in
  let vs := sortv (valsInfsCmp cx) vals in
  match nodBld_iter rec vals infs (mkLoop st (nodNew id) bd false) vs with
  | Fail => Fail
  | Timeout => Timeout
  | Ret s =>
      let n := finish infs (l_nod s) in
      Ret (mkBst (bldsAdd (st_blds (l_st s)) (mkBld vals infs n))
             (st_next (l_st s)), n)
  end.

Definition nodBld_body (rec : rec_t) : rec_t :=
  fun st vals infs bd =>
    match bldsFnd (st_blds st) vals infs with
    | Some bld => Ret (st, bld_nod bld)
    | None => nodBld_fresh rec st vals infs bd
    end.

(** [nodBld]; [fuel] bounds the depth of the recursion. *)
Fixpoint nodBld (fuel : nat) : rec_t :=
  match fuel with
  | O => fun _ _ _ _ => Timeout
  | S fuel' => nodBld_body (nodBld fuel')
  end.
End Builder.

(** ** Emitter *)

(** A line of the listing.  Names and values are printed through the CSV
    codec; the lines are kept structured. *)
Inductive line_t : Type :=
  | LD (n : nat)
  | LI (v : val_t)
  | LO (v : val_t)
  | LT (v : val_t) (l : nat)
  | LR (v : val_t)
  | LL (l : nat)
  | LJ (l : nat).

(** [struct out], with the [lbl] fields of the nodes and the lines printed
    so far (most recent first). *)
Record out_t : Type := mkOut {
  out_b : list (option infs_t * option nat * nat);
  out_l : nat;
  out_lbl : list (nat * nat);
  out_lines : list line_t
}.

Definition put (ln : line_t) (out : out_t) : out_t :=
  mkOut (out_b out) (out_l out) (out_lbl out) (ln :: out_lines out).

Fixpoint lbl_find (tbl : list (nat * nat)) (id : nat) : nat :=
  match tbl with
  | [] => O
  | (i, l) :: tbl' => if (i =? id)%nat then l else lbl_find tbl' id
  end.

(** [nod->lbl]. *)
Definition getLbl (out : out_t) (id : nat) : nat := lbl_find (out_lbl out) id.

(** [nod->lbl = l]. *)
Definition setLbl (out : out_t) (id l : nat) : out_t :=
  mkOut (out_b out) (out_l out) ((id, l) :: out_lbl out) (out_lines out).

(** Compare infs by result values: [true] when [outCmp] returns 0. *)
Fixpoint outCmp_list (a b : infs_t) : bool :=
  match a, b with
  | [], [] => true
  | x :: a', y :: b' =>
      (valCmp (inf_val x) (inf_val y) =? 0) && outCmp_list a' b'
  | _, _ => false
  end.

Definition outCmp (a b : option infs_t) : bool :=
  match a, b with
  | None, None => true
  | Some a', Some b' =>
      (length a' =? length b')%nat && outCmp_list a' b'
  | _, _ => false
  end.

Definition ptr_eqb (a b : option nat) : bool :=
  match a, b with
  | None, None => true
  | Some x, Some y => (x =? y)%nat
  | _, _ => false
  end.

(** Find or reserve label for branch: the label, [dup], the new state. *)
Definition outBrnLbl (out : out_t) (infs : option infs_t)
    (nod : option nat) : nat * bool * out_t :=
  match find (fun e => ptr_eqb (snd (fst e)) nod && outCmp (fst (fst e)) infs)
          (out_b out) with
  | Some e => (snd e, true, out)
  | None =>
      let i := out_l out in
      (i, false,
       mkOut (out_b out ++ [(infs, nod, i)]) (S i) (out_lbl out)
         (out_lines out))
  end.

Definition putR (infs : option infs_t) (out : out_t) : out_t :=
  match infs with
  | None => out
  | Some i => fold_left (fun o x => put (LR (inf_val x)) o) i out
  end.

(** Output branch content. *)
Definition outBrnCon (outNod : nod_t -> out_t -> out_t) (out : out_t)
    (infs : option infs_t) (nod : option nod_t) : out_t :=
  let out := putR infs out in
  match nod with
  | Some c => outNod c out
  | None => put (LJ 0) out
  end.

(** Output branch with deduplication. *)
Definition outBrn (outNod : nod_t -> out_t -> out_t) (out : out_t)
    (infs : option infs_t) (nod : option nod_t) : out_t :=
  let '(l, dup, out) := outBrnLbl out infs (option_map nod_id nod) in
  if dup then put (LJ l) out
  else outBrnCon outNod (put (LL l) out) infs nod.

(** Output node. *)
Fixpoint outNod (nod : nod_t) (out : out_t) : out_t :=
  let '(Nod id val infsV infsO nodV nodO _) := nod in
  match getLbl out id with
  | S _ => put (LJ (getLbl out id)) out
  | O =>
      let out := setLbl out id (out_l out) in
      match val with
      | None => putR infsV out
      | Some v =>
          let '(l, dup, out) :=
            outBrnLbl out infsV (option_map nod_id nodV) in
          let out := put (LT v l) out in
          let out := outBrn outNod out infsO nodO in
          if dup then out
          else outBrnCon outNod (put (LL l) out) infsV nodV
      end
  end.

(** ** The driver, after the files are parsed *)

(** The [O] lines: one per conclusion, consecutive repetitions skipped. *)
Fixpoint outO (prev : option val_t) (infs : infs_t) : list line_t :=
  match infs with
  | [] => []
  | a :: rest =>
      let tl := outO (Some (inf_val a)) rest in
      match prev with
      | Some p => if val_eqb (inf_val a) p then tl else LO (inf_val a) :: tl
      | None => LO (inf_val a) :: tl
      end
  end.

(** What a run leaves on the standard output and on the diagnostic
    stream. *)
Record run_t : Type := mkRun { r_out : list line_t; r_err : list diag_t }.

Section Main.
Variable sortv : (val_t -> val_t -> Z) -> vals_t -> vals_t.
(** Fuel of the closure loops and of the recursion of [nodBld]. *)
Variable tf fuel : nat.

(** The tree built by [main] for the loaded registries. *)
Definition main_ctx (nams : list nam_t) (infs : infs_t)
    (tbl : list (val_t * infs_t)) : ctx_t :=
  mkCtx nams infs tbl.

Definition main_build (q : bool) (nams : list nam_t) (infs : infs_t)
    (vals : vals_t) (tbl : list (val_t * infs_t))
    : res (bst_t * nod_t) :=
  nodBld (main_ctx nams infs tbl) sortv tf q fuel (mkBst [] 0) vals infs
    (length vals).

(** [main] from the two [fprintf] of the counts up to the call of
    [nodBld]: the diagnostics of a run that stops there, or the
    independent values with their [infs]. *)
Definition main_pre (nams : list nam_t) (infs : infs_t)
    : list diag_t + (vals_t * list (val_t * infs_t)) :=
  let e0 := [DNames (length nams); DInferences (length infs)] in
  let e1 :=
    flat_map
      (fun m =>
         if (length (nam_vals m) <? 2)%nat then [DFewValues (nam_sym m)]
         else [])
      nams in
  let e2 :=
    flat_map
      (fun a =>
         if isEmpty (inf_vals a)
         then [DNoDependencies (inf_fil a) (inf_row a)]
         else [])
      infs in
  if negb (isEmpty (e1 ++ e2)) then inl (e0 ++ e1 ++ e2)
  else
    match namsInd nams infs with
    | None | Some ([], _) => inl (e0 ++ [DNoIndependent])
    | Some (vals, tbl) =>
        let cx := main_ctx nams infs tbl in
        let e3 :=
          flat_map
            (fun v =>
               flat_map
                 (fun s =>
                    match valInfs cx s with
                    | None => [DDependentValue (val_nam v) (val_sym s)]
                    | Some _ => []
                    end)
                 (namVals cx v))
            vals in
        if negb (isEmpty e3) then inl (e0 ++ e3)
        else inr (vals, tbl)
    end.

(** The rest of [main]; [None] when the run does not end. *)
Definition main (q : bool) (nams : list nam_t) (infs : infs_t)
    : option run_t :=
  match main_pre nams infs with
  | inl e => Some (mkRun [] e)
  | inr (vals, tbl) =>
      let e4 :=
        [DNames (length nams); DInferences (length infs);
         DIndependent (length vals)] in
      let o1 := map LI vals ++ outO None infs in
      match main_build q nams infs vals tbl with
      | Timeout => None
      | Fail => Some (mkRun o1 (e4 ++ [DBuildFailed]))
      | Ret (_, nod) =>
          match nodChk nod with
          | (_ :: _) as e5 => Some (mkRun o1 (e4 ++ e5))
          | [] =>
              let out := outNod nod (mkOut [] 1 [] []) in
              Some (mkRun
                      (o1 ++ [LD (nod_d nod + 1)]
                       ++ rev (out_lines out) ++ [LL 0])
                      e4)
          end
      end
  end.
End Main.

(** * Predicates used in the statements *)

Definition Zc (c : comparison) : Z :=
  match c with Lt => -1 | Eq => 0 | Gt => 1 end.

(** Lengths that [symCmp] orders correctly: the difference of two of them
    fits an [int]. *)
Definition sym_ok (s : sym_t) : Prop := sym_n s < 2 ^ 31.

Record order_on {A : Type} (ok : A -> Prop) (cmp : A -> A -> Z) : Prop :=
  mkOrder {
    ord_refl : forall a, ok a -> cmp a a = 0;
    ord_antisym : forall a b, ok a -> ok b -> cmp b a = - cmp a b;
    ord_trans : forall a b c, ok a -> ok b -> ok c ->
      cmp a b < 0 -> cmp b c < 0 -> cmp a c < 0;
    ord_eq_l : forall a b c, ok a -> ok b -> ok c ->
      cmp a b = 0 -> cmp a c = cmp b c
  }.

Definition val_ok (v : val_t) : Prop :=
  sym_ok (val_nam v) /\ sym_ok (val_sym v).

Definition nam_ok (m : nam_t) : Prop := sym_ok (nam_sym m).

Definition inf_ok (a : inf_t) : Prop :=
  val_ok (inf_val a) /\ Forall val_ok (inf_vals a).

(** Strictly ascending under [cmp]. *)
Definition sorted {A : Type} (cmp : A -> A -> Z) (v : list A) : Prop :=
  StronglySorted (fun a b => cmp a b < 0) v.

(** What the spec asks of an [Add] on a sorted sequence. *)
Definition AddSpec {A : Type} (ok : A -> Prop) (cmp : A -> A -> Z)
    (add : bool -> list A -> A -> option A * list A) : Prop :=
  forall (mem : bool) (v : list A) (item : A),
    sorted cmp v -> Forall ok v -> ok item ->
    ((exists e, In e v /\ cmp item e = 0) ->
     exists e, add mem v item = (Some e, v) /\ In e v /\ cmp item e = 0)
    /\ ((forall e, In e v -> cmp item e <> 0) ->
        exists l1 l2,
          v = l1 ++ l2
          /\ add true v item = (Some item, l1 ++ item :: l2)
          /\ (forall p, In p l1 -> cmp p item < 0)
          /\ (forall p, In p l2 -> cmp item p < 0))
    /\ sorted cmp (snd (add mem v item)).

(** The conditions of an inference as the loader leaves them. *)
Definition conds_ok (a : inf_t) : Prop :=
  sorted valCmp (inf_vals a) /\ Forall val_ok (inf_vals a).

(** [v] is a condition of some member of [infs]. *)
Definition isCond (infs : infs_t) (v : val_t) : bool :=
  existsb (fun a => existsb (val_eqb v) (inf_vals a)) infs.

(** The Name of [v] is the Name of a condition of some member of [infs]. *)
Definition isCondNam (infs : infs_t) (v : val_t) : bool :=
  existsb
    (fun a => existsb (fun c => nam_eqb (val_nam c) (val_nam v)) (inf_vals a))
    infs.

(** The test-false frontier in the words of the spec, for a given reading
    [keep] of "still appears in some condition". *)
Definition valsSubVal_by (keep : val_t -> bool) (vals : vals_t)
    (t : val_t) : vals_t :=
  let r := filter (fun v => negb (val_eqb v t) && keep v) vals in
  if (length (filter (fun v => nam_eqb (val_nam v) (val_nam t)) r) =? 1)%nat
  then filter (fun v => negb (nam_eqb (val_nam v) (val_nam t))) r
  else r.

(** ** Shape of the built tree *)

(** The relation between the fields of a node that [nodBld] maintains: a
    node without test is a bare leaf; the children of a node with test bear
    tests, and [d] is 0 without child and one more than the deeper child
    otherwise. *)
Fixpoint wf (n : nod_t) : Prop :=
  let '(Nod _ val _ _ nodV nodO d) := n in
  match val with
  | None => nodV = None /\ nodO = None /\ d = O
  | Some _ =>
      match nodV, nodO with
      | None, None => d = O
      | Some v, None => hasVal v = true /\ wf v /\ d = S (nod_d v)
      | None, Some o => hasVal o = true /\ wf o /\ d = S (nod_d o)
      | Some v, Some o =>
          hasVal v = true /\ hasVal o = true /\ wf v /\ wf o
          /\ d = S (Nat.max (nod_d v) (nod_d o))
      end
  end.

(** Largest number of tests on a path from the node to a terminal. *)
Fixpoint tests (n : nod_t) : nat :=
  let '(Nod _ val _ _ nodV nodO _) := n in
  match val with
  | None => O
  | Some _ =>
      S (Nat.max (match nodV with Some c => tests c | None => O end)
                 (match nodO with Some c => tests c | None => O end))
  end.

(** The nodes of a tree. *)
Fixpoint subnodes (n : nod_t) : list nod_t :=
  let '(Nod _ _ _ _ nodV nodO _) := n in
  n :: match nodV with Some c => subnodes c | None => [] end
    ++ match nodO with Some c => subnodes c | None => [] end.

(** ** The candidate loop in non-quick mode *)

Section Optimal.
Variable cx : ctx_t.
Variable sortv : (val_t -> val_t -> Z) -> vals_t -> vals_t.
Variable tf : nat.





End Optimal.


(** [P] holds of the entries of the store. *)
Definition store_ok (P : bld_t -> Prop) (st : bst_t) : Prop :=
  forall b, In b (st_blds st) -> P b.

(** A call of [rec] keeps [P] on the store and returns a node with [Q]. *)
Definition rec_ok (P : bld_t -> Prop) (Q : nod_t -> Prop) (rec : rec_t)
    : Prop :=
  forall st v i bd st' n,
    store_ok P st -> rec st v i bd = Ret (st', n) -> store_ok P st' /\ Q n.

(** The line belongs to the declarations ([I], [O]) that precede the
    listing. *)
Definition isDecl (ln : line_t) : bool :=
  match ln with
  | LI _ | LO _ => true
  | _ => false
  end.

(** [a] and [b] conclude the same Name with different Values. *)
Definition clash (a b : inf_t) : bool :=
  nam_eqb (val_nam (inf_val a)) (val_nam (inf_val b))
  && negb (val_eqb (inf_val a) (inf_val b)).

(** The diagnostic [infsChk] writes for the pair. *)
Definition unresolvable (a b : inf_t) : diag_t :=
  DUnresolvable (val_nam (inf_val a))
    (val_sym (inf_val a)) (inf_fil a) (inf_row a)
    (val_sym (inf_val b)) (inf_fil b) (inf_row b).

(** ** Sample tables *)

Module Samples.
Import Stdlib.Strings.String.
Local Open Scope string_scope.
Definition mkV (n s : String.string) : val_t := mkVal n s.
Definition mkI (c : val_t) (cs : vals_t) (row : Z) : inf_t :=
  mkInf c cs "t.csv" row.

(** [@A,B] / [x,1] / [y,2]. *)
Definition nams1 : list nam_t :=
  [mkNam "A" [mkV "A" "x"; mkV "A" "y"]; mkNam "B" [mkV "B" "1"; mkV "B" "2"]].
Definition infs1 : infs_t :=
  [mkI (mkV "A" "x") [mkV "B" "1"] 2; mkI (mkV "A" "y") [mkV "B" "2"] 3].

(** [@O,I0,I1,I2] / [a,,1,] / [b,1,0,] / [a,,0,0] / [a,,,1] / [a,0,1,0]. *)
Definition nams5 : list nam_t :=
  [mkNam "I0" [mkV "I0" "0"; mkV "I0" "1"];
   mkNam "I1" [mkV "I1" "0"; mkV "I1" "1"];
   mkNam "I2" [mkV "I2" "0"; mkV "I2" "1"];
   mkNam "O" [mkV "O" "a"; mkV "O" "b"]].
Definition infs5 : infs_t :=
  [mkI (mkV "O" "a") [mkV "I0" "0"; mkV "I1" "1"; mkV "I2" "0"] 6;
   mkI (mkV "O" "a") [mkV "I1" "0"; mkV "I2" "0"] 4;
   mkI (mkV "O" "a") [mkV "I1" "1"] 2;
   mkI (mkV "O" "a") [mkV "I2" "1"] 5;
   mkI (mkV "O" "b") [mkV "I0" "1"; mkV "I1" "0"] 3].

(** [@B,A] / [x,1] / [y,2] / [@C,B] / [p,x] / [q,y]: [C] hangs on [A]
    through [B]. *)
Definition namsC : list nam_t :=
  [mkNam "A" [mkV "A" "1"; mkV "A" "2"]; mkNam "B" [mkV "B" "x"; mkV "B" "y"];
   mkNam "C" [mkV "C" "p"; mkV "C" "q"]].
Definition infsC : infs_t :=
  [mkI (mkV "B" "x") [mkV "A" "1"] 2; mkI (mkV "B" "y") [mkV "A" "2"] 3;
   mkI (mkV "C" "p") [mkV "B" "x"] 5; mkI (mkV "C" "q") [mkV "B" "y"] 6].

(** A frontier and a reduced set where the Name [A] occurs in a condition
    but the Value [A=2] does not. *)
Definition valsS : vals_t :=
  [mkV "A" "1"; mkV "A" "2"; mkV "B" "1"; mkV "B" "2"].
Definition infsS : infs_t := [mkI (mkV "X" "p") [mkV "A" "1"] 2].

(** [@A,B] / [1,1] / [@A,C] / [1,1] / [2,2] / [@B,A] / [1,1] / [@B,C] /
    [2,2]: [A=1] and [B=1] follow from each other. *)
Definition namsY : list nam_t :=
  [mkNam "A" [mkV "A" "1"; mkV "A" "2"]; mkNam "B" [mkV "B" "1"; mkV "B" "2"];
   mkNam "C" [mkV "C" "1"; mkV "C" "2"]].
Definition infsY : infs_t :=
  [mkI (mkV "A" "1") [mkV "B" "1"] 2; mkI (mkV "A" "1") [mkV "C" "1"] 4;
   mkI (mkV "A" "2") [mkV "C" "2"] 5; mkI (mkV "B" "1") [mkV "A" "1"] 7;
   mkI (mkV "B" "2") [mkV "C" "2"] 9].

Definition vA1 : val_t := mkV "A" "1".
Definition vB1 : val_t := mkV "B" "1".
Definition vC1 : val_t := mkV "C" "1".
Definition vC2 : val_t := mkV "C" "2".
Definition valsY : vals_t := [vC1; vC2].

(** [@foo,K] / [a,1] / [b,1] / [a,2]. *)
Definition namsU : list nam_t :=
  [mkNam "K" [mkV "K" "1"; mkV "K" "2"];
   mkNam "foo" [mkV "foo" "a"; mkV "foo" "b"]].
Definition infU2 : inf_t := mkI (mkV "foo" "a") [mkV "K" "1"] 2.
Definition infU3 : inf_t := mkI (mkV "foo" "b") [mkV "K" "1"] 3.
Definition infU4 : inf_t := mkI (mkV "foo" "a") [mkV "K" "2"] 4.
Definition infsU : infs_t := [infU2; infU4; infU3].

Definition vals1 : vals_t := [mkV "B" "1"; mkV "B" "2"].
(** The context [main] builds for the first table. *)
Definition cx1 : ctx_t :=
  mkCtx nams1 infs1
    [(mkV "B" "1", [mkI (mkV "A" "x") [mkV "B" "1"] 2]);
     (mkV "B" "2", [mkI (mkV "A" "y") [mkV "B" "2"] 3])].
Definition infC_BA : inf_t := mkI (mkV "B" "x") [mkV "A" "1"] 2.
Definition infC_CB : inf_t := mkI (mkV "C" "p") [mkV "B" "x"] 5.
Definition vS : val_t := mkV "B" "1".
Definition symsS : list sym_t := ["A"; "x"].
Definition symS : sym_t := "B".
Definition namS : nam_t := mkNam "C" [].
Definition infS : inf_t := mkI (mkV "A" "x") [mkV "B" "0"] 7.
Definition valS : val_t := mkV "A" "w".
End Samples.

(** The closure the spec describes for [v.infs]. *)
Inductive reach (infs : infs_t) (v : val_t) : inf_t -> Prop :=
  | reach_base a : In a infs -> In v (inf_vals a) -> reach infs v a
  | reach_step x a :
      reach infs v x -> In a infs -> In (inf_val x) (inf_vals a) ->
      reach infs v a.

Import Samples.

Definition cxY : ctx_t :=
  match main_pre namsY infsY with
  | inr (_, tbl) => main_ctx namsY infsY tbl
  | inl _ => mkCtx [] [] []
  end.

(** ** Further predicates *)

(** [base] is ordered for the key: nothing right of an element above the
    key, and nothing left of an element below it, matches the key. *)
Definition key_sorted {K A : Type} (compar : K -> A -> Z) (key : K)
    (base : list A) : Prop :=
  forall l1 p l2, base = l1 ++ p :: l2 ->
    (compar key p < 0 -> forall x, In x l2 -> compar key x <> 0)
    /\ (compar key p > 0 -> forall x, In x l1 -> compar key x <> 0).

(** Two continuations that agree on the frontiers shorter than [vals]. *)
Definition agree_below (vals : vals_t) (rec1 rec2 : rec_t) : Prop :=
  forall st v i bd,
    (length v < length vals)%nat -> rec1 st v i bd = rec2 st v i bd.

(** The entries of the store respect the bound. *)
Definition depth_ok (b : bld_t) : Prop :=
  (tests (bld_nod b) <= length (bld_vals b))%nat.

(** No clashing pair in any bucket of any node. *)
Definition clash_free (nod : nod_t) : Prop :=
  forall m bucket l1 a l2 b l3,
    In m (subnodes nod) ->
    nod_infsV m = Some bucket \/ nod_infsO m = Some bucket ->
    bucket = l1 ++ a :: l2 ++ b :: l3 ->
    clash a b = false.

(** The labels defined by the [L] lines of a listing. *)
Definition lbls (ls : list line_t) : list nat :=
  flat_map (fun ln => match ln with LL l => [l] | _ => [] end) ls.

(** The label counter is positive and above every label of the table of
    branches. *)
Definition out_ok (out : out_t) : Prop :=
  (1 <= out_l out)%nat
  /\ forall e, In e (out_b out) -> (1 <= snd e < out_l out)%nat.

(** The [L] lines of [new] define each label of [S] once, and nothing
    else. *)
Definition covers (S : nat -> Prop) (new : list line_t) : Prop :=
  NoDup (lbls new) /\ forall x, In x (lbls new) <-> S x.

(** [out'] extends [out] by lines that define the labels reserved in
    between, each once, and whose tests refer to reserved labels. *)
Definition grows (out out' : out_t) : Prop :=
  out_ok out'
  /\ (out_l out <= out_l out')%nat
  /\ exists new,
       out_lines out' = new ++ out_lines out
       /\ covers (fun x => (out_l out <= x < out_l out')%nat) new
       /\ forall v l, In (LT v l) new -> (1 <= l < out_l out')%nat.



(** [w] is [v], or is reached from [v] through inferences of [infs] with
    a single condition. *)
Inductive chain (infs : infs_t) : val_t -> val_t -> Prop :=
  | chain_here v : chain infs v v
  | chain_step u b w :
      In b infs -> inf_vals b = [u] -> chain infs (inf_val b) w ->
      chain infs u w.

(** The key of a store entry is made of well-formed values and
    inferences. *)
Definition bld_ok (b : bld_t) : Prop :=
  Forall val_ok (bld_vals b) /\ Forall inf_ok (bld_infs b).

(** The store is strictly ascending under [bldCmp]. *)
Definition store_sorted (blds : list bld_t) : Prop :=
  sorted bldCmp blds /\ Forall bld_ok blds.

(** ** The loader *)

(** The kind of a callback of the CSV parser ([csvTp_t]): beginning of a
    record, a value, end of a record. *)
Inductive csvTp_t : Type := csvTp_Cb | csvTp_Cv | csvTp_Ce.

(** [struct csv].  [coln] is the length of [col]: the array is reallocated
    to [coln + 1] entries for every name of an ['@'] row, so it never holds
    more than [coln] entries when a value is read. *)
Record csv_t : Type := mkCsv {
  csv_fil : String.string;
  csv_syms : list sym_t;
  csv_nams : list nam_t;
  csv_infs : infs_t;
  csv_inf : option inf_t;
  csv_col : list sym_t;
  csv_inCom : bool;
  csv_inNam : bool
}.

(** The diagnostics of [csvCb], with the row and column they cite. *)
Inductive csv_err : Type :=
  | EDuplicateInf (fil1 : String.string) (row1 : Z)
      (fil2 : String.string) (row2 : Z)
  | EEmptyName (row : Z) (c : nat)
  | EEmptyValue (row : Z) (c : nat)
  | EEmptyAtName (row : Z) (c : nat)
  | EDecode (row : Z) (c : nat)
  | ESymFail (row : Z) (c : nat)
  | EDuplicateName (row : Z) (c : nat)
  | EExcess (row : Z) (c : nat)
  | EDuplicateVal (row : Z) (c : nat).

(** Outcome of a callback: 0 with the new state, 1 after a diagnostic, or
    a read outside an object ([col[c]] past the array, [inf] null). *)
Inductive csv_res : Type :=
  | COk (st : csv_t)
  | CErr (e : csv_err)
  | CUndef.

(** ['#'] and ['@']. *)
Definition ch_hash : Ascii.ascii := Ascii.ascii_of_nat 35.
Definition ch_at : Ascii.ascii := Ascii.ascii_of_nat 64.

Definition first_is (ch : Ascii.ascii) (s : sym_t) : bool :=
  match s with
  | String.String c _ => Ascii.eqb c ch
  | String.EmptyString => false
  end.

(** [nam->vals] after [valsAdd(nam->vals, val)], for the name of symbol
    [n]. *)
Definition namsAddVal (nams : list nam_t) (n : sym_t) (val : val_t)
    : list nam_t :=
  map (fun m =>
         if sym_eqb (nam_sym m) n
         then mkNam (nam_sym m) (snd (valsAdd true (nam_vals m) val))
         else m)
    nams.

Section Loader.
(** [csvDecodeValue(d, l->l, l->s, l->l)]: the count returned and the
    bytes left in [d]. *)
Variable csvDecodeValue : sym_t -> Z * sym_t.

(** A cell of an ['@'] row. *)
Definition csvCb_name (r : Z) (c : nat) (i : Z) (d : sym_t) (st : csv_t)
    : csv_res :=
  let off := match c with O => 1%nat | S _ => O end in
  let sym := String.substring off (Z.to_nat i - off) d in
  if (Z.to_nat i - off =? 0)%nat then CErr (ESymFail r c)
  else
    let syms := snd (symsAdd true (csv_syms st) sym) in
    let nams := snd (namsAdd true (csv_nams st) (mkNam sym [])) in
    if existsb (sym_eqb sym) (csv_col st) then CErr (EDuplicateName r c)
    else
      COk (mkCsv (csv_fil st) syms nams (csv_infs st) (csv_inf st)
             (csv_col st ++ [sym]) (csv_inCom st) (csv_inNam st)).

(** A cell of a data row. *)
Definition csvCb_value (r : Z) (c : nat) (i : Z) (d : sym_t) (st : csv_t)
    : csv_res :=
  if (length (csv_col st) <? c)%nat then CErr (EExcess r c)
  else
    let sym := String.substring 0 (Z.to_nat i) d in
    let syms := snd (symsAdd true (csv_syms st) sym) in
    match nth_error (csv_col st) c with
    | None => CUndef
    | Some n =>
        let val := mkVal n sym in
        let nams := namsAddVal (csv_nams st) n val in
        match c with
        | O =>
            COk (mkCsv (csv_fil st) syms nams (csv_infs st)
                   (Some (mkInf val [] (csv_fil st) r))
                   (csv_col st) (csv_inCom st) (csv_inNam st))
        | S _ =>
            match csv_inf st with
            | None => CUndef
            | Some inf =>
                match valsAdd true (inf_vals inf) val with
                | (Some e, vs) =>
                    if val_eqb e val then
                      COk (mkCsv (csv_fil st) syms nams (csv_infs st)
                             (Some (mkInf (inf_val inf) vs (inf_fil inf)
                                      (inf_row inf)))
                             (csv_col st) (csv_inCom st) (csv_inNam st))
                    else CErr (EDuplicateVal r c)
                | (None, _) => CErr (EDuplicateVal r c)
                end
            end
        end
    end.

(** [csvCb(t, r, c, l, v)]; [s] is the cell [l]. *)
Definition csvCb (t : csvTp_t) (r : Z) (c : nat) (s : sym_t) (st : csv_t)
    : csv_res :=
  let r := r + 1 in
  match t with
  | csvTp_Ce =>
      match csv_inf st with
      | None => COk st
      | Some inf =>
          match add_search infCmp (S (length (csv_infs st))) (csv_infs st)
                  inf 0 (length (csv_infs st)) with
          | inl e =>
              CErr (EDuplicateInf (inf_fil e) (inf_row e) (inf_fil inf)
                      (inf_row inf))
          | inr _ =>
              COk (mkCsv (csv_fil st) (csv_syms st) (csv_nams st)
                     (snd (infsAdd true (csv_infs st) inf)) None
                     (csv_col st) (csv_inCom st) (csv_inNam st))
          end
      end
  | csvTp_Cb =>
      COk (mkCsv (csv_fil st) (csv_syms st) (csv_nams st) (csv_infs st)
             (csv_inf st) (csv_col st) false false)
  | csvTp_Cv =>
      if csv_inCom st then COk st
      else if (String.length s =? 0)%nat then
        if csv_inNam st then CErr (EEmptyName r c)
        else
          match c with
          | O => CErr (EEmptyValue r c)
          | S _ => COk st
          end
      else
        let hash := match c with O => first_is ch_hash s | S _ => false end in
        let at_ := match c with O => first_is ch_at s | S _ => false end in
        if hash then
          COk (mkCsv (csv_fil st) (csv_syms st) (csv_nams st) (csv_infs st)
                 (csv_inf st) (csv_col st) true (csv_inNam st))
        else if at_ && (String.length s <? 2)%nat then
          CErr (EEmptyAtName r c)
        else
          let st :=
            if at_ then
              mkCsv (csv_fil st) (csv_syms st) (csv_nams st) (csv_infs st)
                (csv_inf st) [] (csv_inCom st) true
            else st in
          let '(i, d) := csvDecodeValue s in
          if (i <=? 0) || (int_of_u32 (u32 (sym_n s)) <? i)
          then CErr (EDecode r c)
          else if csv_inNam st then csvCb_name r c i d st
          else csvCb_value r c i d st
  end.

(** The callbacks of a parse, in order, up to the first that does not
    return 0. *)
Fixpoint csvFeed (evs : list (csvTp_t * Z * nat * sym_t)) (st : csv_t)
    : csv_res :=
  match evs with
  | [] => COk st
  | (t, r, c, s) :: evs' =>
      match csvCb t r c s st with
      | COk st' => csvFeed evs' st'
      | bad => bad
      end
  end.
End Loader.

(** [calloc] of [struct csv] with the three empty registries. *)
Definition csvNew (fil : String.string) : csv_t :=
  mkCsv fil [] [] [] None [] false false.

(** What the loader keeps of a name: its values are sorted and bear its
    symbol. *)
Definition nam_wf (m : nam_t) : Prop :=
  nam_ok m /\ sorted valCmp (nam_vals m)
  /\ Forall (fun v => val_ok v /\ val_nam v = nam_sym m) (nam_vals m).

(** The registries are sorted, the pending inference has sorted
    conditions, and the columns are distinct registered names. *)
Definition csv_ok (st : csv_t) : Prop :=
  (sorted symCmp (csv_syms st) /\ Forall sym_ok (csv_syms st))
  /\ (sorted namCmp (csv_nams st) /\ Forall nam_wf (csv_nams st))
  /\ (sorted infCmp (csv_infs st) /\ Forall inf_ok (csv_infs st)
      /\ Forall conds_ok (csv_infs st))
  /\ (forall inf, csv_inf st = Some inf -> inf_ok inf /\ conds_ok inf)
  /\ (NoDup (csv_col st)
      /\ forall n, In n (csv_col st) ->
           sym_ok n /\ exists m, In m (csv_nams st) /\ nam_sym m = n).

(** The rows of the sample tables as the parser delivers them. *)
Module Loads.
Import Stdlib.Strings.String.
Local Open Scope string_scope.
Local Open Scope list_scope.

(** The empty cell. *)
Definition emp : sym_t := String.EmptyString.

(** A decoder for cells without quotes. *)
Definition plain (s : sym_t) : Z * sym_t := (sym_n s, s).

Definition row (r : Z) (cells : list sym_t)
    : list (csvTp_t * Z * nat * sym_t) :=
  (csvTp_Cb, r, O, emp)
  :: map (fun p => (csvTp_Cv, r, fst p, snd p))
       (combine (seq 0 (List.length cells)) cells)
  ++ [(csvTp_Ce, r, O, emp)].

Definition rows1 :=
  row 0 ["@A"; "B"] ++ row 1 ["x"; "1"] ++ row 2 ["y"; "2"].
Definition rows5 :=
  row 0 ["@O"; "I0"; "I1"; "I2"] ++ row 1 ["a"; emp; "1"; emp]
  ++ row 2 ["b"; "1"; "0"; emp] ++ row 3 ["a"; emp; "0"; "0"]
  ++ row 4 ["a"; emp; emp; "1"] ++ row 5 ["a"; "0"; "1"; "0"].
Definition rowsC :=
  row 0 ["@B"; "A"] ++ row 1 ["x"; "1"] ++ row 2 ["y"; "2"]
  ++ row 3 ["@C"; "B"] ++ row 4 ["p"; "x"] ++ row 5 ["q"; "y"].
Definition rowsY :=
  row 0 ["@A"; "B"] ++ row 1 ["1"; "1"] ++ row 2 ["@A"; "C"]
  ++ row 3 ["1"; "1"] ++ row 4 ["2"; "2"] ++ row 5 ["@B"; "A"]
  ++ row 6 ["1"; "1"] ++ row 7 ["@B"; "C"] ++ row 8 ["2"; "2"].
Definition rowsU :=
  row 0 ["@foo"; "K"] ++ row 1 ["a"; "1"] ++ row 2 ["b"; "1"]
  ++ row 3 ["a"; "2"].
Definition fil1 : String.string := "t.csv".
Definition cellB : sym_t := "B".
(** A state with a pending inference. *)
Definition stP : csv_t := mkCsv fil1 [] [] [] (Some infS) [] false false.
(** A state in a data row under a single column. *)
Definition stC : csv_t := mkCsv fil1 [] [] [] None [cellB] false false.
End Loads.

(** * Theorems *)

(** ** Orders *)



Lemma int_of_u32_diff a b :
  0 <= a < 2 ^ 31 -> 0 <= b < 2 ^ 31 -> int_of_u32 (u32 (a - b)) = a - b.
Proof.
  intros Ha Hb. unfold int_of_u32, u32.
  destruct (Z_lt_le_dec (a - b) 0) as [Hn | Hp].
  - replace ((a - b) mod 2 ^ 32) with (a - b + 2 ^ 32).
    + destruct (Z.ltb_spec (a - b + 2 ^ 32) (2 ^ 31)); lia.
    + apply Z.mod_unique with (q := -1); lia.
  - rewrite Z.mod_small by lia.
    destruct (Z.ltb_spec (a - b) (2 ^ 31)); lia.
Qed.

Lemma byte_val_compare c1 c2 :
  Ascii.compare c1 c2 = (byte_val c1 ?= byte_val c2).
Proof.
  unfold Ascii.compare, byte_val. now rewrite N2Z.inj_compare.
Qed.

Lemma symCmp_scan_nonzero e1 e2 r :
  symCmp_scan e1 e2 r <> 0 \/ (r = 0 -> symCmp_scan e1 e2 r = 0) .
Proof.
  revert e2 r. induction e1 as [| c1 t1 IH]; intros [| c2 t2] r; simpl; auto.
  destruct (Z.eqb_spec (byte_val c1 - byte_val c2) 0) as [E | E].
  - rewrite E. destruct (IH t2 0); auto.
  - auto.
Qed.

(** [symCmp] is the lexicographic comparison of the byte strings. *)
Lemma symCmp_compare e1 e2 :
  sym_ok e1 -> sym_ok e2 -> symCmp e1 e2 = Zc (String.compare e1 e2).
Proof.
  unfold sym_ok, symCmp, sym_n.
  revert e2. induction e1 as [| c1 t1 IH]; intros [| c2 t2] H1 H2.
  - reflexivity.
  - cbn [symCmp_scan String.compare Zc]. cbn [Z.ltb Z.gtb Z.compare].
    rewrite int_of_u32_diff by (cbn [String.length] in *; lia).
    cbn [String.length] in *.
    destruct (Z.ltb_spec (Z.of_nat 0 - Z.of_nat (S (String.length t2))) 0); lia.
  - cbn [symCmp_scan String.compare Zc]. cbn [Z.ltb Z.gtb Z.compare].
    rewrite int_of_u32_diff by (cbn [String.length] in *; lia).
    cbn [String.length] in *.
    destruct (Z.ltb_spec (Z.of_nat (S (String.length t1)) - Z.of_nat 0) 0); try lia.
    destruct (Z.gtb_spec (Z.of_nat (S (String.length t1)) - Z.of_nat 0) 0); lia.
  - cbn [symCmp_scan String.compare].
    rewrite byte_val_compare.
    cbn [String.length] in H1, H2.
    assert (H1' : Z.of_nat (String.length t1) < 2 ^ 31) by lia.
    assert (H2' : Z.of_nat (String.length t2) < 2 ^ 31) by lia.
    specialize (IH t2 H1' H2').
    destruct (Z.compare_spec (byte_val c1) (byte_val c2)) as [E | L | G].
    + rewrite E, Z.sub_diag. cbn [Z.eqb].
      rewrite <- IH.
      cbn [String.length].
      rewrite !int_of_u32_diff by lia.
      rewrite !int_of_u32_diff in IH by lia.
      replace (Z.of_nat (S (String.length t1)) - Z.of_nat (S (String.length t2)))
        with (Z.of_nat (String.length t1) - Z.of_nat (String.length t2)) by lia.
      reflexivity.
    + destruct (Z.eqb_spec (byte_val c1 - byte_val c2) 0); try lia.
      destruct (Z.ltb_spec (byte_val c1 - byte_val c2) 0); try lia.
      reflexivity.
    + destruct (Z.eqb_spec (byte_val c1 - byte_val c2) 0); try lia.
      destruct (Z.ltb_spec (byte_val c1 - byte_val c2) 0); try lia.
      destruct (Z.gtb_spec (byte_val c1 - byte_val c2) 0); try lia.
      reflexivity.
Qed.


Section OrderFacts.
Context {A : Type} {ok : A -> Prop} {cmp : A -> A -> Z}.
Hypothesis O : order_on ok cmp.

Lemma ord_eq_r a b c :
  ok a -> ok b -> ok c -> cmp b c = 0 -> cmp a b = cmp a c.
Proof.
  intros Ha Hb Hc E.
  rewrite (ord_antisym _ _ O b a), (ord_antisym _ _ O c a) by assumption.
  now rewrite (ord_eq_l _ _ O b c a).
Qed.


Lemma ord_trans_gt a b c :
  ok a -> ok b -> ok c -> cmp a b > 0 -> cmp b c > 0 -> cmp a c > 0.
Proof.
  intros Ha Hb Hc L1 L2.
  rewrite (ord_antisym _ _ O b a) in L1 by assumption.
  rewrite (ord_antisym _ _ O c b) in L2 by assumption.
  rewrite (ord_antisym _ _ O c a) by assumption.
  assert (cmp c a < 0) by (apply (ord_trans _ _ O c b a); auto; lia).
  lia.
Qed.
End OrderFacts.

Lemma order_map {A B : Type} (f : B -> A) ok cmp :
  order_on ok cmp ->
  order_on (fun x => ok (f x)) (fun x y => cmp (f x) (f y)).
Proof.
  intros O. constructor; intros.
  - now apply (ord_refl _ _ O).
  - now apply (ord_antisym _ _ O).
  - now apply (ord_trans _ _ O) with (f b).
  - now apply (ord_eq_l _ _ O).
Qed.

Lemma order_lex {A B C : Type} (f : C -> A) (g : C -> B) ok1 c1 ok2 c2 :
  order_on ok1 c1 -> order_on ok2 c2 ->
  order_on (fun x => ok1 (f x) /\ ok2 (g x))
    (fun x y =>
       let r := c1 (f x) (f y) in if r =? 0 then c2 (g x) (g y) else r).
Proof.
  intros O1 O2. constructor; cbv zeta.
  - intros a [H1 H2]. rewrite (ord_refl _ _ O1) by assumption.
    now apply (ord_refl _ _ O2).
  - intros a b [Ha1 Ha2] [Hb1 Hb2].
    rewrite (ord_antisym _ _ O1 (f a) (f b)) by assumption.
    destruct (Z.eqb_spec (c1 (f a) (f b)) 0) as [E | E].
    + rewrite E. cbn. now apply (ord_antisym _ _ O2).
    + destruct (Z.eqb_spec (- c1 (f a) (f b)) 0); [lia | reflexivity].
  - intros a b c [Ha1 Ha2] [Hb1 Hb2] [Hc1 Hc2].
    destruct (Z.eqb_spec (c1 (f a) (f b)) 0) as [E1 | E1];
      destruct (Z.eqb_spec (c1 (f b) (f c)) 0) as [E2 | E2]; intros L1 L2.
    + rewrite (ord_eq_l _ _ O1 (f a) (f b) (f c)), E2 by assumption.
      cbn. now apply (ord_trans _ _ O2) with (g b).
    + rewrite (ord_eq_l _ _ O1 (f a) (f b) (f c)) by assumption.
      destruct (Z.eqb_spec (c1 (f b) (f c)) 0); [lia | assumption].
    + rewrite <- (ord_eq_r O1 (f a) (f b) (f c)) by assumption.
      destruct (Z.eqb_spec (c1 (f a) (f b)) 0); [lia | assumption].
    + assert (L : c1 (f a) (f c) < 0)
        by (now apply (ord_trans _ _ O1) with (f b)).
      destruct (Z.eqb_spec (c1 (f a) (f c)) 0); [lia | assumption].
  - intros a b c [Ha1 Ha2] [Hb1 Hb2] [Hc1 Hc2].
    destruct (Z.eqb_spec (c1 (f a) (f b)) 0) as [E1 | E1]; intros E.
    + rewrite (ord_eq_l _ _ O1 (f a) (f b) (f c)) by assumption.
      now rewrite (ord_eq_l _ _ O2 (g a) (g b) (g c)).
    + contradiction.
Qed.

Lemma order_seq {A : Type} (ok : A -> Prop) (cmp : A -> A -> Z) :
  order_on ok cmp -> order_on (Forall ok) (seqCmp cmp).
Proof.
  intros O. constructor.
  - induction a as [| x a IH]; intros H; cbn; [reflexivity |].
    inversion H; subst.
    rewrite (ord_refl _ _ O) by assumption. cbn. auto.
  - induction a as [| x a IH]; intros [| y b] Ha Hb; cbn; try reflexivity.
    inversion Ha; inversion Hb; subst.
    rewrite (ord_antisym _ _ O x y) by assumption.
    destruct (Z.eqb_spec (cmp x y) 0) as [E | E].
    + rewrite E. cbn. auto.
    + destruct (Z.eqb_spec (- cmp x y) 0); [lia | reflexivity].
  - induction a as [| x a IH]; intros [| y b] [| z c] Ha Hb Hc; cbn;
      try lia.
    inversion Ha; inversion Hb; inversion Hc; subst.
    destruct (Z.eqb_spec (cmp x y) 0) as [E1 | E1];
      destruct (Z.eqb_spec (cmp y z) 0) as [E2 | E2]; intros L1 L2.
    + rewrite (ord_eq_l _ _ O x y z), E2 by assumption.
      cbn. now apply IH with b.
    + rewrite (ord_eq_l _ _ O x y z) by assumption.
      destruct (Z.eqb_spec (cmp y z) 0); [lia | assumption].
    + rewrite <- (ord_eq_r O x y z) by assumption.
      destruct (Z.eqb_spec (cmp x y) 0); [lia | assumption].
    + assert (L : cmp x z < 0) by (now apply (ord_trans _ _ O) with y).
      destruct (Z.eqb_spec (cmp x z) 0); [lia | assumption].
  - induction a as [| x a IH]; intros [| y b] [| z c] Ha Hb Hc; cbn;
      try reflexivity; try lia.
    inversion Ha; inversion Hb; inversion Hc; subst.
    destruct (Z.eqb_spec (cmp x y) 0) as [E1 | E1]; intros E.
    + rewrite (ord_eq_l _ _ O x y z) by assumption.
      now rewrite (IH b c).
    + contradiction.
Qed.

(** *** The comparison functions are orders *)

Lemma string_compare_refl s : String.compare s s = Eq.
Proof.
  induction s as [| c s IH]; cbn; [reflexivity |].
  rewrite byte_val_compare, Z.compare_refl. exact IH.
Qed.

Lemma string_compare_trans a :
  forall b c, String.compare a b = Lt -> String.compare b c = Lt ->
  String.compare a c = Lt.
Proof.
  induction a as [| x a IH]; intros [| y b] [| z c]; cbn;
    try discriminate; try reflexivity.
  rewrite !byte_val_compare.
  destruct (Z.compare_spec (byte_val x) (byte_val y)) as [E1 | L1 | G1];
    destruct (Z.compare_spec (byte_val y) (byte_val z)) as [E2 | L2 | G2];
    try discriminate; intros H1 H2.
  - rewrite E1, E2, Z.compare_refl. now apply IH with b.
  - rewrite E1. now apply Z.compare_lt_iff in L2 as ->.
  - rewrite <- E2. now apply Z.compare_lt_iff in L1 as ->.
  - assert (L : byte_val x < byte_val z) by lia.
    now apply Z.compare_lt_iff in L as ->.
Qed.

Lemma Zc_opp c : Zc (CompOpp c) = - Zc c.
Proof. now destruct c. Qed.

Lemma order_symCmp : order_on sym_ok symCmp.
Proof.
  constructor.
  - intros a H. rewrite symCmp_compare by assumption.
    now rewrite string_compare_refl.
  - intros a b Ha Hb. rewrite !symCmp_compare by assumption.
    now rewrite String.compare_antisym, Zc_opp.
  - intros a b c Ha Hb Hc. rewrite !symCmp_compare by assumption.
    destruct (String.compare a b) eqn:E1; cbn; try lia.
    destruct (String.compare b c) eqn:E2; cbn; try lia.
    intros _ _. now rewrite (string_compare_trans a b c).
  - intros a b c Ha Hb Hc. rewrite (symCmp_compare a b) by assumption.
    destruct (String.compare a b) eqn:E; cbn; try lia.
    apply String.compare_eq_iff in E. now subst.
Qed.

Lemma symCmp_eq a b : sym_ok a -> sym_ok b -> symCmp a b = 0 -> a = b.
Proof.
  intros Ha Hb. rewrite symCmp_compare by assumption.
  destruct (String.compare a b) eqn:E; cbn; try lia.
  intros _. now apply String.compare_eq_iff.
Qed.




Lemma order_namCmp : order_on nam_ok namCmp.
Proof. exact (order_map nam_sym _ _ order_symCmp). Qed.

Lemma order_valCmp : order_on val_ok valCmp.
Proof. exact (order_lex val_nam val_sym _ _ _ _ order_symCmp order_symCmp). Qed.

Lemma order_valsCmp : order_on (Forall val_ok) valsCmp.
Proof. exact (order_seq _ _ order_valCmp). Qed.

Lemma order_infCmp : order_on inf_ok infCmp.
Proof.
  exact (order_lex inf_val inf_vals _ _ _ _ order_valCmp order_valsCmp).
Qed.

Lemma valCmp_eq a b : val_ok a -> val_ok b -> valCmp a b = 0 -> a = b.
Proof.
  intros [Ha1 Ha2] [Hb1 Hb2]. unfold valCmp. cbv zeta.
  destruct (Z.eqb_spec (symCmp (val_nam a) (val_nam b)) 0) as [E | E];
    [| contradiction].
  intros E2. apply symCmp_eq in E; auto. apply symCmp_eq in E2; auto.
  destruct a, b; cbn in *; congruence.
Qed.

Lemma val_eqb_eq a b : val_eqb a b = true <-> a = b.
Proof.
  unfold val_eqb, sym_eqb. rewrite andb_true_iff, !String.eqb_eq.
  destruct a, b; cbn; split; [intros [-> ->] | intros [= -> ->]]; auto.
Qed.

Lemma val_eqb_refl a : val_eqb a a = true.
Proof. now apply val_eqb_eq. Qed.

(** ** Sorted sequences *)


Lemma nth_error_decomp {A : Type} (v : list A) i e :
  nth_error v i = Some e -> v = firstn i v ++ e :: skipn (S i) v.
Proof.
  revert i. induction v as [| a v IH]; intros [| i]; cbn; try discriminate.
  - now intros [= ->].
  - intros H. f_equal. now apply IH.
Qed.

Lemma firstn_S_snoc {A : Type} (v : list A) i e :
  nth_error v i = Some e -> firstn (S i) v = firstn i v ++ [e].
Proof.
  revert i. induction v as [| a v IH]; intros [| i]; cbn; try discriminate.
  - now intros [= ->].
  - intros H. f_equal. now apply IH.
Qed.

Lemma skipn_cons_nth {A : Type} (v : list A) i e :
  nth_error v i = Some e -> skipn i v = e :: skipn (S i) v.
Proof.
  revert i. induction v as [| a v IH]; intros [| i]; cbn; try discriminate.
  - now intros [= ->].
  - intros H. now apply IH.
Qed.

Lemma sorted_app {A : Type} (R : A -> A -> Prop) l1 l2 :
  StronglySorted R l1 -> StronglySorted R l2 ->
  (forall a b, In a l1 -> In b l2 -> R a b) ->
  StronglySorted R (l1 ++ l2).
Proof.
  induction 1 as [| a l1 S1 IH F]; intros S2 H; cbn; [assumption |].
  constructor.
  - apply IH; auto. intros; apply H; cbn; auto.
  - apply Forall_app. split; [assumption |].
    apply Forall_forall. intros b Hb. apply H; cbn; auto.
Qed.

Lemma sorted_app_inv {A : Type} (R : A -> A -> Prop) l1 l2 :
  StronglySorted R (l1 ++ l2) ->
  StronglySorted R l1 /\ StronglySorted R l2
  /\ (forall a b, In a l1 -> In b l2 -> R a b).
Proof.
  induction l1 as [| a l1 IH]; cbn; intros S.
  - repeat split; [constructor | assumption | contradiction].
  - inversion S as [| ? ? S' F]; subst.
    destruct (IH S') as (S1 & S2 & H).
    apply Forall_app in F as [F1 F2].
    repeat split; [now constructor | assumption |].
    intros x b [<- | Hx] Hb; [| now apply H].
    now apply (proj1 (Forall_forall _ _) F2).
Qed.

Section SortedSeq.
Context {A : Type} {ok : A -> Prop} {cmp : A -> A -> Z}.
Hypothesis O : order_on ok cmp.

Lemma sorted_around (v : list A) i e :
  sorted cmp v -> nth_error v i = Some e ->
  (forall p, In p (firstn i v) -> cmp p e < 0)
  /\ (forall p, In p (skipn (S i) v) -> cmp e p < 0).
Proof.
  intros Hs N. unfold sorted in Hs.
  rewrite (nth_error_decomp v i e N) in Hs.
  apply sorted_app_inv in Hs as (_ & S2 & H).
  split.
  - intros p Hp. apply H; cbn; auto.
  - inversion S2 as [| ? ? _ F]; subst.
    intros p Hp. now apply (proj1 (Forall_forall _ _) F).
Qed.

(** The loop of [valsAdd]/[infsAdd] returns an element equal to the
    item, or the position that splits the sequence around it. *)
Lemma add_search_inv (v : list A) (x : A) :
  sorted cmp v -> Forall ok v -> ok x ->
  forall fuel lo hi,
    (lo <= hi <= length v)%nat -> (hi - lo < fuel)%nat ->
    (forall p, In p (firstn lo v) -> cmp p x < 0) ->
    (forall p, In p (skipn hi v) -> cmp x p < 0) ->
    match add_search cmp fuel v x lo hi with
    | inl e => In e v /\ cmp x e = 0
    | inr pos =>
        (pos <= length v)%nat
        /\ (forall p, In p (firstn pos v) -> cmp p x < 0)
        /\ (forall p, In p (skipn pos v) -> cmp x p < 0)
    end.
Proof.
  intros Hs F Hx.
  induction fuel as [| fuel IH]; intros lo hi B Hf L R; [lia |].
  cbn [add_search].
  destruct (Nat.ltb_spec lo hi) as [Hlt | Hge].
  - set (mid := (lo + (hi - lo) / 2)%nat).
    assert (Hmid : (lo <= mid < hi)%nat).
    { subst mid. split; [lia |].
      assert ((hi - lo) / 2 < hi - lo)%nat
        by (apply Nat.div_lt; lia).
      lia. }
    destruct (nth_error v mid) as [e |] eqn:N.
    2: { apply nth_error_None in N. lia. }
    assert (He : ok e)
      by (apply (proj1 (Forall_forall _ _) F), (nth_error_In _ _ N)).
    destruct (sorted_around v mid e Hs N) as [Sl Sr].
    destruct (Z.eqb_spec (cmp x e) 0) as [E | E].
    + split; [apply (nth_error_In _ _ N) | assumption].
    + destruct (Z.ltb_spec (cmp x e) 0) as [C | C].
      * apply IH; try lia; try assumption.
        intros p Hp. rewrite (skipn_cons_nth v mid e N) in Hp.
        destruct Hp as [<- | Hp]; [assumption |].
        assert (ok p).
        { apply (proj1 (Forall_forall _ _) F).
          rewrite <- (firstn_skipn (S mid) v).
          apply in_or_app; auto. }
        apply (ord_trans _ _ O x e p); auto.
      * apply IH; try lia; try assumption.
        intros p Hp. rewrite (firstn_S_snoc v mid e N) in Hp.
        assert (Hex : cmp e x < 0)
          by (rewrite (ord_antisym _ _ O x e) by assumption; lia).
        apply in_app_or in Hp as [Hp | [<- | []]]; [| assumption].
        assert (ok p).
        { apply (proj1 (Forall_forall _ _) F).
          rewrite <- (firstn_skipn mid v).
          apply in_or_app; auto. }
        apply (ord_trans _ _ O p e x); auto.
  - assert (lo = hi) by lia. subst hi.
    repeat split; [lia | assumption | assumption].
Qed.

Lemma add_search_spec (v : list A) (x : A) :
  sorted cmp v -> Forall ok v -> ok x ->
  match add_search cmp (S (length v)) v x 0 (length v) with
  | inl e => In e v /\ cmp x e = 0
  | inr pos =>
      (pos <= length v)%nat
      /\ (forall p, In p (firstn pos v) -> cmp p x < 0)
      /\ (forall p, In p (skipn pos v) -> cmp x p < 0)
  end.
Proof.
  intros Hs F Hx. apply add_search_inv; auto; try lia.
  - cbn. contradiction.
  - rewrite skipn_all. contradiction.
Qed.

Lemma insert_at_sorted (v : list A) (x : A) pos :
  sorted cmp v ->
  (forall p, In p (firstn pos v) -> cmp p x < 0) ->
  (forall p, In p (skipn pos v) -> cmp x p < 0) ->
  sorted cmp (insert_at pos x v).
Proof.
  intros Hs L R. unfold insert_at, sorted in *.
  rewrite <- (firstn_skipn pos v) in Hs.
  apply sorted_app_inv in Hs as (S1 & S2 & H).
  apply sorted_app; auto.
  - constructor; auto. now apply Forall_forall.
  - intros a b Ha [<- | Hb]; auto.
Qed.

(** An equal element is found when there is one. *)
Lemma seqAdd_present (mem : bool) (v : list A) (x : A) :
  sorted cmp v -> Forall ok v -> ok x ->
  (exists e, In e v /\ cmp x e = 0) ->
  exists e, seqAdd cmp mem v x = (Some e, v) /\ In e v /\ cmp x e = 0.
Proof.
  intros Hs F Hx (e & He & E). unfold seqAdd.
  pose proof (add_search_spec v x Hs F Hx) as H.
  destruct (add_search cmp (S (length v)) v x 0 (length v)) as [e' | pos].
  - exists e'. tauto.
  - exfalso. destruct H as (_ & L & R).
    assert (Hoe : ok e) by now apply (proj1 (Forall_forall _ _) F).
    rewrite <- (firstn_skipn pos v) in He.
    apply in_app_or in He as [He | He].
    + apply L in He. rewrite (ord_antisym _ _ O e x) in E by assumption.
      lia.
    + apply R in He. lia.
Qed.

(** Otherwise the item is inserted at its place. *)
Lemma seqAdd_absent (v : list A) (x : A) :
  sorted cmp v -> Forall ok v -> ok x ->
  (forall e, In e v -> cmp x e <> 0) ->
  exists l1 l2,
    v = l1 ++ l2
    /\ seqAdd cmp true v x = (Some x, l1 ++ x :: l2)
    /\ (forall p, In p l1 -> cmp p x < 0)
    /\ (forall p, In p l2 -> cmp x p < 0).
Proof.
  intros Hs F Hx Hn. unfold seqAdd.
  pose proof (add_search_spec v x Hs F Hx) as H.
  destruct (add_search cmp (S (length v)) v x 0 (length v)) as [e' | pos].
  - destruct H as [He E]. now apply Hn in He.
  - destruct H as (_ & L & R).
    exists (firstn pos v), (skipn pos v).
    now rewrite firstn_skipn.
Qed.

Lemma seqAdd_sorted (mem : bool) (v : list A) (x : A) :
  sorted cmp v -> Forall ok v -> ok x ->
  sorted cmp (snd (seqAdd cmp mem v x)).
Proof.
  intros Hs F Hx. unfold seqAdd.
  pose proof (add_search_spec v x Hs F Hx) as H.
  destruct (add_search cmp (S (length v)) v x 0 (length v)) as [e' | pos].
  - assumption.
  - destruct H as (_ & L & R). destruct mem; cbn; [| assumption].
    now apply insert_at_sorted.
Qed.
End SortedSeq.

Section SortedSearch.
Context {A : Type} {ok : A -> Prop} {cmp : A -> A -> Z}.
Hypothesis O : order_on ok cmp.

Lemma bsearch_go_some {K : Type} (compar : K -> A -> Z) key base :
  forall fuel lo hi p,
    bsearch_go fuel compar key base lo hi = Some p ->
    In p base /\ compar key p = 0.
Proof.
  induction fuel as [| fuel IH]; intros lo hi p; cbn [bsearch_go];
    [discriminate |].
  destruct (lo <? hi)%nat; [| discriminate].
  destruct (nth_error base ((lo + hi) / 2)) as [e |] eqn:N;
    [| discriminate].
  destruct (Z.ltb_spec (compar key e) 0); [apply IH |].
  destruct (Z.gtb_spec (compar key e) 0); [apply IH |].
  intros [= <-]. split; [apply (nth_error_In _ _ N) | lia].
Qed.

Lemma bsearch_some {K : Type} (compar : K -> A -> Z) key base p :
  bsearch compar key base = Some p -> In p base /\ compar key p = 0.
Proof. apply bsearch_go_some. Qed.

Lemma bsearch_go_inv (v : list A) (x : A) :
  sorted cmp v -> Forall ok v -> ok x ->
  forall fuel lo hi,
    (lo <= hi <= length v)%nat -> (hi - lo < fuel)%nat ->
    (forall p, In p (firstn lo v) -> cmp p x < 0) ->
    (forall p, In p (skipn hi v) -> cmp x p < 0) ->
    match bsearch_go fuel cmp x v lo hi with
    | Some e => In e v /\ cmp x e = 0
    | None => forall p, In p v -> cmp x p <> 0
    end.
Proof.
  intros Hs F Hx.
  induction fuel as [| fuel IH]; intros lo hi B Hf L R; [lia |].
  cbn [bsearch_go].
  destruct (Nat.ltb_spec lo hi) as [Hlt | Hge].
  - set (mid := ((lo + hi) / 2)%nat).
    assert (Hmid : (lo <= mid < hi)%nat).
    { subst mid. split.
      - apply Nat.div_le_lower_bound; lia.
      - apply Nat.Div0.div_lt_upper_bound; lia. }
    destruct (nth_error v mid) as [e |] eqn:N.
    2: { apply nth_error_None in N. lia. }
    assert (He : ok e)
      by (apply (proj1 (Forall_forall _ _) F), (nth_error_In _ _ N)).
    destruct (sorted_around v mid e Hs N) as [Sl Sr].
    destruct (Z.ltb_spec (cmp x e) 0) as [C | C].
    + apply IH; try lia; try assumption.
      intros p Hp. rewrite (skipn_cons_nth v mid e N) in Hp.
      destruct Hp as [<- | Hp]; [assumption |].
      assert (ok p).
      { apply (proj1 (Forall_forall _ _) F).
        rewrite <- (firstn_skipn (S mid) v).
        apply in_or_app; auto. }
      apply (ord_trans _ _ O x e p); auto.
    + destruct (Z.gtb_spec (cmp x e) 0) as [C' | C'].
      * apply IH; try lia; try assumption.
        intros p Hp. rewrite (firstn_S_snoc v mid e N) in Hp.
        assert (Hex : cmp e x < 0)
          by (rewrite (ord_antisym _ _ O x e) by assumption; lia).
        apply in_app_or in Hp as [Hp | [<- | []]]; [| assumption].
        assert (ok p).
        { apply (proj1 (Forall_forall _ _) F).
          rewrite <- (firstn_skipn mid v).
          apply in_or_app; auto. }
        apply (ord_trans _ _ O p e x); auto.
      * split; [apply (nth_error_In _ _ N) | lia].
  - assert (lo = hi) by lia. subst hi.
    intros p Hp.
    assert (Hop : ok p) by now apply (proj1 (Forall_forall _ _) F).
    rewrite <- (firstn_skipn lo v) in Hp.
    apply in_app_or in Hp as [Hp | Hp].
    + apply L in Hp. rewrite (ord_antisym _ _ O p x) by assumption. lia.
    + apply R in Hp. lia.
Qed.

(** On a sorted sequence [bsearch] finds an element equal to the key
    exactly when there is one. *)
Lemma bsearch_spec (v : list A) (x : A) :
  sorted cmp v -> Forall ok v -> ok x ->
  match bsearch cmp x v with
  | Some e => In e v /\ cmp x e = 0
  | None => forall p, In p v -> cmp x p <> 0
  end.
Proof.
  intros Hs F Hx. apply bsearch_go_inv; auto; try lia.
  - cbn. contradiction.
  - rewrite skipn_all. contradiction.
Qed.

Lemma qsort_insert_head (a : A) (l : list A) :
  (forall p, In p l -> cmp a p < 0) -> qsort_insert cmp a l = a :: l.
Proof.
  destruct l as [| q l]; cbn; [reflexivity |]. intros H.
  destruct (Z.leb_spec (cmp a q) 0) as [C | C]; [reflexivity |].
  specialize (H q (or_introl eq_refl)). lia.
Qed.

(** Sorting a sorted sequence with one new element appended puts the
    element at its place. *)
Lemma qsort_snoc (v : list A) (x : A) :
  sorted cmp v -> Forall ok v -> ok x ->
  (forall e, In e v -> cmp x e <> 0) ->
  exists l1 l2,
    v = l1 ++ l2
    /\ qsort cmp (v ++ [x]) = l1 ++ x :: l2
    /\ (forall p, In p l1 -> cmp p x < 0)
    /\ (forall p, In p l2 -> cmp x p < 0).
Proof.
  unfold qsort. rewrite fold_right_app. cbn [fold_right qsort_insert].
  induction v as [| a v IH]; intros Hs F Hx Hn.
  - exists [], []. cbn. repeat split; contradiction.
  - inversion Hs as [| ? ? Hs' Fa]; subst.
    inversion F as [| ? ? Ha F']; subst.
    destruct IH as (l1 & l2 & -> & E & L & R); auto.
    { intros e He. apply Hn. now right. }
    cbn [fold_right]. rewrite E.
    assert (Hax : cmp a x <> 0).
    { rewrite (ord_antisym _ _ O x a) by assumption.
      specialize (Hn a (or_introl eq_refl)). lia. }
    destruct l1 as [| p l1].
    + cbn [app] in *. cbn [qsort_insert].
      destruct (Z.leb_spec (cmp a x) 0) as [C | C].
      * exists [a], l2. cbn. repeat split; auto.
        intros p [<- | []]. lia.
      * exists [], (a :: l2). cbn [app]. repeat split.
        -- f_equal. apply qsort_insert_head.
           intros p Hp. now apply (proj1 (Forall_forall _ _) Fa).
        -- contradiction.
        -- intros p [<- | Hp]; [| now apply R].
           rewrite (ord_antisym _ _ O a x) by assumption. lia.
    + assert (Hap : cmp a p < 0).
      { apply (proj1 (Forall_forall _ _) Fa). cbn. auto. }
      exists (a :: p :: l1), l2. repeat split.
      * cbn [app qsort_insert].
        destruct (Z.leb_spec (cmp a p) 0); [reflexivity | lia].
      * intros r [<- | Hr]; [| now apply L].
        assert (ok p) by (inversion F'; assumption).
        apply (ord_trans _ _ O a p x); auto. apply L. cbn. auto.
      * assumption.
Qed.

Lemma seqAddQ_present (mem : bool) (v : list A) (x : A) :
  sorted cmp v -> Forall ok v -> ok x ->
  (exists e, In e v /\ cmp x e = 0) ->
  exists e, seqAddQ cmp mem v x = (Some e, v) /\ In e v /\ cmp x e = 0.
Proof.
  intros Hs F Hx (e & He & E). unfold seqAddQ.
  pose proof (bsearch_spec v x Hs F Hx) as H.
  destruct (bsearch cmp x v) as [e' |].
  - exists e'. tauto.
  - now apply H in He.
Qed.

Lemma seqAddQ_absent (v : list A) (x : A) :
  sorted cmp v -> Forall ok v -> ok x ->
  (forall e, In e v -> cmp x e <> 0) ->
  exists l1 l2,
    v = l1 ++ l2
    /\ seqAddQ cmp true v x = (Some x, l1 ++ x :: l2)
    /\ (forall p, In p l1 -> cmp p x < 0)
    /\ (forall p, In p l2 -> cmp x p < 0).
Proof.
  intros Hs F Hx Hn. unfold seqAddQ.
  pose proof (bsearch_spec v x Hs F Hx) as H.
  destruct (bsearch cmp x v) as [e' |].
  - destruct H as [He E]. now apply Hn in He.
  - destruct (qsort_snoc v x Hs F Hx Hn) as (l1 & l2 & E & Q & L & R).
    exists l1, l2. now rewrite Q.
Qed.

Lemma sorted_insert (l1 l2 : list A) (x : A) :
  sorted cmp (l1 ++ l2) ->
  (forall p, In p l1 -> cmp p x < 0) ->
  (forall p, In p l2 -> cmp x p < 0) ->
  sorted cmp (l1 ++ x :: l2).
Proof.
  intros Hs L R. unfold sorted in *.
  apply sorted_app_inv in Hs as (S1 & S2 & H).
  apply sorted_app; auto.
  - constructor; auto. now apply Forall_forall.
  - intros a b Ha [<- | Hb]; auto.
Qed.

Lemma seqAddQ_sorted (mem : bool) (v : list A) (x : A) :
  sorted cmp v -> Forall ok v -> ok x ->
  sorted cmp (snd (seqAddQ cmp mem v x)).
Proof.
  intros Hs F Hx. unfold seqAddQ.
  pose proof (bsearch_spec v x Hs F Hx) as H.
  destruct (bsearch cmp x v) as [e' |]; [assumption |].
  destruct mem; [| assumption]. cbn [snd].
  destruct (qsort_snoc v x Hs F Hx H) as (l1 & l2 & -> & Q & L & R).
  rewrite Q. now apply sorted_insert.
Qed.
End SortedSearch.


(** C6.  For symbols, names, values and inferences alike, on a sorted
    sequence: [Add] of an item that compares equal to a member returns that
    member and leaves the sequence as it is; [Add] of any other item
    inserts it between the smaller and the larger members and returns it;
    the sequence is sorted after the call. *)
Theorem seqAdd_correct :
  AddSpec sym_ok symCmp symsAdd /\ AddSpec nam_ok namCmp namsAdd
  /\ AddSpec val_ok valCmp valsAdd /\ AddSpec inf_ok infCmp infsAdd.
Proof.
  repeat split.
  - now apply (seqAddQ_present order_symCmp).
  - now apply (seqAddQ_absent order_symCmp).
  - now apply (seqAddQ_sorted order_symCmp).
  - now apply (seqAddQ_present order_namCmp).
  - now apply (seqAddQ_absent order_namCmp).
  - now apply (seqAddQ_sorted order_namCmp).
  - now apply (seqAdd_present order_valCmp).
  - now apply (seqAdd_absent order_valCmp).
  - now apply (seqAdd_sorted order_valCmp).
  - now apply (seqAdd_present order_infCmp).
  - now apply (seqAdd_absent order_infCmp).
  - now apply (seqAdd_sorted order_infCmp).
Qed.

Lemma existsb_val_eqb v l : existsb (val_eqb v) l = true <-> In v l.
Proof.
  rewrite existsb_exists. split.
  - intros (x & Hx & E). apply val_eqb_eq in E. now subst.
  - intros H. exists v. split; [assumption | apply val_eqb_refl].
Qed.

Lemma inVals_In (v : val_t) (l : vals_t) :
  sorted valCmp l -> Forall val_ok l -> val_ok v ->
  inVals v l = existsb (val_eqb v) l.
Proof.
  intros Hs F Hv. unfold inVals.
  pose proof (bsearch_spec order_valCmp l v Hs F Hv) as H.
  destruct (bsearch valCmp v l) as [e |].
  - destruct H as [He E]. symmetry. apply existsb_val_eqb.
    apply valCmp_eq in E; auto.
    + now subst.
    + now apply (proj1 (Forall_forall _ _) F).
  - destruct (existsb (val_eqb v) l) eqn:X; [| reflexivity].
    apply existsb_val_eqb in X. apply H in X. exfalso. apply X.
    now apply (ord_refl _ _ order_valCmp).
Qed.

Lemma inConds_isCond (v : val_t) (infs : infs_t) :
  Forall conds_ok infs -> val_ok v -> inConds v infs = isCond infs v.
Proof.
  intros F Hv. unfold inConds, isCond.
  induction F as [| a infs [Hs Fa] F IH]; cbn [existsb]; [reflexivity |].
  rewrite IH. f_equal.
  now apply (inVals_In v (inf_vals a)).
Qed.

(** C5, as the code has it.  [valsSubVal] drops [t], keeps the values that
    themselves occur as a condition of [infs], and drops the last value
    left under the name of [t] when it is alone. *)
Theorem valsSubVal_by_value (vals : vals_t) (t : val_t) (infs : infs_t) :
  Forall val_ok vals -> Forall conds_ok infs ->
  valsSubVal vals t infs = valsSubVal_by (isCond infs) vals t.
Proof.
  intros Fv Fi. unfold valsSubVal, valsSubVal_by.
  assert (E : filter (fun v => negb (val_eqb v t) && inConds v infs) vals
              = filter (fun v => negb (val_eqb v t) && isCond infs v) vals).
  { apply filter_ext_in. intros v Hv. f_equal.
    apply inConds_isCond; auto.
    now apply (proj1 (Forall_forall _ _) Fv). }
  now rewrite E.
Qed.

(** ** Independence analysis *)

Lemma add_search_inl {A : Type} (cmp : A -> A -> Z) (v : list A) x :
  forall fuel lo hi e,
    add_search cmp fuel v x lo hi = inl e -> In e v /\ cmp x e = 0.
Proof.
  induction fuel as [| fuel IH]; intros lo hi e; cbn [add_search];
    [discriminate |].
  destruct (lo <? hi)%nat; [| discriminate].
  destruct (nth_error v (lo + (hi - lo) / 2)) as [p |] eqn:N;
    [| discriminate].
  destruct (Z.eqb_spec (cmp x p) 0) as [E | E].
  - intros [= <-]. split; [apply (nth_error_In _ _ N) | assumption].
  - destruct (cmp x p <? 0); apply IH.
Qed.

Lemma In_insert_at {A : Type} (pos : nat) (x : A) (v : list A) y :
  In y (insert_at pos x v) <-> y = x \/ In y v.
Proof.
  unfold insert_at. rewrite <- (firstn_skipn pos v) at 3.
  rewrite !in_app_iff. cbn. intuition auto.
Qed.

(** Membership after an [Add] that cannot fail. *)
Lemma seqAdd_In {A : Type} (cmp : A -> A -> Z) (v : list A) (x y : A) :
  In y (snd (seqAdd cmp true v x)) ->  y = x \/ In y v.
Proof.
  unfold seqAdd.
  destruct (add_search cmp (S (length v)) v x 0 (length v)) as [e | pos];
    cbn [snd]; [auto |].
  apply In_insert_at.
Qed.

Lemma seqAdd_incl {A : Type} (cmp : A -> A -> Z) (v : list A) (x y : A) :
  In y v -> In y (snd (seqAdd cmp true v x)).
Proof.
  unfold seqAdd.
  destruct (add_search cmp (S (length v)) v x 0 (length v)) as [e | pos];
    cbn [snd]; [auto |].
  intros H. apply In_insert_at. now right.
Qed.

Lemma fold_left_flat_map {A B C : Type} (g : C -> B -> C) (h : A -> list B)
    (l : list A) (c : C) :
  fold_left (fun acc m => fold_left g (h m) acc) l c
  = fold_left g (flat_map h l) c.
Proof.
  revert c. induction l as [| m l IH]; intros c; cbn; [reflexivity |].
  now rewrite fold_left_app, IH.
Qed.

Section Independence.
Variable infs : infs_t.
Hypothesis infs_sorted : sorted infCmp infs.
Hypothesis infs_ok : Forall inf_ok infs.
Hypothesis infs_conds : Forall conds_ok infs.

(** The step of the first loop of [namsInd]. *)
Let step (acc : option vals_t) (v : val_t) : option vals_t :=
  match acc with
  | None => None
  | Some r =>
      match bsearch infsValSchCmp v infs with
      | Some _ => Some r
      | None =>
          match valsAdd true r v with
          | (Some e, r') => if val_eqb e v then Some r' else None
          | (None, _) => None
          end
      end
  end.

Lemma namsInd_step_ok (l : vals_t) :
  Forall val_ok l ->
  forall r, Forall val_ok r ->
  exists r',
    fold_left step l (Some r) = Some r'
    /\ Forall val_ok r'
    /\ (forall x, In x r -> In x r')
    /\ (forall x, In x l -> (forall a, In a infs -> inf_val a <> x) ->
        In x r').
Proof.
  induction 1 as [| v l Hv Fl IH]; intros r Fr; cbn [fold_left].
  - exists r. repeat split; auto. contradiction.
  - assert (Hstep :
      exists r1, step (Some r) v = Some r1 /\ Forall val_ok r1
        /\ (forall x, In x r -> In x r1)
        /\ ((forall a, In a infs -> inf_val a <> v) -> In v r1)).
    { unfold step.
      destruct (bsearch infsValSchCmp v infs) as [p |] eqn:B.
      - exists r. repeat split; auto.
        intros Hind. apply bsearch_some in B as [Hp E].
        unfold infsValSchCmp in E. exfalso. apply (Hind p Hp).
        symmetry. apply valCmp_eq; auto.
        apply (proj1 (Forall_forall _ _) infs_ok p Hp).
      - unfold valsAdd, seqAdd.
        destruct (add_search valCmp (S (length r)) r v 0 (length r))
          as [e | pos] eqn:S.
        + apply add_search_inl in S as [He E].
          apply valCmp_eq in E; auto;
            [| now apply (proj1 (Forall_forall _ _) Fr)].
          subst e. rewrite val_eqb_refl.
          exists r. repeat split; auto.
        + rewrite val_eqb_refl.
          exists (insert_at pos v r). repeat split.
          * apply Forall_forall. intros x Hx.
            apply In_insert_at in Hx as [-> | Hx]; auto.
            now apply (proj1 (Forall_forall _ _) Fr).
          * intros x Hx. apply In_insert_at. now right.
          * intros _. apply In_insert_at. now left. }
    destruct Hstep as (r1 & -> & F1 & I1 & V1).
    destruct (IH r1 F1) as (r' & E & F' & I' & V').
    exists r'. repeat split; auto.
    intros x [<- | Hx] Hind; auto.
Qed.

Lemma vinfs_find_map (f : val_t -> infs_t) (vals : vals_t) v :
  In v vals -> vinfs_find (map (fun w => (w, f w)) vals) v = Some (f v).
Proof.
  induction vals as [| w vals IH]; [contradiction |].
  intros H. cbn.
  destruct (val_eqb w v) eqn:E.
  - apply val_eqb_eq in E. now subst.
  - destruct H as [-> | H]; [| auto].
    now rewrite val_eqb_refl in E.
Qed.

(** [infsVal] collects the inferences that have [v] among their
    conditions, and nothing else. *)
Lemma infsVal_direct (v : val_t) :
  val_ok v ->
  forall a, In a (infsVal v infs []) <-> In a infs /\ In v (inf_vals a).
Proof.
  intros Hv. unfold infsVal.
  change (snd (valsAdd true [] v)) with [v]. cbn [fold_left].
  assert (G : forall rest pre r,
    infs = pre ++ rest ->
    (forall a, In a r <-> In a pre /\ In v (inf_vals a)) ->
    forall a,
      In a (fold_left
              (fun r inf =>
                 match bsearch valCmp v (inf_vals inf) with
                 | Some _ => snd (infsAdd true r inf)
                 | None => r
                 end) rest r)
      <-> In a infs /\ In v (inf_vals a)).
  { induction rest as [| b rest IH]; intros pre r E Hr a; cbn [fold_left].
    - rewrite app_nil_r in E. subst pre. apply Hr.
    - apply (IH (pre ++ [b])).
      + now rewrite <- app_assoc.
      + assert (Hb : In b infs) by (rewrite E; apply in_elt).
        destruct (proj1 (Forall_forall _ _) infs_conds b Hb) as [Sb Fb].
        pose proof (inVals_In v (inf_vals b) Sb Fb Hv) as Hin.
        unfold inVals in Hin.
        intros x. rewrite in_app_iff. cbn [In].
        destruct (bsearch valCmp v (inf_vals b)) as [w |].
        * symmetry in Hin. apply existsb_val_eqb in Hin.
          unfold infsAdd, seqAdd.
          destruct (add_search infCmp (S (length r)) r b 0 (length r))
            as [e | pos] eqn:S.
          -- exfalso. apply add_search_inl in S as [He Ee].
             apply Hr in He as [He _].
             pose proof infs_sorted as Hs. unfold sorted in Hs.
             rewrite E in Hs.
             apply sorted_app_inv in Hs as (_ & _ & Hlt).
             specialize (Hlt e b He (or_introl eq_refl)).
             rewrite (ord_antisym _ _ order_infCmp b e) in Hlt.
             ++ lia.
             ++ now apply (proj1 (Forall_forall _ _) infs_ok).
             ++ apply (proj1 (Forall_forall _ _) infs_ok).
                rewrite E. apply in_or_app. now left.
          -- cbn [snd]. rewrite In_insert_at, Hr.
             split.
             ++ intros [-> | [H1 H2]]; auto.
             ++ intros [[H1 | [<- | []]] H2]; auto.
        * assert (Hn : ~ In v (inf_vals b)).
          { intros H. apply existsb_val_eqb in H. congruence. }
          rewrite Hr. split.
          -- intros [H1 H2]; auto.
          -- intros [[H1 | [<- | []]] H2]; auto. contradiction. }
  apply (G infs [] []); [reflexivity |].
  intros a. cbn. tauto.
Qed.

(** C2, as the code has it.  On a sorted table, for a value [v] of a
    declared name that no inference concludes, [namsInd] succeeds, lists
    [v] as independent, and stores in [v.infs] exactly the inferences that
    have [v] among their conditions: the direct references, without the
    closure through conclusions. *)
Theorem namsInd_direct (nams : list nam_t) (v : val_t) :
  Forall (fun m => Forall val_ok (nam_vals m)) nams ->
  (exists m, In m nams /\ In v (nam_vals m)) ->
  (forall a, In a infs -> inf_val a <> v) ->
  exists vals tbl r,
    namsInd nams infs = Some (vals, tbl)
    /\ In v vals
    /\ vinfs_find tbl v = Some r
    /\ forall a, In a r <-> In a infs /\ In v (inf_vals a).
Proof.
  intros Fn (m & Hm & Hvm) Hind.
  assert (Fall : Forall val_ok (flat_map nam_vals nams)).
  { apply Forall_flat_map. exact Fn. }
  assert (Hv : In v (flat_map nam_vals nams)).
  { apply in_flat_map. now exists m. }
  destruct (namsInd_step_ok _ Fall [] (Forall_nil _))
    as (vals & E & Fv & _ & Hin).
  unfold namsInd.
  change (namsInd_vals nams infs)
    with (fold_left (fun acc m => fold_left step (nam_vals m) acc)
            nams (Some [])).
  rewrite (fold_left_flat_map step nam_vals nams (Some [])).
  rewrite E.
  exists vals, (map (fun w => (w, infsVal w infs [])) vals),
    (infsVal v infs []).
  split; [reflexivity |].
  split; [now apply Hin |].
  split; [apply vinfs_find_map; now apply Hin |].
  apply infsVal_direct.
  now apply (proj1 (Forall_forall _ _) Fall).
Qed.
End Independence.

Ltac break_match :=
  match goal with
  | |- context [match ?x with _ => _ end] =>
      lazymatch x with
      | context [match _ with _ => _ end] => fail
      | _ => destruct x eqn:?
      end
  | H : context [match ?x with _ => _ end] |- _ =>
      lazymatch x with
      | context [match _ with _ => _ end] => fail
      | _ => destruct x eqn:?
      end
  end.

Section CandFacts.
Variable cx : ctx_t.
Variable tf : nat.
Variable rec : rec_t.

(** Shape of a candidate that reaches the comparison with the bound. *)
Lemma cand_node st vals infs bd t st' r :
  cand cx tf rec st vals infs bd t = Ret (st', CandNode r) ->
  exists iV iO nodV nodO d,
    r = Nod (st_next st) (Some t) iV iO nodV nodO d
    /\ match nodV, nodO with
       | None, None => d = O
       | Some v, None => hasVal v = true /\ d = S (nod_d v)
       | None, Some o => hasVal o = true /\ d = S (nod_d o)
       | Some v, Some o =>
           hasVal v = true /\ hasVal o = true
           /\ d = S (Nat.max (nod_d v) (nod_d o))
       end.
Proof.
  unfold cand. intros H.
  repeat (break_match; try discriminate);
    injection H as <- <-; do 5 eexists; (split; [reflexivity |]);
    repeat match goal with
           | H : (_ && _) = true |- _ => apply andb_prop in H as [? ?]
           end;
    repeat split; auto; cbn [Nat.add];
    repeat match goal with
           | H : (_ <? _)%nat = true |- _ => apply Nat.ltb_lt in H
           | H : (_ <? _)%nat = false |- _ => apply Nat.ltb_ge in H
           end;
    lia.
Qed.

End CandFacts.

Section LoopFacts.
Variable cx : ctx_t.
Variable tf : nat.
Variable rec : rec_t.
Variable vals : vals_t.
Variable infs : infs_t.

Let step := nodBld_step cx tf false rec vals infs.










End LoopFacts.

(** ** Invariants of the store *)

Section StoreInv.
Variable cx : ctx_t.
Variable tf : nat.
Variable q : bool.
(** [P] holds of the entries of the store, [Q] of the nodes a call
    returns, [R] of the node the loop holds. *)
Variable P : bld_t -> Prop.
Variable Q : nod_t -> Prop.
Variable R : nod_t -> Prop.

Hypothesis R_cand :
  forall id t iV iO nodV nodO d,
    match nodV, nodO with
    | None, None => d = O
    | Some v, None => hasVal v = true /\ d = S (nod_d v)
    | None, Some o => hasVal o = true /\ d = S (nod_d o)
    | Some v, Some o =>
        hasVal v = true /\ hasVal o = true
        /\ d = S (Nat.max (nod_d v) (nod_d o))
    end ->
    (forall c, nodV = Some c -> Q c) ->
    (forall c, nodO = Some c -> Q c) ->
    R (Nod id (Some t) iV iO nodV nodO d).



Lemma cand_store rec st vals infs bd t st' c :
  rec_ok P Q rec -> store_ok P st ->
  cand cx tf rec st vals infs bd t = Ret (st', c) ->
  store_ok P st' /\ match c with CandNode r => R r | _ => True end.
Proof.
  intros Hrec Hst H.
  assert (Hst0 : store_ok P (mkBst (st_blds st) (S (st_next st))))
    by exact Hst.
  assert (Hc : match c with CandNode r => exists iV iO nodV nodO d,
                 r = Nod (st_next st) (Some t) iV iO nodV nodO d
                 /\ match nodV, nodO with
                    | None, None => d = O
                    | Some v, None => hasVal v = true /\ d = S (nod_d v)
                    | None, Some o => hasVal o = true /\ d = S (nod_d o)
                    | Some v, Some o =>
                        hasVal v = true /\ hasVal o = true
                        /\ d = S (Nat.max (nod_d v) (nod_d o))
                    end
               | _ => True end).
  { destruct c; auto. now apply cand_node in H. }
  unfold cand in H.
  repeat (break_match; try discriminate);
    inversion H; subst; clear H;
    repeat match goal with
    | E : rec _ _ _ _ = Ret (?s, _), S : store_ok P _ |- _ =>
        apply (Hrec _ _ _ _ _ _ S) in E as [? ?]
    end;
    (split; [assumption |]); try exact I;
    destruct Hc as (iV & iO & nodV & nodO & d & E & Hd);
    inversion E; subst; clear E;
    apply R_cand; try assumption; intros c' [= <-]; assumption.
Qed.

Lemma step_store rec vals infs s t s' :
  rec_ok P Q rec -> store_ok P (l_st s) -> R (l_nod s) ->
  nodBld_step cx tf q rec vals infs s t = Ret s' ->
  store_ok P (l_st s') /\ R (l_nod s').
Proof.
  intros Hrec Hst Hn H. unfold nodBld_step in H.
  destruct (l_brk s).
  - injection H as <-. auto.
  - destruct (cand cx tf rec (l_st s) vals infs (l_bd s) t)
      as [[st c] | |] eqn:C; try discriminate.
    destruct (cand_store _ _ _ _ _ _ _ _ Hrec Hst C) as [Hst' Hc].
    destruct c as [| | r];
      repeat (break_match; try discriminate);
      injection H as <-; cbn; auto.
Qed.

Lemma iter_store rec vals infs vs : forall s sF,
  rec_ok P Q rec -> store_ok P (l_st s) -> R (l_nod s) ->
  nodBld_iter cx tf q rec vals infs s vs = Ret sF ->
  store_ok P (l_st sF) /\ R (l_nod sF).
Proof.
  induction vs as [| t vs IH]; intros s sF Hrec Hst Hn H; cbn in H.
  - injection H as <-. auto.
  - destruct (nodBld_step cx tf q rec vals infs s t) as [s1 | |] eqn:S1;
      try discriminate.
    destruct (step_store _ _ _ _ _ _ Hrec Hst Hn S1) as [Hst1 Hn1].
    now apply (IH s1 sF).
Qed.

Lemma bldsAdd_In (blds : list bld_t) (bld b : bld_t) :
  In b (bldsAdd blds bld) <-> b = bld \/ In b blds.
Proof. unfold bldsAdd. apply In_insert_at. Qed.

Lemma bldsFnd_some blds vals infs bld :
  bldsFnd blds vals infs = Some bld ->
  In bld blds
  /\ valsCmp vals (bld_vals bld) = 0 /\ infsCmp infs (bld_infs bld) = 0.
Proof.
  unfold bldsFnd. intros H. apply bsearch_some in H as [Hin E].
  split; [assumption |]. unfold bldKeyCmp in E. cbn [fst snd] in E.
  destruct (Z.eqb_spec (valsCmp vals (bld_vals bld)) 0) as [E1 | E1];
    [auto | contradiction].
Qed.
End StoreInv.

(** The comparisons are reflexive whatever the lengths. *)
Lemma symCmp_refl a : symCmp a a = 0.
Proof.
  unfold symCmp.
  assert (E : symCmp_scan a a 0 = 0).
  { induction a as [| c a IH]; cbn; [reflexivity |].
    now rewrite Z.sub_diag. }
  rewrite E, Z.sub_diag. reflexivity.
Qed.

Lemma valCmp_refl a : valCmp a a = 0.
Proof. unfold valCmp. now rewrite !symCmp_refl. Qed.

Lemma seqCmp_refl {A : Type} (cmp : A -> A -> Z) :
  (forall a, cmp a a = 0) -> forall l, seqCmp cmp l l = 0.
Proof.
  intros H. induction l as [| a l IH]; cbn; [reflexivity |].
  now rewrite H.
Qed.

Lemma valsCmp_refl l : valsCmp l l = 0.
Proof. apply seqCmp_refl, valCmp_refl. Qed.

Lemma infCmp_refl a : infCmp a a = 0.
Proof. unfold infCmp. now rewrite valCmp_refl, valsCmp_refl. Qed.


Section BuilderFacts.
Variable cx : ctx_t.
Variable sortv : (val_t -> val_t -> Z) -> vals_t -> vals_t.
Variable tf : nat.

Lemma wf_cand :
  forall id t iV iO nodV nodO d,
    match nodV, nodO with
    | None, None => d = O
    | Some v, None => hasVal v = true /\ d = S (nod_d v)
    | None, Some o => hasVal o = true /\ d = S (nod_d o)
    | Some v, Some o =>
        hasVal v = true /\ hasVal o = true
        /\ d = S (Nat.max (nod_d v) (nod_d o))
    end ->
    (forall c, nodV = Some c -> wf c) ->
    (forall c, nodO = Some c -> wf c) ->
    wf (Nod id (Some t) iV iO nodV nodO d).
Proof.
  intros id t iV iO [v |] [o |] d Hd HV HO; cbn [wf]; intuition auto.
Qed.

Lemma wf_finish infs n : wf n -> wf (finish infs n).
Proof.
  unfold finish. destruct n as [id [v |] iV iO nodV nodO d]; cbn; auto.
Qed.

(** Every node [nodBld] returns or stores has the shape [wf]. *)
Lemma nodBld_wf (q : bool) : forall fuel st vals infs bd st' n,
  (forall b, In b (st_blds st) -> wf (bld_nod b)) ->
  nodBld cx sortv tf q fuel st vals infs bd = Ret (st', n) ->
  (forall b, In b (st_blds st') -> wf (bld_nod b)) /\ wf n.
Proof.
  induction fuel as [| fuel IH]; intros st vals infs bd st' n Hst H;
    [discriminate |].
  cbn [nodBld] in H. unfold nodBld_body in H.
  destruct (bldsFnd (st_blds st) vals infs) as [bld |] eqn:F.
  - injection H as <- <-. split; [assumption |].
    apply bldsFnd_some in F as [Hin _]. now apply Hst.
  - unfold nodBld_fresh in H.
    destruct (nodBld_iter cx tf q (nodBld cx sortv tf q fuel) vals infs _ _)
      as [s | |] eqn:It; try discriminate.
    injection H as <- <-.
    pose proof (fun A B C =>
      iter_store cx tf q (fun b => wf (bld_nod b)) wf wf wf_cand
        _ _ _ _ _ _ A B C It) as X.
    destruct (X IH Hst (conj eq_refl (conj eq_refl eq_refl))) as [Hs Hn].
    split; [| now apply wf_finish].
    intros b Hb. cbn [st_blds] in Hb.
    apply bldsAdd_In in Hb as [-> | Hb]; [| now apply Hs].
    cbn. now apply wf_finish.
Qed.

End BuilderFacts.

(** ** Depth and number of tests *)

Lemma tests_depth : forall n,
  wf n -> hasVal n = true -> tests n = S (nod_d n).
Proof.
  fix IH 1. intros [id [t |] iV iO nodV nodO d]; [| discriminate].
  intros W _. cbn [tests nod_d]. cbn [wf] in W.
  destruct nodV as [v |], nodO as [o |].
  - destruct W as (Hv & Ho & Wv & Wo & ->).
    now rewrite (IH v Wv Hv), (IH o Wo Ho).
  - destruct W as (Hv & Wv & ->). now rewrite (IH v Wv Hv).
  - destruct W as (Ho & Wo & ->). now rewrite (IH o Wo Ho).
  - now subst d.
Qed.

Lemma tests_leaf n : wf n -> hasVal n = false -> tests n = O /\ nod_d n = O.
Proof.
  destruct n as [id [t |] iV iO nodV nodO d]; [discriminate |].
  cbn. intuition auto.
Qed.

(** ** Consistency check *)

Lemma infsChk_row_In a rest b :
  In b rest -> clash a b = true ->
  In (unresolvable a b) (infsChk_row a rest).
Proof.
  intros Hin C. unfold infsChk_row. apply in_flat_map. exists b.
  split; [assumption |]. unfold clash in C. rewrite C. now left.
Qed.

Lemma infsChk_list_In l1 a l2 b l3 :
  clash a b = true ->
  In (unresolvable a b) (infsChk_list (l1 ++ a :: l2 ++ b :: l3)).
Proof.
  intros C. induction l1 as [| x l1 IH]; cbn [app infsChk_list].
  - apply in_or_app. left. apply infsChk_row_In; [| assumption].
    apply in_or_app. right. now left.
  - apply in_or_app. now right.
Qed.

Lemma nodChk_bucket : forall root m dg,
  In m (subnodes root) ->
  In dg (infsChk (nod_infsV m)) \/ In dg (infsChk (nod_infsO m)) ->
  In dg (nodChk root).
Proof.
  fix IH 1. intros [id val iV iO nodV nodO d] m dg Hm Hdg.
  cbn [subnodes] in Hm. cbn [nodChk].
  destruct Hm as [<- | Hm].
  - cbn [nod_infsV nod_infsO] in Hdg. rewrite !in_app_iff. tauto.
  - rewrite !in_app_iff. right. right.
    apply in_app_or in Hm as [Hm | Hm].
    + left. destruct nodV as [c |]; [| contradiction]. now apply (IH c m).
    + right. destruct nodO as [c |]; [| contradiction]. now apply (IH c m).
Qed.

Lemma outO_decl : forall infs prev, forallb isDecl (outO prev infs) = true.
Proof.
  induction infs as [| a infs IH]; intros prev; cbn; [reflexivity |].
  destruct prev as [p |]; [destruct (val_eqb (inf_val a) p) |]; cbn;
    apply IH.
Qed.

Lemma decls_decl vals infs :
  forallb isDecl (map LI vals ++ outO None infs) = true.
Proof.
  rewrite forallb_app, outO_decl, andb_true_r.
  induction vals as [| v vals IH]; cbn; auto.
Qed.

Section MainFacts.
Variable sortv : (val_t -> val_t -> Z) -> vals_t -> vals_t.
Variable tf fuel : nat.

Lemma main_pre_vals nams infs vals tbl :
  main_pre nams infs = inr (vals, tbl) -> vals <> [].
Proof.
  unfold main_pre. intros H.
  repeat match type of H with
         | (if ?c then _ else _) = _ => destruct c; try discriminate
         | match ?x with _ => _ end = _ =>
             destruct x as [[[| v0 vs0] tbl0] |]; try discriminate
         end.
  inversion H; subst; discriminate.
Qed.

Lemma main_build_wf q nams infs vals tbl st nod :
  main_build sortv tf fuel q nams infs vals tbl = Ret (st, nod) -> wf nod.
Proof.
  unfold main_build. intros H.
  apply nodBld_wf in H; [tauto |]. intros b [].
Qed.

(** C3, as the code has it.  On a run that passes the checks the [D] line
    follows the [I] and [O] lines, and its number is the depth field of the
    root plus one: the number of tests on the longest path when the root
    bears a test, and 1 for a root without test. *)
Theorem main_header q nams infs vals tbl st nod :
  main_pre nams infs = inr (vals, tbl) ->
  main_build sortv tf fuel q nams infs vals tbl = Ret (st, nod) ->
  nodChk nod = [] ->
  (exists body err,
      main sortv tf fuel q nams infs
      = Some (mkRun ((map LI vals ++ outO None infs)
                     ++ [LD (nod_d nod + 1)] ++ body ++ [LL 0]) err))
  /\ vals <> []
  /\ (if hasVal nod then (nod_d nod + 1)%nat = tests nod
      else (nod_d nod + 1)%nat = 1%nat /\ tests nod = O).
Proof.
  intros Hp Hb Hc. split; [| split].
  - unfold main. rewrite Hp, Hb, Hc. eexists _, _. reflexivity.
  - now apply main_pre_vals in Hp.
  - pose proof (main_build_wf _ _ _ _ _ _ _ Hb) as W.
    destruct (hasVal nod) eqn:V.
    + rewrite (tests_depth nod W V). lia.
    + destruct (tests_leaf nod W V) as [-> ->]. auto.
Qed.

(** C7.  When a bucket ([infsV] or [infsO]) of some node of the built tree
    holds two inferences that conclude the same name with different
    values, the run reports the unresolvable diagnostic with file and row
    of both, and the output holds [I] and [O] lines only. *)
Theorem main_unresolvable q nams infs vals tbl st nod m bucket l1 a l2 b l3 :
  main_pre nams infs = inr (vals, tbl) ->
  main_build sortv tf fuel q nams infs vals tbl = Ret (st, nod) ->
  In m (subnodes nod) ->
  nod_infsV m = Some bucket \/ nod_infsO m = Some bucket ->
  bucket = l1 ++ a :: l2 ++ b :: l3 ->
  clash a b = true ->
  exists run,
    main sortv tf fuel q nams infs = Some run
    /\ In (unresolvable a b) (r_err run)
    /\ forallb isDecl (r_out run) = true.
Proof.
  intros Hp Hb Hm Hk -> C.
  assert (Hd : In (unresolvable a b) (nodChk nod)).
  { apply (nodChk_bucket nod m); [assumption |].
    destruct Hk as [-> | ->]; [left | right]; cbn [infsChk];
      now apply infsChk_list_In. }
  unfold main. rewrite Hp, Hb.
  destruct (nodChk nod) as [| dg rest] eqn:E; [contradiction |].
  eexists. split; [reflexivity |]. cbn [r_err r_out]. split.
  - apply in_or_app. now right.
  - apply decls_decl.
Qed.
End MainFacts.

(** ** The closure loop on a cycle *)

Lemma trn_round_A1 r : snd (trn_round [vA1] infsY r []) = [vB1].
Proof. reflexivity. Qed.

Lemma trn_round_B1 r : snd (trn_round [vB1] infsY r []) = [vA1].
Proof. reflexivity. Qed.

Lemma trn_loop_cycle : forall fuel r,
  infsValTrnAdd_loop fuel [vA1] infsY r = None
  /\ infsValTrnAdd_loop fuel [vB1] infsY r = None.
Proof.
  induction fuel as [| fuel IH]; intros r; [split; reflexivity |].
  cbn [infsValTrnAdd_loop]. split.
  - pose proof (trn_round_A1 r) as E.
    destruct (trn_round [vA1] infsY r []) as [r' v2]. cbn [snd] in E.
    subst v2. apply IH.
  - pose proof (trn_round_B1 r) as E.
    destruct (trn_round [vB1] infsY r []) as [r' v2]. cbn [snd] in E.
    subst v2. apply IH.
Qed.

(** C10.  On the table [A=1 | B=1], [B=1 | A=1] the loop of [infsValTrnAdd]
    started at [A=1] has a non-empty frontier after every round: no number
    of rounds makes it return. *)
Theorem infsValTrnAdd_cycle : forall fuel r,
  infsValTrnAdd fuel vA1 infsY r = None.
Proof. intros fuel r. apply trn_loop_cycle. Qed.


Lemma inflate_cycle tf :
  inflate tf infsY (infsResVal cxY valsY infsY vC1) = None.
Proof.
  change (infsResVal cxY valsY infsY vC1)
    with [mkI vA1 [vC1] 4].
  unfold inflate. destruct tf as [| tf]; [reflexivity |].
  cbn [trnAll nth_error inf_val mkI].
  unfold infsValTrnAdd. now rewrite (proj1 (trn_loop_cycle (S tf) _)).
Qed.

Lemma cand_cycle tf rec st bd :
  cand cxY tf rec st valsY infsY bd vC1 = Timeout.
Proof. unfold cand. now rewrite inflate_cycle. Qed.

(** C9.  On the table [A=1 | B=1], [B=1 | A=1], [A=1 | C=1], with the
    frontier of the independent values of [C], [nodBld] does not return
    whatever the bounds on recursion and closure rounds: the closure of
    the first candidate never ends. *)
Theorem nodBld_cycle : forall tf fuel q bd,
  nodBld cxY (@qsort val_t) tf q fuel (mkBst [] 0) valsY infsY bd = Timeout.
Proof.
  intros tf fuel q bd.
  destruct fuel as [| fuel]; [reflexivity |].
  cbn [nodBld]. unfold nodBld_body.
  change (bldsFnd (st_blds (mkBst [] 0)) valsY infsY) with (@None bld_t).
  unfold nodBld_fresh.
  change (qsort (valsInfsCmp cxY) valsY) with [vC1; vC2].
  cbn [nodBld_iter]. unfold nodBld_step at 1. cbn [l_brk l_st l_bd].
  now rewrite cand_cycle.
Qed.

Ltac not_in H :=
  cbn in H; repeat (destruct H as [H | H]; [discriminate H |]); exact H.


(** C2, counterexample.  On the chain [B=1 | A=1], [C=1 | B=1] the set
    stored for the independent value [A=1] is not the closure: the second
    inference is reachable and is left out. *)
Lemma namsInd_not_closure :
  exists vals tbl r,
    namsInd namsC infsC = Some (vals, tbl)
    /\ vinfs_find tbl vA1 = Some r
    /\ (forall a, In a infsC -> inf_val a <> vA1)
    /\ ~ (forall a, In a r <-> reach infsC vA1 a).
Proof.
  eexists. eexists. eexists.
  split; [vm_compute; reflexivity |].
  split; [vm_compute; reflexivity |].
  split.
  - intros a H. cbn in H.
    repeat (destruct H as [<- | H]; [discriminate |]). contradiction.
  - intros H.
    assert (R : reach infsC vA1 infC_CB).
    { apply (reach_step _ _ infC_BA).
      - apply reach_base; cbn; auto.
      - cbn; auto.
      - cbn; auto. }
    apply H in R. not_in R.
Qed.

(** C2 as amended, on the same chain. *)
Lemma namsInd_direct_witness :
  exists vals tbl r,
    namsInd namsC infsC = Some (vals, tbl)
    /\ In vA1 vals
    /\ vinfs_find tbl vA1 = Some r
    /\ forall a, In a r <-> In a infsC /\ In vA1 (inf_vals a).
Proof.
  apply (namsInd_direct infsC).
  - repeat constructor.
  - repeat constructor.
  - repeat constructor.
  - repeat constructor.
  - eexists. split; [left; reflexivity | left; reflexivity].
  - intros a H. cbn in H.
    repeat (destruct H as [<- | H]; [discriminate |]). contradiction.
Defined.

(** C3, counterexample.  For [@A,B] / [x,1] / [y,2] the listing starts
    with an [I] line, and its [D] line is [D,1], not [D,2]. *)
Lemma main_header_example :
  exists run,
    main (@qsort val_t) 50 50 false nams1 infs1 = Some run
    /\ hd_error (r_out run) = hd_error (map LI vals1)
    /\ In (LD 1) (r_out run) /\ ~ In (LD 2) (r_out run).
Proof.
  eexists. split; [vm_compute; reflexivity |]. cbn [r_out].
  split; [reflexivity |]. split.
  - cbn. tauto.
  - intros H. not_in H.
Qed.

(** C3 as amended, on the same table. *)
Lemma main_header_witness :
  exists st nod,
    main_build (@qsort val_t) 50 50 false nams1 infs1 vals1 (ctx_vinfs cx1)
    = Ret (st, nod)
    /\ (exists body err,
          main (@qsort val_t) 50 50 false nams1 infs1
          = Some (mkRun ((map LI vals1 ++ outO None infs1)
                         ++ [LD (nod_d nod + 1)] ++ body ++ [LL 0]) err))
    /\ vals1 <> []
    /\ (if hasVal nod then (nod_d nod + 1)%nat = tests nod
        else (nod_d nod + 1)%nat = 1%nat /\ tests nod = O).
Proof.
  eexists. eexists. split; [vm_compute; reflexivity |].
  eapply (main_header (@qsort val_t) 50 50 false nams1 infs1 vals1
            (ctx_vinfs cx1)); vm_compute; reflexivity.
Defined.

(** C4.  For [@O,I0,I1,I2] / [a,,1,] / [b,1,0,] / [a,,0,0] / [a,,,1] /
    [a,0,1,0] the run succeeds and its listing holds [J,5] and no [L,5]:
    a node reached a second time is given the label counter as it stands,
    a label that is never printed. *)
Theorem outNod_dangling_jump :
  exists run,
    main (@qsort val_t) 50 50 false nams5 infs5 = Some run
    /\ In (LJ 5) (r_out run) /\ ~ In (LL 5) (r_out run).
Proof.
  eexists. split; [vm_compute; reflexivity |]. cbn [r_out]. split.
  - cbn. tauto.
  - intros H. not_in H.
Qed.

(** C5, counterexample.  Keeping by the name of a condition differs from
    what [valsSubVal] returns. *)
Lemma valsSubVal_not_by_name :
  valsSubVal valsS vS infsS <> valsSubVal_by (isCondNam infsS) valsS vS.
Proof. vm_compute. discriminate. Qed.

(** C5 as amended, on the same input. *)
Lemma valsSubVal_by_value_witness :
  valsSubVal valsS vS infsS = valsSubVal_by (isCond infsS) valsS vS.
Proof.
  apply valsSubVal_by_value.
  - repeat constructor.
  - repeat constructor.
Defined.

(** C6 on one insertion per category. *)
Lemma seqAdd_correct_witness :
  sorted symCmp (snd (symsAdd true symsS symS))
  /\ sorted namCmp (snd (namsAdd true nams1 namS))
  /\ sorted valCmp (snd (valsAdd true vals1 valS))
  /\ sorted infCmp (snd (infsAdd true infs1 infS)).
Proof.
  destruct seqAdd_correct as (Hs & Hn & Hv & Hi).
  split; [| split; [| split]].
  - apply (Hs true symsS symS); repeat constructor.
  - apply (Hn true nams1 namS); repeat constructor.
  - apply (Hv true vals1 valS); repeat constructor.
  - apply (Hi true infs1 infS); repeat constructor.
Defined.

(** C7 on [foo,a] and [foo,b] both conditioned on [K=1]. *)
Lemma main_unresolvable_witness :
  exists run,
    main (@qsort val_t) 50 50 false namsU infsU = Some run
    /\ In (unresolvable infU2 infU3) (r_err run)
    /\ forallb isDecl (r_out run) = true.
Proof.
  eapply (main_unresolvable (@qsort val_t) 50 50 false namsU infsU
            _ _ _ _ _ [infU2; infU3] [] infU2 [] infU3 []).
  - vm_compute; reflexivity.
  - vm_compute; reflexivity.
  - left; reflexivity.
  - left. vm_compute; reflexivity.
  - reflexivity.
  - reflexivity.
Defined.

(** * Further properties of the code *)

(** ** Comparison functions *)

Lemma seqCmp_eq {A : Type} (ok : A -> Prop) (cmp : A -> A -> Z) :
  (forall a b, ok a -> ok b -> cmp a b = 0 -> a = b) ->
  forall l1 l2, Forall ok l1 -> Forall ok l2 ->
    seqCmp cmp l1 l2 = 0 -> l1 = l2.
Proof.
  intros E. induction l1 as [| a l1 IH]; intros [| b l2] F1 F2;
    cbn [seqCmp]; try discriminate; [reflexivity |].
  inversion F1; inversion F2; subst.
  destruct (Z.eqb_spec (cmp a b) 0) as [C | C]; [| contradiction].
  intros H. f_equal; auto.
Qed.

Lemma infCmp_eq a b :
  inf_ok a -> inf_ok b -> infCmp a b = 0 ->
  inf_val a = inf_val b /\ inf_vals a = inf_vals b.
Proof.
  intros [Ha Fa] [Hb Fb]. unfold infCmp.
  destruct (Z.eqb_spec (valCmp (inf_val a) (inf_val b)) 0) as [C | C];
    [| contradiction].
  intros H. split; [now apply valCmp_eq |].
  now apply (seqCmp_eq val_ok valCmp valCmp_eq).
Qed.

(** Two inferences compare equal exactly when they have the same conclusion
    and the same conditions; file and row play no part. *)
Theorem infCmp_zero_iff (a b : inf_t) :
  inf_ok a -> inf_ok b ->
  (infCmp a b = 0 <-> inf_val a = inf_val b /\ inf_vals a = inf_vals b).
Proof.
  intros Ha Hb. split; [now apply infCmp_eq |].
  intros [E1 E2]. unfold infCmp. rewrite E1, E2, valCmp_refl.
  apply valsCmp_refl.
Qed.

Lemma infCmp_zero_iff_witness :
  infCmp infU2 (mkInf (inf_val infU2) (inf_vals infU2) (inf_fil infU3) 9) = 0
  <-> inf_val infU2 = inf_val infU2 /\ inf_vals infU2 = inf_vals infU2.
Proof.
  apply (infCmp_zero_iff infU2
           (mkInf (inf_val infU2) (inf_vals infU2) (inf_fil infU3) 9));
    repeat constructor.
Defined.

(** [symCmp] orders symbols shorter than 2^31 bytes as byte strings: by the
    first differing byte, a proper prefix first. *)
Theorem symCmp_lexicographic (e1 e2 : sym_t) :
  sym_ok e1 -> sym_ok e2 -> symCmp e1 e2 = Zc (String.compare e1 e2).
Proof. apply symCmp_compare. Qed.

Lemma symCmp_lexicographic_witness :
  symCmp symS (nam_sym namS) = Zc (String.compare symS (nam_sym namS)).
Proof. apply symCmp_lexicographic; vm_compute; reflexivity. Defined.

(** ** Searching by a key *)

Lemma bsearch_go_key {K A : Type} (compar : K -> A -> Z) key base :
  key_sorted compar key base ->
  forall fuel lo hi,
    (lo <= hi <= length base)%nat -> (hi - lo < fuel)%nat ->
    (forall p, In p (firstn lo base) -> compar key p <> 0) ->
    (forall p, In p (skipn hi base) -> compar key p <> 0) ->
    bsearch_go fuel compar key base lo hi = None ->
    forall p, In p base -> compar key p <> 0.
Proof.
  intros M.
  induction fuel as [| fuel IH]; intros lo hi B Hf L R; [lia |].
  cbn [bsearch_go].
  destruct (Nat.ltb_spec lo hi) as [Hlt | Hge].
  - set (mid := ((lo + hi) / 2)%nat).
    assert (Hmid : (lo <= mid < hi)%nat).
    { subst mid. split.
      - apply Nat.div_le_lower_bound; lia.
      - apply Nat.Div0.div_lt_upper_bound; lia. }
    destruct (nth_error base mid) as [e |] eqn:N.
    2: { apply nth_error_None in N. lia. }
    destruct (M _ _ _ (nth_error_decomp base mid e N)) as [Ml Mr].
    destruct (Z.ltb_spec (compar key e) 0) as [C | C].
    + apply IH; try lia; try assumption.
      intros p Hp. rewrite (skipn_cons_nth base mid e N) in Hp.
      destruct Hp as [<- | Hp]; [lia | auto].
    + destruct (Z.gtb_spec (compar key e) 0) as [C' | C'];
        [| discriminate].
      apply IH; try lia; try assumption.
      intros p Hp. rewrite (firstn_S_snoc base mid e N) in Hp.
      apply in_app_or in Hp as [Hp | [<- | []]]; [| lia].
      apply Mr; [lia | assumption].
  - intros _ p Hp. assert (lo = hi) by lia. subst hi.
    rewrite <- (firstn_skipn lo base) in Hp.
    apply in_app_or in Hp as [Hp | Hp]; auto.
Qed.

Lemma bsearch_key {K A : Type} (compar : K -> A -> Z) key base :
  key_sorted compar key base ->
  bsearch compar key base = None ->
  forall p, In p base -> compar key p <> 0.
Proof.
  intros M B.
  apply (bsearch_go_key compar key base M (S (length base)) 0 (length base));
    try lia; try assumption.
  - intros p [].
  - rewrite skipn_all. intros p [].
Qed.

Lemma sorted_split {A : Type} (cmp : A -> A -> Z) (l1 : list A) p l2 :
  sorted cmp (l1 ++ p :: l2) ->
  (forall x, In x l1 -> cmp x p < 0) /\ (forall x, In x l2 -> cmp p x < 0).
Proof.
  intros H. apply sorted_app_inv in H as (S1 & S2 & X). split.
  - intros x Hx. apply X; [assumption | now left].
  - intros x Hx. inversion S2 as [| ? ? _ F]; subst.
    now apply (proj1 (Forall_forall _ _) F).
Qed.

Lemma infCmp_val_le a b : infCmp a b < 0 -> valCmp (inf_val a) (inf_val b) <= 0.
Proof.
  unfold infCmp.
  destruct (Z.eqb_spec (valCmp (inf_val a) (inf_val b)) 0); lia.
Qed.

(** A sequence sorted by [infCmp] is ordered for a search by conclusion. *)
Lemma infs_key_sorted (infs : infs_t) (v : val_t) :
  sorted infCmp infs -> Forall inf_ok infs -> val_ok v ->
  key_sorted infsValSchCmp v infs.
Proof.
  intros Hs F Hv l1 p l2 ->.
  destruct (sorted_split _ _ _ _ Hs) as [Sl Sr].
  assert (Fp : forall x, In x (l1 ++ p :: l2) -> val_ok (inf_val x)).
  { intros x Hx. now apply (proj1 (Forall_forall _ _) F) in Hx as [? _]. }
  assert (Hp : val_ok (inf_val p)) by (apply Fp, in_elt).
  unfold infsValSchCmp. split; intros C x Hx.
  - assert (Hx' : val_ok (inf_val x)).
    { apply Fp, in_or_app. right. now right. }
    apply Sr, infCmp_val_le in Hx.
    destruct (Z.eq_dec (valCmp (inf_val p) (inf_val x)) 0) as [E | E].
    + rewrite <- (ord_eq_r order_valCmp v _ _ Hv Hp Hx' E). lia.
    + assert (valCmp v (inf_val x) < 0); [| lia].
      apply (ord_trans _ _ order_valCmp v (inf_val p)); auto. lia.
  - assert (Hx' : val_ok (inf_val x)).
    { apply Fp, in_or_app. now left. }
    apply Sl, infCmp_val_le in Hx.
    destruct (Z.eq_dec (valCmp (inf_val x) (inf_val p)) 0) as [E | E].
    + rewrite (ord_eq_r order_valCmp v _ _ Hv Hx' Hp E). lia.
    + assert (valCmp v (inf_val x) > 0); [| lia].
      assert (valCmp (inf_val p) v < 0)
        by (rewrite (ord_antisym _ _ order_valCmp v) by assumption; lia).
      assert (valCmp (inf_val x) v < 0).
      { apply (ord_trans _ _ order_valCmp _ (inf_val p)); auto. lia. }
      rewrite (ord_antisym _ _ order_valCmp (inf_val x)) by assumption. lia.
Qed.

(** The search by conclusion succeeds exactly when some member concludes
    the key. *)
Lemma bsearch_conclusion (infs : infs_t) (v : val_t) :
  sorted infCmp infs -> Forall inf_ok infs -> val_ok v ->
  match bsearch infsValSchCmp v infs with
  | Some e => In e infs /\ inf_val e = v
  | None => forall a, In a infs -> inf_val a <> v
  end.
Proof.
  intros Hs F Hv.
  destruct (bsearch infsValSchCmp v infs) as [e |] eqn:B.
  - apply bsearch_some in B as [He E]. split; [assumption |].
    symmetry. apply valCmp_eq; auto.
    now apply (proj1 (Forall_forall _ _) F) in He as [? _].
  - intros a Ha E.
    apply (bsearch_key _ _ _ (infs_key_sorted infs v Hs F Hv) B a Ha).
    unfold infsValSchCmp. rewrite E. apply valCmp_refl.
Qed.

(** ** Minus and Strip *)

Lemma infsMnsInfs_cons a t1 b t2 :
  infsMnsInfs (a :: t1) (b :: t2)
  = if infCmp a b <? 0 then a :: infsMnsInfs t1 (b :: t2)
    else if infCmp a b >? 0 then infsMnsInfs (a :: t1) t2
    else infsMnsInfs t1 t2.
Proof. reflexivity. Qed.

Lemma infsMnsInfs_nil_r l : infsMnsInfs l [] = l.
Proof. destruct l; reflexivity. Qed.

Lemma sorted_inv {A : Type} (cmp : A -> A -> Z) a l :
  sorted cmp (a :: l) -> sorted cmp l /\ forall x, In x l -> cmp a x < 0.
Proof.
  intros H. inversion H as [| ? ? S F]; subst. split; [assumption |].
  now apply Forall_forall.
Qed.

(** [infsMnsInfs] on sorted sequences is the set difference up to
    [infCmp], and its result is sorted. *)
Theorem infsMnsInfs_spec : forall infs1 infs2,
  sorted infCmp infs1 -> sorted infCmp infs2 ->
  Forall inf_ok infs1 -> Forall inf_ok infs2 ->
  sorted infCmp (infsMnsInfs infs1 infs2)
  /\ forall x, In x (infsMnsInfs infs1 infs2) <->
       In x infs1 /\ forall y, In y infs2 -> infCmp x y <> 0.
Proof.
  pose proof order_infCmp as Oi.
  intros l1. induction l1 as [| a t1 IH1].
  - intros l2 _ _ _ _. destruct l2; cbn; (split; [constructor |]);
      intros x; tauto.
  - intros l2. induction l2 as [| b t2 IH2]; intros S1 S2 F1 F2.
    + rewrite infsMnsInfs_nil_r. split; [assumption |].
      intros x. split; [intros H; split; [assumption | intros y []] | tauto].
    + rewrite infsMnsInfs_cons.
      destruct (sorted_inv _ _ _ S1) as [S1' A1].
      destruct (sorted_inv _ _ _ S2) as [S2' A2].
      inversion F1 as [| ? ? Ha F1']; subst.
      inversion F2 as [| ? ? Hb F2']; subst.
      assert (K1 : forall x, In x t1 -> inf_ok x)
        by now apply Forall_forall.
      assert (K2 : forall x, In x t2 -> inf_ok x)
        by now apply Forall_forall.
      destruct (Z.ltb_spec (infCmp a b) 0) as [C | C].
      * destruct (IH1 (b :: t2) S1' S2 F1' F2) as [Sr M]. split.
        -- constructor; [assumption |]. apply Forall_forall.
           intros x Hx. apply M in Hx as [Hx _]. auto.
        -- intros x. cbn [In]. rewrite M. split.
           ++ intros [<- | [Hx N]]; [| auto]. split; [now left |].
              intros y [<- | Hy]; [lia |].
              assert (infCmp a y < 0); [| lia].
              apply (ord_trans _ _ Oi a b y); auto.
           ++ intros [[<- | Hx] N]; auto.
      * destruct (Z.gtb_spec (infCmp a b) 0) as [C' | C'].
        -- destruct (IH2 S1 S2' F1 F2') as [Sr M]. split; [assumption |].
           intros x. rewrite M. split.
           ++ intros [Hx N]. split; [assumption |].
              intros y [<- | Hy]; [| auto].
              assert (Hox : inf_ok x) by (destruct Hx as [<- | Hx]; auto).
              assert (infCmp b x < 0); [
                | rewrite (ord_antisym _ _ Oi b x) by assumption; lia].
              assert (Hba : infCmp b a < 0)
                by (rewrite (ord_antisym _ _ Oi a b) by assumption; lia).
              destruct Hx as [<- | Hx]; [assumption |].
              apply (ord_trans _ _ Oi b a x); auto.
           ++ intros [Hx N]. split; [assumption |].
              intros y Hy. apply N. now right.
        -- assert (E : infCmp a b = 0) by lia.
           destruct (IH1 t2 S1' S2' F1' F2') as [Sr M].
           split; [assumption |].
           intros x. rewrite M. split.
           ++ intros [Hx N]. split; [now right |].
              intros y [<- | Hy]; [| auto].
              rewrite (ord_antisym _ _ Oi b x) by auto.
              rewrite <- (ord_eq_l _ _ Oi a b x) by auto.
              specialize (A1 x Hx). lia.
           ++ intros [[<- | Hx] N].
              ** exfalso. apply (N b); [now left | assumption].
              ** split; [assumption |]. intros y Hy. apply N. now right.
Qed.

Lemma infsMnsInfs_spec_witness :
  sorted infCmp (infsMnsInfs infsU [infU4])
  /\ forall x, In x (infsMnsInfs infsU [infU4]) <->
       In x infsU /\ forall y, In y [infU4] -> infCmp x y <> 0.
Proof. apply infsMnsInfs_spec; repeat constructor. Defined.

(** The result of [infsMnsInfs] is a part of its first argument, whatever
    the order of the arguments. *)
Lemma infsMnsInfs_In : forall infs1 infs2 x,
  In x (infsMnsInfs infs1 infs2) -> In x infs1.
Proof.
  intros l1. induction l1 as [| a t1 IH1]; [intros [| ? ?] x [] |].
  intros l2. induction l2 as [| b t2 IH2]; intros x.
  - now rewrite infsMnsInfs_nil_r.
  - rewrite infsMnsInfs_cons.
    destruct (infCmp a b <? 0).
    + intros [<- | H]; [now left | right; eauto].
    + destruct (infCmp a b >? 0); [apply IH2 |].
      intros H. right. eauto.
Qed.

(** [infsSrpInfs] keeps the members of [infs1] whose conclusion no member
    of [infs2] concludes and none of whose conditions is contradicted by a
    conclusion of [infs2] (same Name, another Value). *)
Theorem infsSrpInfs_spec (infs1 infs2 : infs_t) (x : inf_t) :
  sorted infCmp infs2 -> Forall inf_ok infs2 -> Forall inf_ok infs1 ->
  (In x (infsSrpInfs infs1 infs2) <->
   In x infs1
   /\ (forall b, In b infs2 -> inf_val b <> inf_val x)
   /\ (forall c b, In c (inf_vals x) -> In b infs2 ->
       val_nam c = val_nam (inf_val b) -> c = inf_val b)).
Proof.
  intros S2 F2 F1. unfold infsSrpInfs. rewrite filter_In.
  split; intros [Hx H]; (split; [assumption |]).
  - assert (Hv : val_ok (inf_val x))
      by now apply (proj1 (Forall_forall _ _) F1) in Hx as [? _].
    pose proof (bsearch_conclusion infs2 (inf_val x) S2 F2 Hv) as B.
    destruct (bsearch infsValSchCmp (inf_val x) infs2); [discriminate |].
    split; [assumption |].
    intros c b Hc Hb En.
    rewrite forallb_forall in H. specialize (H c Hc).
    apply negb_true_iff in H.
    destruct (val_eqb c (inf_val b)) eqn:E; [now apply val_eqb_eq |].
    exfalso. enough (true = false) by discriminate. rewrite <- H.
    symmetry. apply existsb_exists. exists b. split; [assumption |].
    rewrite E. cbn. unfold nam_eqb, sym_eqb. rewrite En.
    apply String.eqb_refl.
  - destruct H as [N C].
    assert (Hv : val_ok (inf_val x))
      by now apply (proj1 (Forall_forall _ _) F1) in Hx as [? _].
    destruct (bsearch infsValSchCmp (inf_val x) infs2) as [e |] eqn:B.
    + apply bsearch_some in B as [He E]. exfalso. apply (N e He).
      symmetry. apply valCmp_eq; auto.
      now apply (proj1 (Forall_forall _ _) F2) in He as [? _].
    + apply forallb_forall. intros c Hc. apply negb_true_iff.
      destruct (existsb _ infs2) eqn:X; [| reflexivity].
      apply existsb_exists in X as (b & Hb & Y).
      apply andb_true_iff in Y as [Y1 Y2].
      apply negb_true_iff in Y1.
      unfold nam_eqb, sym_eqb in Y2. apply String.eqb_eq in Y2.
      rewrite (C c b Hc Hb Y2), val_eqb_refl in Y1. discriminate.
Qed.

Lemma infsSrpInfs_spec_witness :
  In infU4 (infsSrpInfs infsU infs1) <->
  In infU4 infsU
  /\ (forall b, In b infs1 -> inf_val b <> inf_val infU4)
  /\ (forall c b, In c (inf_vals infU4) -> In b infs1 ->
      val_nam c = val_nam (inf_val b) -> c = inf_val b).
Proof. apply infsSrpInfs_spec; repeat constructor. Defined.

(** ** Resolution *)

Lemma infsResVal_merge_cons vals infs val a t1 b t2 :
  infsResVal_merge vals infs val (a :: t1) (b :: t2)
  = if infCmp a b <? 0 then infsResVal_merge vals infs val t1 (b :: t2)
    else if infCmp a b >? 0 then infsResVal_merge vals infs val (a :: t1) t2
    else if resolved vals infs val a
         then a :: infsResVal_merge vals infs val t1 t2
         else infsResVal_merge vals infs val t1 t2.
Proof. reflexivity. Qed.

Lemma infsResVal_merge_nil_r vals infs val l :
  infsResVal_merge vals infs val l [] = [].
Proof. destruct l; reflexivity. Qed.

Lemma infsResVal_merge_In vals infs val : forall l1 l2 x,
  In x (infsResVal_merge vals infs val l1 l2) ->
  In x l1 /\ resolved vals infs val x = true.
Proof.
  intros l1. induction l1 as [| a t1 IH1]; [intros [| ? ?] x [] |].
  intros l2. induction l2 as [| b t2 IH2]; intros x.
  - rewrite infsResVal_merge_nil_r. intros [].
  - rewrite infsResVal_merge_cons.
    destruct (infCmp a b <? 0).
    + intros H. apply IH1 in H as [? ?]. split; [now right | assumption].
    + destruct (infCmp a b >? 0); [apply IH2 |].
      destruct (resolved vals infs val a) eqn:R.
      * intros [<- | H]; [split; [now left | assumption] |].
        apply IH1 in H as [? ?]. split; [now right | assumption].
      * intros H. apply IH1 in H as [? ?]. split; [now right | assumption].
Qed.

Lemma infsResVal_merge_spec vals infs val : forall l1 l2,
  sorted infCmp l1 -> sorted infCmp l2 ->
  Forall inf_ok l1 -> Forall inf_ok l2 ->
  forall x, In x (infsResVal_merge vals infs val l1 l2) <->
    In x l1 /\ (exists y, In y l2 /\ infCmp x y = 0)
    /\ resolved vals infs val x = true.
Proof.
  pose proof order_infCmp as Oi.
  intros l1. induction l1 as [| a t1 IH1].
  - intros l2 _ _ _ _ x. destruct l2; cbn; tauto.
  - intros l2. induction l2 as [| b t2 IH2]; intros S1 S2 F1 F2 x.
    + rewrite infsResVal_merge_nil_r. split; [intros [] |].
      intros (_ & (y & [] & _) & _).
    + rewrite infsResVal_merge_cons.
      destruct (sorted_inv _ _ _ S1) as [S1' A1].
      destruct (sorted_inv _ _ _ S2) as [S2' A2].
      inversion F1 as [| ? ? Ha F1']; subst.
      inversion F2 as [| ? ? Hb F2']; subst.
      assert (K1 : forall x, In x t1 -> inf_ok x)
        by now apply Forall_forall.
      assert (K2 : forall x, In x t2 -> inf_ok x)
        by now apply Forall_forall.
      destruct (Z.ltb_spec (infCmp a b) 0) as [C | C].
      * rewrite (IH1 (b :: t2) S1' S2 F1' F2). split.
        -- intros (Hx & E & R). split; [now right | auto].
        -- intros ([<- | Hx] & (y & Hy & E) & R);
             [| split; [assumption |]; split; [now exists y | assumption]].
           exfalso. destruct Hy as [<- | Hy]; [lia |].
           assert (infCmp a y < 0); [| lia].
           apply (ord_trans _ _ Oi a b y); auto.
      * destruct (Z.gtb_spec (infCmp a b) 0) as [C' | C'].
        -- rewrite (IH2 S1 S2' F1 F2'). split.
           ++ intros (Hx & (y & Hy & E) & R).
              split; [assumption |]. split; [| assumption].
              exists y. split; [now right | assumption].
           ++ intros (Hx & (y & Hy & E) & R).
              split; [assumption |]. split; [| assumption].
              destruct Hy as [<- | Hy]; [| now exists y].
              exfalso.
              assert (Hba : infCmp b a < 0)
                by (rewrite (ord_antisym _ _ Oi a b) by assumption; lia).
              destruct Hx as [<- | Hx]; [lia |].
              assert (infCmp b x < 0)
                by (apply (ord_trans _ _ Oi b a x); auto).
              rewrite (ord_antisym _ _ Oi b x) in E by auto. lia.
        -- assert (E : infCmp a b = 0) by lia.
           assert (T : In x (infsResVal_merge vals infs val t1 t2) ->
                       In x (a :: t1)
                       /\ (exists y, In y (b :: t2) /\ infCmp x y = 0)
                       /\ resolved vals infs val x = true).
           { intros H.
             apply (IH1 t2 S1' S2' F1' F2') in H
               as (Hx & (y & Hy & Ey) & R).
             split; [now right |]. split; [| assumption].
             exists y. split; [now right | assumption]. }
           assert (U : In x t1 ->
                       (exists y, In y (b :: t2) /\ infCmp x y = 0) ->
                       resolved vals infs val x = true ->
                       In x (infsResVal_merge vals infs val t1 t2)).
           { intros Hx (y & Hy & Ey) R.
             apply (IH1 t2 S1' S2' F1' F2').
             split; [assumption |]. split; [| assumption].
             destruct Hy as [<- | Hy]; [| now exists y].
             exfalso. specialize (A1 x Hx).
             rewrite (ord_antisym _ _ Oi b x) in Ey by auto.
             rewrite <- (ord_eq_l _ _ Oi a b x) in Ey by auto. lia. }
           destruct (resolved vals infs val a) eqn:R.
           ++ split.
              ** intros [<- | H]; [| auto].
                 split; [now left |]. split; [| assumption].
                 exists b. split; [now left | assumption].
              ** intros ([<- | Hx] & Ex & Rx); [now left | right; auto].
           ++ split; [assumption |].
              intros ([<- | Hx] & Ex & Rx); [congruence | auto].
Qed.

(** What [resolved] tests. *)
Lemma resolved_spec (vals : vals_t) (infs : infs_t) (val : val_t)
    (x : inf_t) :
  sorted valCmp vals -> Forall val_ok vals ->
  Forall inf_ok infs -> inf_ok x ->
  (resolved vals infs val x = true <->
   forall c, In c (inf_vals x) -> c <> val ->
     ~ In c vals
     /\ forall m k, In m infs -> inf_val m = c -> In k (inf_vals m) ->
          ~ In k vals).
Proof.
  intros Sv Fv Fi [_ Fx]. unfold resolved. rewrite forallb_forall.
  assert (IV : forall c, val_ok c -> inVals c vals = true <-> In c vals).
  { intros c Hc. rewrite (inVals_In c vals Sv Fv Hc).
    apply existsb_val_eqb. }
  split; intros H c Hc.
  - intros Nc. specialize (H c Hc).
    assert (Oc : val_ok c) by now apply (proj1 (Forall_forall _ _) Fx).
    destruct (val_eqb c val) eqn:E;
      [apply val_eqb_eq in E; contradiction |].
    destruct (inVals c vals) eqn:I; [discriminate |].
    split.
    + intros Hin. apply IV in Hin; [congruence | assumption].
    + intros m k Hm Em Hk Hin.
      apply negb_true_iff in H.
      enough (true = false) by discriminate. rewrite <- H. symmetry.
      apply existsb_exists. exists m. split; [assumption |].
      rewrite Em, val_eqb_refl. cbn [andb].
      apply existsb_exists. exists k. split; [assumption |].
      apply IV; [| assumption].
      apply (proj1 (Forall_forall _ _) Fi) in Hm as [_ Fm].
      now apply (proj1 (Forall_forall _ _) Fm).
  - assert (Oc : val_ok c) by now apply (proj1 (Forall_forall _ _) Fx).
    destruct (val_eqb c val) eqn:E; [reflexivity |].
    assert (Nc : c <> val).
    { intros ->. now rewrite val_eqb_refl in E. }
    destruct (H c Hc Nc) as [N1 N2].
    destruct (inVals c vals) eqn:I; [apply IV in I; tauto |].
    apply negb_true_iff.
    destruct (existsb _ infs) eqn:X; [| reflexivity].
    exfalso. apply existsb_exists in X as (m & Hm & Y).
    apply andb_true_iff in Y as [Y1 Y2].
    apply val_eqb_eq in Y1.
    apply existsb_exists in Y2 as (k & Hk & Y2).
    apply (N2 m k Hm (eq_sym Y1) Hk).
    apply IV; [| assumption].
    apply (proj1 (Forall_forall _ _) Fi) in Hm as [_ Fm].
    now apply (proj1 (Forall_forall _ _) Fm).
Qed.

(** [infsResVal] returns the members of [infs] that are among the infs of
    [val] and in which every condition other than [val] is neither in
    [vals] nor concluded by a member of [infs] that has a condition in
    [vals]. *)
Theorem infsResVal_spec (cx : ctx_t) (vals : vals_t) (infs : infs_t)
    (val : val_t) (x : inf_t) :
  sorted valCmp vals -> Forall val_ok vals ->
  sorted infCmp infs -> Forall inf_ok infs ->
  sorted infCmp (valInfsD cx val) -> Forall inf_ok (valInfsD cx val) ->
  (In x (infsResVal cx vals infs val) <->
   In x infs
   /\ (exists y, In y (valInfsD cx val) /\ infCmp x y = 0)
   /\ forall c, In c (inf_vals x) -> c <> val ->
        ~ In c vals
        /\ forall m k, In m infs -> inf_val m = c -> In k (inf_vals m) ->
             ~ In k vals).
Proof.
  intros Sv Fv Si Fi Sd Fd. unfold infsResVal.
  rewrite (infsResVal_merge_spec vals infs val infs _ Si Sd Fi Fd).
  split; intros (Hx & Hy & R); (split; [assumption |]);
    (split; [assumption |]);
    apply (resolved_spec vals infs val x Sv Fv Fi); auto;
    now apply (proj1 (Forall_forall _ _) Fi).
Qed.

Lemma infsResVal_spec_witness :
  In (hd infS infs1) (infsResVal cx1 vals1 infs1 vS) <->
  In (hd infS infs1) infs1
  /\ (exists y, In y (valInfsD cx1 vS) /\ infCmp (hd infS infs1) y = 0)
  /\ forall c, In c (inf_vals (hd infS infs1)) -> c <> vS ->
       ~ In c vals1
       /\ forall m k, In m infs1 -> inf_val m = c -> In k (inf_vals m) ->
            ~ In k vals1.
Proof. apply infsResVal_spec; repeat constructor. Defined.

(** No resolution step invents an inference: the results of [infsResVal]
    and [infsResValNam] are taken from [infs]. *)
Lemma infsResVal_In cx vals infs val x :
  In x (infsResVal cx vals infs val) -> In x infs.
Proof. intros H. now apply infsResVal_merge_In in H. Qed.

Theorem infsResValNam_In (cx : ctx_t) (vals : vals_t) (infs : infs_t)
    (val : val_t) (x : inf_t) :
  In x (infsResValNam cx vals infs val) -> In x infs.
Proof.
  unfold infsResValNam.
  set (f := fun (r : option infs_t) s =>
              if val_eqb s val then r
              else if negb (inVals s vals) then r
              else Some (infsResVal cx vals
                           (match r with Some r' => r' | None => infs end)
                           s)).
  assert (G : forall l r,
             (forall r', r = Some r' -> incl r' infs) ->
             forall r', fold_left f l r = Some r' -> incl r' infs).
  { induction l as [| s l IH]; intros r Hr; cbn [fold_left]; [exact Hr |].
    apply IH. unfold f.
    destruct (val_eqb s val); [exact Hr |].
    destruct (negb (inVals s vals)); [exact Hr |].
    intros r' [= <-] y Hy. apply infsResVal_In in Hy.
    destruct r as [r0 |]; [| assumption].
    now apply (Hr r0 eq_refl). }
  destruct (fold_left f (namVals cx val) None) as [r' |] eqn:E;
    [| intros []].
  intros Hx.
  assert (I : incl r' infs)
    by (apply (G (namVals cx val) None); [discriminate | exact E]).
  now apply I.
Qed.

Lemma infsResValNam_In_witness :
  In (nth 1 infs1 infS) (infsResValNam cx1 vals1 infs1 vS)
  /\ In (nth 1 infs1 infS) infs1.
Proof.
  assert (H : In (nth 1 infs1 infS) (infsResValNam cx1 vals1 infs1 vS))
    by (vm_compute; left; reflexivity).
  split; [exact H |].
  exact (infsResValNam_In cx1 vals1 infs1 vS (nth 1 infs1 infS) H).
Defined.

(** ** The frontiers of the children *)

Lemma filter_length_lt {A : Type} (f : A -> bool) (l : list A) x :
  In x l -> f x = false -> (length (filter f l) < length l)%nat.
Proof.
  induction l as [| a l IH]; [contradiction |].
  intros [-> | H] E; cbn [filter length].
  - rewrite E. pose proof (filter_length_le f l). lia.
  - specialize (IH H E). destruct (f a); cbn [length]; lia.
Qed.

Lemma nam_eqb_refl n : nam_eqb n n = true.
Proof. apply String.eqb_refl. Qed.

Lemma valsSubValNam_lt vals t infs :
  In t vals -> (length (valsSubValNam vals t infs) < length vals)%nat.
Proof.
  intros H. unfold valsSubValNam. apply (filter_length_lt _ _ t H).
  now rewrite nam_eqb_refl.
Qed.

Lemma valsSubVal_lt vals t infs :
  In t vals -> (length (valsSubVal vals t infs) < length vals)%nat.
Proof.
  intros H. unfold valsSubVal.
  set (r := filter _ vals).
  assert (L : (length r < length vals)%nat).
  { apply (filter_length_lt _ _ t H). now rewrite val_eqb_refl. }
  destruct (_ =? 1)%nat; [| assumption].
  pose proof (filter_length_le
                (fun v => negb (nam_eqb (val_nam v) (val_nam t))) r).
  lia.
Qed.

(** Both child frontiers of a candidate [t] taken from [vals] are strictly
    shorter than [vals]: the one for "test true" holds no Value of the
    Name of [t], the one for "test false" does not hold [t]. *)
Theorem valsSub_shorter (vals : vals_t) (t : val_t) (infs : infs_t) :
  In t vals ->
  (length (valsSubValNam vals t infs) < length vals)%nat
  /\ (length (valsSubVal vals t infs) < length vals)%nat
  /\ (forall v, In v (valsSubValNam vals t infs) -> val_nam v <> val_nam t)
  /\ ~ In t (valsSubVal vals t infs).
Proof.
  intros H. split; [now apply valsSubValNam_lt |].
  split; [now apply valsSubVal_lt |]. split.
  - intros v Hv E. unfold valsSubValNam in Hv.
    apply filter_In in Hv as [_ Hv]. rewrite E, nam_eqb_refl in Hv.
    discriminate.
  - unfold valsSubVal. set (r := filter _ vals).
    assert (N : ~ In t r).
    { intros Hr. apply filter_In in Hr as [_ Hr].
      rewrite val_eqb_refl in Hr. discriminate. }
    destruct (_ =? 1)%nat; [| assumption].
    intros Hr. apply filter_In in Hr as [Hr _]. contradiction.
Qed.

Lemma valsSub_shorter_witness :
  (length (valsSubValNam valsS vS infsS) < length valsS)%nat
  /\ (length (valsSubVal valsS vS infsS) < length valsS)%nat
  /\ (forall v, In v (valsSubValNam valsS vS infsS) ->
      val_nam v <> val_nam vS)
  /\ ~ In vS (valsSubVal valsS vS infsS).
Proof. apply valsSub_shorter. vm_compute. tauto. Defined.

(** ** The recursion of [nodBld] *)

Section Recursion.
Variable cx : ctx_t.
Variable tf : nat.
Variable q : bool.
Variable vals : vals_t.

Lemma cand_ext rec1 rec2 st infs bd t :
  agree_below vals rec1 rec2 -> In t vals ->
  cand cx tf rec1 st vals infs bd t = cand cx tf rec2 st vals infs bd t.
Proof.
  intros A Ht. unfold cand.
  destruct (inflate tf infs (infsResVal cx vals infs t)) as [iV |];
    [| reflexivity].
  destruct (inflate tf infs (infsResValNam cx vals infs t)) as [iO |];
    [| reflexivity].
  destruct (mnsSiblings cx infs t) as [nV |]; [| reflexivity].
  set (sV := strip nV iV).
  set (sO := strip (infsMnsInfs infs (valInfsD cx t)) iO).
  pose proof (valsSubValNam_lt vals t sV Ht) as LV.
  pose proof (valsSubVal_lt vals t sO Ht) as LO.
  destruct (isEmpty sV), (isEmpty sO); cbn [orb];
    repeat match goal with
           | |- context [rec1 ?s ?v ?i ?b] =>
               rewrite (A s v i b) by assumption
           end;
    try reflexivity;
    repeat (break_match; try reflexivity;
            repeat match goal with
                   | |- context [rec1 ?s ?v ?i ?b] =>
                       rewrite (A s v i b) by assumption
                   end).
Qed.

Lemma step_ext rec1 rec2 infs s t :
  agree_below vals rec1 rec2 -> In t vals ->
  nodBld_step cx tf q rec1 vals infs s t
  = nodBld_step cx tf q rec2 vals infs s t.
Proof.
  intros A Ht. unfold nodBld_step.
  now rewrite (cand_ext rec1 rec2 _ _ _ _ A Ht).
Qed.

Lemma iter_ext rec1 rec2 infs vs :
  agree_below vals rec1 rec2 -> incl vs vals ->
  forall s,
    nodBld_iter cx tf q rec1 vals infs s vs
    = nodBld_iter cx tf q rec2 vals infs s vs.
Proof.
  intros A. induction vs as [| t vs IH]; intros I s; [reflexivity |].
  cbn [nodBld_iter].
  rewrite (step_ext rec1 rec2 infs s t A) by (apply I; now left).
  destruct (nodBld_step cx tf q rec2 vals infs s t); try reflexivity.
  apply IH. intros x Hx. apply I. now right.
Qed.
End Recursion.

Section Termination.
Variable cx : ctx_t.
Variable sortv : (val_t -> val_t -> Z) -> vals_t -> vals_t.
Variable tf : nat.
Variable q : bool.
(** [qsort] rearranges its array. *)
Hypothesis sortv_incl : forall c l, incl (sortv c l) l.

(** The recursion of [nodBld] is bounded by the length of the frontier: a
    recursion budget above that length is never the reason for the answer,
    any two such budgets give the same outcome. *)
Theorem nodBld_fuel : forall fuel1 fuel2 st vals infs bd,
  (length vals < fuel1)%nat -> (length vals < fuel2)%nat ->
  nodBld cx sortv tf q fuel1 st vals infs bd
  = nodBld cx sortv tf q fuel2 st vals infs bd.
Proof.
  induction fuel1 as [| f1 IH]; intros fuel2 st vals infs bd L1 L2;
    [lia |].
  destruct fuel2 as [| f2]; [lia |].
  cbn [nodBld]. unfold nodBld_body.
  destruct (bldsFnd (st_blds st) vals infs); [reflexivity |].
  unfold nodBld_fresh.
  rewrite (iter_ext cx tf q vals (nodBld cx sortv tf q f1)
             (nodBld cx sortv tf q f2)); [reflexivity | | apply sortv_incl].
  intros st' v i bd' Lv. apply IH; lia.
Qed.
End Termination.

Lemma qsort_insert_In {A : Type} (cmp : A -> A -> Z) x l y :
  In y (qsort_insert cmp x l) <-> y = x \/ In y l.
Proof.
  induction l as [| a l IH]; cbn [qsort_insert].
  - cbn. intuition congruence.
  - destruct (cmp x a <=? 0); cbn [In]; [intuition congruence |].
    rewrite IH. intuition congruence.
Qed.

Lemma qsort_incl {A : Type} (cmp : A -> A -> Z) (l : list A) :
  incl (qsort cmp l) l.
Proof.
  induction l as [| a l IH]; intros y; cbn [qsort fold_right];
    [intros [] |].
  intros H. apply qsort_insert_In in H as [-> | H]; [now left |].
  right. now apply IH.
Qed.

Lemma nodBld_fuel_witness :
  nodBld cx1 (@qsort val_t) 50 false 3 (mkBst [] 0) vals1 infs1 2%nat
  = nodBld cx1 (@qsort val_t) 50 false 50 (mkBst [] 0) vals1 infs1 2%nat.
Proof.
  apply nodBld_fuel.
  - intros c l. apply qsort_incl.
  - cbn. lia.
  - cbn. lia.
Defined.

(** ** Depth of the result *)

Lemma seqCmp_length {A : Type} (cmp : A -> A -> Z) : forall l1 l2,
  seqCmp cmp l1 l2 = 0 -> length l1 = length l2.
Proof.
  induction l1 as [| a l1 IH]; intros [| b l2]; cbn [seqCmp length];
    try discriminate; [reflexivity |].
  destruct (Z.eqb_spec (cmp a b) 0) as [E | E]; [| contradiction].
  intros H. f_equal. now apply IH.
Qed.

Lemma tests_finish infs n : (tests (finish infs n) <= tests n)%nat.
Proof.
  unfold finish. destruct n as [id [v |] iV iO nV nO d]; cbn; lia.
Qed.

Section Depth.
Variable cx : ctx_t.
Variable sortv : (val_t -> val_t -> Z) -> vals_t -> vals_t.
Variable tf : nat.
Variable q : bool.
Hypothesis sortv_incl : forall c l, incl (sortv c l) l.

(** No path of a tree built by [nodBld] holds more tests than the frontier
    holds values; the bound is kept for every entry of the store. *)
Theorem nodBld_depth : forall fuel st vals infs bd st' n,
  store_ok depth_ok st ->
  nodBld cx sortv tf q fuel st vals infs bd = Ret (st', n) ->
  store_ok depth_ok st' /\ (tests n <= length vals)%nat.
Proof.
  induction fuel as [| fuel IH]; intros st vals infs bd st' n Hst H;
    [discriminate |].
  cbn [nodBld] in H. unfold nodBld_body in H.
  destruct (bldsFnd (st_blds st) vals infs) as [b |] eqn:F.
  - injection H as <- <-. split; [assumption |].
    apply bldsFnd_some in F as (Hb & Ev & _).
    apply seqCmp_length in Ev. rewrite Ev. now apply Hst.
  - unfold nodBld_fresh in H.
    set (rec' := fun st v i bd =>
                   if (length v <? length vals)%nat
                   then nodBld cx sortv tf q fuel st v i bd else Fail).
    rewrite (iter_ext cx tf q vals (nodBld cx sortv tf q fuel) rec') in H;
      [| | apply sortv_incl].
    2: { intros s v i b L. unfold rec'.
         apply Nat.ltb_lt in L. now rewrite L. }
    destruct (nodBld_iter _ _ _ _ _ _ _ _) as [sF | |] eqn:E;
      try discriminate.
    injection H as <- <-.
    assert (G : store_ok depth_ok (l_st sF)
                /\ (tests (l_nod sF) <= length vals)%nat).
    { destruct (Nat.eq_dec (length vals) 0) as [Z0 | L1].
      - assert (N : sortv (valsInfsCmp cx) vals = []).
        { destruct (sortv (valsInfsCmp cx) vals) as [| x l] eqn:S;
            [reflexivity |].
          exfalso. apply length_zero_iff_nil in Z0.
          pose proof (sortv_incl (valsInfsCmp cx) vals x) as I.
          rewrite S, Z0 in I. apply I. now left. }
        rewrite N in E. cbn [nodBld_iter] in E. injection E as E.
        subst sF. cbn. split; [exact Hst | lia].
      - apply (iter_store cx tf q depth_ok
                 (fun c => (tests c < length vals)%nat)
                 (fun r => (tests r <= length vals)%nat)) in E; auto.
        + intros id t iV iO nodV nodO d _ HV HO. cbn [tests].
          destruct nodV as [v |], nodO as [o |];
            try specialize (HV _ eq_refl); try specialize (HO _ eq_refl);
            lia.
        + intros s v i b s' m Hs. unfold rec'.
          destruct (Nat.ltb_spec (length v) (length vals)) as [L | L];
            [| intros X; discriminate X].
          intros R. apply IH in R as [? ?]; [| assumption].
          split; [assumption | lia].
        + cbn. lia. }
    destruct G as [Gs Gt]. split.
    + intros b Hb. cbn [st_blds] in Hb.
      apply bldsAdd_In in Hb as [-> | Hb]; [| now apply Gs].
      unfold depth_ok. cbn [bld_nod bld_vals].
      pose proof (tests_finish infs (l_nod sF)). lia.
    + pose proof (tests_finish infs (l_nod sF)). lia.
Qed.
End Depth.

Lemma nodBld_depth_witness :
  exists st' n,
    nodBld cx1 (@qsort val_t) 50 false 50 (mkBst [] 0) vals1 infs1 2%nat
    = Ret (st', n)
    /\ store_ok depth_ok st' /\ (tests n <= length vals1)%nat.
Proof.
  eexists. eexists. split; [vm_compute; reflexivity |].
  apply (nodBld_depth cx1 (@qsort val_t) 50 false
           (fun c l => qsort_incl c l) 50 (mkBst [] 0) vals1 infs1 2%nat).
  - intros b [].
  - vm_compute; reflexivity.
Defined.

(** Every node [nodBld] returns, fresh or from the store, has the shape the
    emitter relies on: a node without test has no child and depth 0; the
    children of a node with a test bear tests, and its depth is one more
    than the deeper child's, or 0 without child. *)
Theorem nodBld_shape (cx : ctx_t)
    (sortv : (val_t -> val_t -> Z) -> vals_t -> vals_t) (tf : nat)
    (q : bool) (fuel : nat) (st : bst_t) (vals : vals_t) (infs : infs_t)
    (bd : nat) (st' : bst_t) (n : nod_t) :
  (forall b, In b (st_blds st) -> wf (bld_nod b)) ->
  nodBld cx sortv tf q fuel st vals infs bd = Ret (st', n) ->
  (forall b, In b (st_blds st') -> wf (bld_nod b)) /\ wf n.
Proof. apply nodBld_wf. Qed.

Lemma nodBld_shape_witness :
  exists st' n,
    nodBld cx1 (@qsort val_t) 50 true 50 (mkBst [] 0) vals1 infs1 2%nat
    = Ret (st', n)
    /\ (forall b, In b (st_blds st') -> wf (bld_nod b)) /\ wf n.
Proof.
  eexists. eexists. split; [vm_compute; reflexivity |].
  apply (nodBld_shape cx1 (@qsort val_t) 50 true 50 (mkBst [] 0) vals1
           infs1 2%nat).
  - intros b [].
  - vm_compute; reflexivity.
Defined.

(** ** The consistency check passes exactly on clash-free buckets *)

Lemma flat_map_nil {A B : Type} (f : A -> list B) (l : list A) :
  (forall x, In x l -> f x = []) -> flat_map f l = [].
Proof.
  induction l as [| a l IH]; intros H; cbn [flat_map]; [reflexivity |].
  rewrite (H a) by now left. apply IH. intros x Hx. apply H. now right.
Qed.

Lemma infsChk_list_nil (l : infs_t) :
  (forall l1 a l2 b l3, l = l1 ++ a :: l2 ++ b :: l3 -> clash a b = false) ->
  infsChk_list l = [].
Proof.
  induction l as [| a rest IH]; intros H; cbn [infsChk_list];
    [reflexivity |].
  rewrite IH.
  - rewrite app_nil_r. unfold infsChk_row. apply flat_map_nil.
    intros b Hb. apply in_split in Hb as (l2 & l3 & ->).
    specialize (H [] a l2 b l3 eq_refl). unfold clash in H.
    now rewrite H.
  - intros l1 x l2 y l3 E. apply (H (a :: l1) x l2 y l3). now rewrite E.
Qed.

Lemma infsChk_nil (i : option infs_t) :
  (forall bucket l1 a l2 b l3,
      i = Some bucket -> bucket = l1 ++ a :: l2 ++ b :: l3 ->
      clash a b = false) ->
  infsChk i = [].
Proof.
  destruct i as [l |]; [| reflexivity]. intros H. cbn [infsChk].
  apply infsChk_list_nil. intros l1 a l2 b l3 E.
  now apply (H l l1 a l2 b l3).
Qed.

Lemma nodChk_nil : forall nod, clash_free nod -> nodChk nod = [].
Proof.
  fix IH 1. intros [id val iV iO nodV nodO d] H. cbn [nodChk].
  set (n := Nod id val iV iO nodV nodO d) in *.
  assert (Hn : In n (subnodes n)) by (cbn; now left).
  rewrite (infsChk_nil iV), (infsChk_nil iO).
  - cbn [app].
    assert (EV : match nodV with Some c => nodChk c | None => [] end = []).
    { destruct nodV as [c |]; [| reflexivity]. apply IH.
      intros m bucket l1 a l2 b l3 Hm. apply H. cbn [subnodes n].
      right. apply in_or_app. now left. }
    assert (EO : match nodO with Some c => nodChk c | None => [] end = []).
    { destruct nodO as [c |]; [| reflexivity]. apply IH.
      intros m bucket l1 a l2 b l3 Hm. apply H. cbn [subnodes n].
      right. apply in_or_app. now right. }
    now rewrite EV, EO.
  - intros bucket l1 a l2 b l3 E. apply (H n); [assumption |]. now right.
  - intros bucket l1 a l2 b l3 E. apply (H n); [assumption |]. now left.
Qed.

(** [nodChk] writes no diagnostic exactly when no bucket of the tree holds
    two inferences that conclude one Name with two Values. *)
Theorem nodChk_clean (nod : nod_t) : nodChk nod = [] <-> clash_free nod.
Proof.
  split; [| apply nodChk_nil].
  intros E m bucket l1 a l2 b l3 Hm Hb ->.
  destruct (clash a b) eqn:C; [| reflexivity]. exfalso.
  assert (X : In (unresolvable a b) (nodChk nod)); [| now rewrite E in X].
  apply (nodChk_bucket nod m _ Hm).
  pose proof (infsChk_list_In l1 a l2 b l3 C) as I.
  destruct Hb as [-> | ->]; [now left | now right].
Qed.

(** ** The [O] lines *)








(** ** Independent values *)

Section IndependentValues.
Variable infs : infs_t.
Hypothesis infs_sorted : sorted infCmp infs.
Hypothesis infs_ok : Forall inf_ok infs.

Let stepI (acc : option vals_t) (v : val_t) : option vals_t :=
  match acc with
  | None => None
  | Some r =>
      match bsearch infsValSchCmp v infs with
      | Some _ => Some r
      | None =>
          match valsAdd true r v with
          | (Some e, r') => if val_eqb e v then Some r' else None
          | (None, _) => None
          end
      end
  end.

Lemma stepI_none l : fold_left stepI l None = None.
Proof. induction l as [| v l IH]; [reflexivity | exact IH]. Qed.

Lemma namsInd_fold_sound (l : vals_t) :
  Forall val_ok l ->
  forall r r',
    sorted valCmp r -> Forall val_ok r ->
    fold_left stepI l (Some r) = Some r' ->
    sorted valCmp r' /\ Forall val_ok r'
    /\ forall x, In x r' ->
         In x r \/ (In x l /\ forall a, In a infs -> inf_val a <> x).
Proof.
  induction 1 as [| v l Hv Fl IH]; intros r r' Sr Fr; cbn [fold_left].
  - intros [= <-]. auto.
  - unfold stepI at 2.
    pose proof (bsearch_conclusion infs v infs_sorted infs_ok Hv) as B.
    destruct (bsearch infsValSchCmp v infs) as [p |].
    + intros E. destruct (IH r r' Sr Fr E) as (S' & F' & I').
      split; [assumption |]. split; [assumption |].
      intros x Hx. destruct (I' x Hx) as [? | [? ?]]; [now left |].
      right. split; [now right | assumption].
    + pose proof (seqAdd_sorted order_valCmp true r v Sr Fr Hv) as Sa.
      unfold valsAdd in *.
      destruct (seqAdd valCmp true r v) as [[e |] r1] eqn:A;
        [| now rewrite stepI_none].
      destruct (val_eqb e v); [| now rewrite stepI_none].
      cbn [snd] in Sa.
      assert (I1 : forall x, In x r1 -> x = v \/ In x r).
      { intros x Hx. apply (seqAdd_In valCmp r v). now rewrite A. }
      assert (F1 : Forall val_ok r1).
      { apply Forall_forall. intros x Hx.
        destruct (I1 x Hx) as [-> | Hr]; [assumption |].
        now apply (proj1 (Forall_forall _ _) Fr). }
      intros E. destruct (IH r1 r' Sa F1 E) as (S' & F' & I').
      split; [assumption |]. split; [assumption |].
      intros x Hx. destruct (I' x Hx) as [H1 | [? ?]].
      * destruct (I1 x H1) as [-> | ?]; [| now left].
        right. split; [now left | assumption].
      * right. split; [now right | assumption].
Qed.

(** The values [namsInd] returns are sorted, each is a value of a declared
    name, and none is the conclusion of an inference. *)
Theorem namsInd_sound (nams : list nam_t) vals tbl :
  Forall (fun m => Forall val_ok (nam_vals m)) nams ->
  namsInd nams infs = Some (vals, tbl) ->
  sorted valCmp vals
  /\ map fst tbl = vals
  /\ forall v, In v vals ->
       (exists m, In m nams /\ In v (nam_vals m))
       /\ forall a, In a infs -> inf_val a <> v.
Proof.
  intros Fn. unfold namsInd.
  change (namsInd_vals nams infs)
    with (fold_left (fun acc m => fold_left stepI (nam_vals m) acc)
            nams (Some [])).
  rewrite (fold_left_flat_map stepI nam_vals nams (Some [])).
  destruct (fold_left stepI (flat_map nam_vals nams) (Some [])) as [r |]
    eqn:E; [| discriminate].
  intros [= <- <-].
  assert (Fall : Forall val_ok (flat_map nam_vals nams)).
  { apply Forall_flat_map. exact Fn. }
  destruct (namsInd_fold_sound _ Fall [] r (SSorted_nil _) (Forall_nil _) E)
    as (S' & F' & I').
  split; [assumption |]. split.
  - rewrite map_map. cbn [fst]. apply map_id.
  - intros v Hv. destruct (I' v Hv) as [[] | [Hin N]].
    split; [| assumption]. apply in_flat_map in Hin as (m & Hm & Hvm).
    now exists m.
Qed.
End IndependentValues.

Lemma namsInd_sound_witness :
  exists vals tbl,
    namsInd namsC infsC = Some (vals, tbl)
    /\ sorted valCmp vals
    /\ map fst tbl = vals
    /\ forall v, In v vals ->
         (exists m, In m namsC /\ In v (nam_vals m))
         /\ forall a, In a infsC -> inf_val a <> v.
Proof.
  eexists. eexists. split; [vm_compute; reflexivity |].
  apply (namsInd_sound infsC); try (repeat constructor).
Defined.

(** ** The checks of [main] before the build *)

Lemma flat_map_nil_inv {A B : Type} (f : A -> list B) (l : list A) :
  flat_map f l = [] -> forall x, In x l -> f x = [].
Proof.
  induction l as [| a l IH]; cbn [flat_map]; [intros _ x [] |].
  intros E x [<- | H].
  - now apply app_eq_nil in E.
  - apply IH; [now apply app_eq_nil in E | assumption].
Qed.

Lemma isEmpty_nil {A : Type} (l : list A) : isEmpty l = true <-> l = [].
Proof. destruct l; cbn; split; congruence. Qed.

Section Checks.
Variable sortv : (val_t -> val_t -> Z) -> vals_t -> vals_t.
Variable tf fuel : nat.
Variable q : bool.

(** A table with a Name of fewer than two values, or with an inference
    without condition, is refused before anything is printed, and every
    such Name and inference is reported. *)
Theorem main_input_errors nams infs :
  (exists m, In m nams /\ (length (nam_vals m) < 2)%nat)
  \/ (exists a, In a infs /\ inf_vals a = []) ->
  exists e,
    main sortv tf fuel q nams infs = Some (mkRun [] e)
    /\ (forall m, In m nams -> (length (nam_vals m) < 2)%nat ->
        In (DFewValues (nam_sym m)) e)
    /\ (forall a, In a infs -> inf_vals a = [] ->
        In (DNoDependencies (inf_fil a) (inf_row a)) e).
Proof.
  intros H. unfold main, main_pre.
  set (e1 := flat_map _ nams). set (e2 := flat_map _ infs).
  assert (I1 : forall m, In m nams -> (length (nam_vals m) < 2)%nat ->
                 In (DFewValues (nam_sym m)) e1).
  { intros m Hm L. apply in_flat_map. exists m. split; [assumption |].
    apply Nat.ltb_lt in L. rewrite L. now left. }
  assert (I2 : forall a, In a infs -> inf_vals a = [] ->
                 In (DNoDependencies (inf_fil a) (inf_row a)) e2).
  { intros a Ha E. apply in_flat_map. exists a. split; [assumption |].
    rewrite E. now left. }
  assert (N : isEmpty (e1 ++ e2) = false).
  { destruct (isEmpty (e1 ++ e2)) eqn:E; [| reflexivity].
    apply isEmpty_nil, app_eq_nil in E as [E1 E2]. exfalso.
    destruct H as [(m & Hm & L) | (a & Ha & E)].
    - specialize (I1 m Hm L). now rewrite E1 in I1.
    - specialize (I2 a Ha E). now rewrite E2 in I2. }
  rewrite N. cbn [negb]. eexists. split; [reflexivity |].
  split.
  - intros m Hm L. apply in_or_app. right. apply in_or_app. left. auto.
  - intros a Ha E. apply in_or_app. right. apply in_or_app. right. auto.
Qed.

(** When [main] reaches the build, every Name has at least two values,
    every inference has a condition, there is an independent value, and
    every value of the Name of an independent value is independent
    too. *)
Theorem main_pre_guards nams infs vals tbl :
  main_pre nams infs = inr (vals, tbl) ->
  (forall m, In m nams -> (2 <= length (nam_vals m))%nat)
  /\ (forall a, In a infs -> inf_vals a <> [])
  /\ namsInd nams infs = Some (vals, tbl)
  /\ vals <> []
  /\ forall v s, In v vals ->
       In s (namVals (main_ctx nams infs tbl) v) ->
       exists i, valInfs (main_ctx nams infs tbl) s = Some i.
Proof.
  unfold main_pre.
  set (e1 := flat_map _ nams). set (e2 := flat_map _ infs).
  destruct (isEmpty (e1 ++ e2)) eqn:E; [| discriminate].
  cbn [negb].
  apply isEmpty_nil, app_eq_nil in E as [E1 E2].
  destruct (namsInd nams infs) as [[[| v0 vs] tb] |] eqn:N;
    try discriminate.
  set (e3 := flat_map _ (v0 :: vs)).
  destruct (isEmpty e3) eqn:E'; [| discriminate].
  cbn [negb]. intros [= <- <-].
  apply isEmpty_nil in E'.
  split; [| split; [| split; [reflexivity | split; [discriminate |]]]].
  - intros m Hm. pose proof (flat_map_nil_inv _ _ E1 m Hm) as X.
    cbn beta in X.
    destruct (Nat.ltb_spec (length (nam_vals m)) 2); [discriminate | lia].
  - intros a Ha Z0. pose proof (flat_map_nil_inv _ _ E2 a Ha) as X.
    cbn beta in X. rewrite Z0 in X. discriminate.
  - intros v s Hv Hs.
    pose proof (flat_map_nil_inv _ _ E' v Hv) as X. cbn beta in X.
    pose proof (flat_map_nil_inv _ _ X s Hs) as Y. cbn beta in Y.
    destruct (valInfs (main_ctx nams infs tb) s) as [i |];
      [now exists i | discriminate].
Qed.
End Checks.

Lemma main_input_errors_witness :
  exists e,
    main (@qsort val_t) 50 50 false (namS :: nams1) infs1
    = Some (mkRun [] e)
    /\ (forall m, In m (namS :: nams1) -> (length (nam_vals m) < 2)%nat ->
        In (DFewValues (nam_sym m)) e)
    /\ (forall a, In a infs1 -> inf_vals a = [] ->
        In (DNoDependencies (inf_fil a) (inf_row a)) e).
Proof.
  apply main_input_errors. left. exists namS.
  split; [now left | cbn; lia].
Defined.

Lemma main_pre_guards_witness :
  (forall m, In m nams1 -> (2 <= length (nam_vals m))%nat)
  /\ (forall a, In a infs1 -> inf_vals a <> [])
  /\ namsInd nams1 infs1 = Some (vals1, ctx_vinfs cx1)
  /\ vals1 <> []
  /\ forall v s, In v vals1 ->
       In s (namVals (main_ctx nams1 infs1 (ctx_vinfs cx1)) v) ->
       exists i, valInfs (main_ctx nams1 infs1 (ctx_vinfs cx1)) s = Some i.
Proof. apply main_pre_guards. vm_compute. reflexivity. Defined.

(** ** Labels of the listing *)

Lemma lbls_app l1 l2 : lbls (l1 ++ l2) = lbls l1 ++ lbls l2.
Proof. apply flat_map_app. Qed.

Lemma lbls_rev ls : lbls (rev ls) = rev (lbls ls).
Proof.
  induction ls as [| ln ls IH]; [reflexivity |].
  cbn [rev]. rewrite lbls_app, IH. unfold lbls.
  destruct ln; cbn [flat_map app rev]; rewrite ?app_nil_r; reflexivity.
Qed.

Lemma lbls_In l ls : In l (lbls ls) <-> In (LL l) ls.
Proof.
  unfold lbls. rewrite in_flat_map. split.
  - intros (ln & Hln & H). destruct ln; try contradiction.
    destruct H as [<- | []]. assumption.
  - intros H. exists (LL l). split; [assumption | now left].
Qed.

Lemma covers_nil (S : nat -> Prop) : (forall x, ~ S x) -> covers S [].
Proof.
  intros H. split; [constructor |]. intros x. cbn. split; [tauto |].
  apply H.
Qed.

Lemma covers_app (S1 S2 S : nat -> Prop) new1 new2 :
  covers S1 new1 -> covers S2 new2 ->
  (forall x, S1 x -> S2 x -> False) ->
  (forall x, S x <-> S1 x \/ S2 x) ->
  covers S (new2 ++ new1).
Proof.
  intros [N1 M1] [N2 M2] D E. unfold covers. rewrite lbls_app. split.
  - apply NoDup_app; [assumption | assumption |].
    intros x H2 H1. apply (D x); [now apply M1 | now apply M2].
  - intros x. rewrite in_app_iff, M1, M2, E. tauto.
Qed.

Lemma covers_one (S : nat -> Prop) ln :
  (forall x, S x <-> ln = LL x) -> covers S [ln].
Proof.
  intros H. unfold covers, lbls. cbn [flat_map]. rewrite app_nil_r.
  destruct ln; cbn;
    try (split; [constructor |]; intros x; rewrite H; split;
         [tauto | discriminate]).
  split; [repeat constructor; intros [] |].
  intros x. rewrite H. split; [intros [-> | []]; reflexivity |].
  intros [= ->]. now left.
Qed.

Lemma grows_refl out : out_ok out -> grows out out.
Proof.
  intros H. split; [assumption |]. split; [lia |].
  exists []. split; [reflexivity |].
  split; [apply covers_nil; intros x; lia | intros v l []].
Qed.

Lemma grows_trans a b c : grows a b -> grows b c -> grows a c.
Proof.
  intros (Ob & Lb & n1 & E1 & C1 & T1) (Oc & Lc & n2 & E2 & C2 & T2).
  split; [assumption |]. split; [lia |].
  exists (n2 ++ n1). split; [now rewrite E2, E1, app_assoc |]. split.
  - apply (covers_app _ _ _ _ _ C1 C2); intros x; lia.
  - intros v l H. apply in_app_or in H as [H | H].
    + now apply (T2 v).
    + apply T1 in H. lia.
Qed.

(** A line that is no [L] line, and whose test, if any, refers to a
    reserved label. *)
Lemma grows_put ln out :
  out_ok out ->
  (forall l, ln <> LL l) ->
  (forall v l, ln = LT v l -> (1 <= l < out_l out)%nat) ->
  grows out (put ln out).
Proof.
  intros H NL HT. split; [exact H |]. split; [cbn; lia |].
  exists [ln]. split; [reflexivity |]. split.
  - apply covers_one. cbn [put out_l]. intros x. split; [lia |].
    intros E. now apply NL in E.
  - intros v l [-> | []]. cbn [put out_l]. now apply (HT v l).
Qed.

Lemma grows_putR infs out : out_ok out -> grows out (putR infs out).
Proof.
  destruct infs as [i |]; cbn [putR]; [| apply grows_refl].
  revert out. induction i as [| x i IH]; intros out H; cbn [fold_left];
    [now apply grows_refl |].
  assert (G : grows out (put (LR (inf_val x)) out))
    by (apply grows_put; [assumption | discriminate | discriminate]).
  apply (grows_trans _ _ _ G). apply IH. apply G.
Qed.

Lemma grows_setLbl out id l : out_ok out -> grows out (setLbl out id l).
Proof.
  intros H. split; [exact H |]. split; [cbn; lia |].
  exists []. split; [reflexivity |].
  split; [apply covers_nil; intros x; cbn; lia | intros v k []].
Qed.

(** The two outcomes of [outBrnLbl]. *)
Lemma outBrnLbl_cases out infs nod :
  out_ok out ->
  (exists l, outBrnLbl out infs nod = (l, true, out)
             /\ (1 <= l < out_l out)%nat)
  \/ (exists out1,
        outBrnLbl out infs nod = (out_l out, false, out1)
        /\ out_ok out1 /\ out_l out1 = S (out_l out)
        /\ out_lines out1 = out_lines out
        /\ out_lbl out1 = out_lbl out).
Proof.
  intros [H1 H2]. unfold outBrnLbl.
  destruct (find _ (out_b out)) as [e |] eqn:F.
  - left. exists (snd e). split; [reflexivity |].
    apply find_some in F as [He _]. now apply H2.
  - right. eexists. split; [reflexivity |]. cbn.
    split; [| auto]. split; [cbn; lia |]. cbn [out_b out_l].
    intros e He. apply in_app_or in He as [He | [<- | []]].
    + apply H2 in He. lia.
    + cbn. lia.
Qed.

Section Branches.
(** The continuation of a branch: its node, or the jump to the end. *)
Variable nod : option nod_t.
Let K (o : out_t) : out_t :=
  match nod with Some c => outNod c o | None => put (LJ 0) o end.
Hypothesis K_grows : forall o, out_ok o -> grows o (K o).

Lemma outBrnCon_grows out infs :
  out_ok out -> grows out (outBrnCon outNod out infs nod).
Proof.
  intros H. unfold outBrnCon.
  pose proof (grows_putR infs out H) as G.
  apply (grows_trans _ _ _ G). apply (K_grows _ (proj1 G)).
Qed.

(** After [L,l] for a label [l] reserved but not yet defined. *)
Lemma grows_label out l o' :
  out_ok out -> out_l out = S l -> (1 <= l)%nat ->
  grows (put (LL l) out) o' ->
  out_ok o' /\ (S l <= out_l o')%nat
  /\ exists new,
       out_lines o' = new ++ out_lines out
       /\ covers (fun x => (l <= x < out_l o')%nat) new
       /\ forall v k, In (LT v k) new -> (1 <= k < out_l o')%nat.
Proof.
  intros H E L1 (O' & L' & n & En & C & T). cbn [put out_l] in *.
  split; [assumption |]. split; [lia |].
  exists (n ++ [LL l]). split; [now rewrite En, <- app_assoc |]. split.
  - apply (covers_app (fun x => x = l)
             (fun x => (out_l out <= x < out_l o')%nat)); auto.
    + apply covers_one. intros x. split; [now intros -> | now intros [= ->]].
    + intros x. lia.
    + intros x. lia.
  - intros v k Hk. apply in_app_or in Hk as [Hk | [X | []]];
      [now apply (T v) | discriminate].
Qed.

Lemma outBrn_grows out infs :
  out_ok out -> grows out (outBrn outNod out infs nod).
Proof.
  intros H. unfold outBrn.
  destruct (outBrnLbl_cases out infs (option_map nod_id nod) H)
    as [(l & -> & L) | (out1 & -> & O1 & L1 & N1 & _)].
  - apply grows_put; [assumption | discriminate | discriminate].
  - assert (O2 : out_ok (put (LL (out_l out)) out1)) by exact O1.
    pose proof (outBrnCon_grows _ infs O2) as G.
    apply (grows_label out1 (out_l out)) in G; [| assumption .. | apply H].
    destruct G as (O' & L' & new & E & C & T).
    split; [assumption |]. split; [lia |].
    exists new. rewrite <- N1. auto.
Qed.
End Branches.

Lemma outNod_grows : forall nod out, out_ok out -> grows out (outNod nod out).
Proof.
  fix IH 1. intros [id val iV iO nodV nodO d] out H. cbn [outNod].
  destruct (getLbl out id) as [| k] eqn:G.
  2: { apply grows_put; [assumption | discriminate | discriminate]. }
  set (out0 := setLbl out id (out_l out)).
  assert (H0 : out_ok out0) by exact H.
  destruct val as [v |].
  2: { apply (grows_putR iV out0 H0). }
  assert (KV : forall o, out_ok o ->
                 grows o (match nodV with
                          | Some c => outNod c o
                          | None => put (LJ 0) o
                          end)).
  { destruct nodV as [c |]; intros o Ho; [now apply IH |].
    apply grows_put; [assumption | discriminate | discriminate]. }
  assert (KO : forall o, out_ok o ->
                 grows o (match nodO with
                          | Some c => outNod c o
                          | None => put (LJ 0) o
                          end)).
  { destruct nodO as [c |]; intros o Ho; [now apply IH |].
    apply grows_put; [assumption | discriminate | discriminate]. }
  destruct (outBrnLbl_cases out0 iV (option_map nod_id nodV) H0)
    as [(l & -> & L) | (out1 & -> & O1 & L1 & N1 & _)].
  - assert (G2 : grows out0 (put (LT v l) out0)).
    { apply grows_put; [assumption | discriminate |].
      now intros ? ? [= _ <-]. }
    apply (grows_trans out out0); [now apply grows_setLbl |].
    apply (grows_trans _ _ _ G2).
    apply (outBrn_grows nodO KO). apply G2.
  - change (out_l out0) with (out_l out) in *.
    set (l := out_l out) in *.
    assert (O2 : out_ok (put (LT v l) out1)) by exact O1.
    pose proof (outBrn_grows nodO KO _ iO O2) as (O3 & L3 & n3 & E3 & C3 & T3).
    set (o3 := outBrn outNod (put (LT v l) out1) iO nodO) in *.
    assert (O4 : out_ok (put (LL l) o3)) by exact O3.
    pose proof (outBrnCon_grows nodV KV _ iV O4) as (O5 & L5 & n5 & E5 & C5 & T5).
    set (o5 := outBrnCon outNod (put (LL l) o3) iV nodV) in *.
    cbn [put out_l out_lines] in *.
    assert (Hl : (1 <= l)%nat) by apply H.
    split; [assumption |]. split; [lia |].
    exists (n5 ++ [LL l] ++ n3 ++ [LT v l]). split.
    { rewrite E5, E3, N1. cbn [out0 setLbl out_lines].
      now rewrite <- !app_assoc. }
    split.
    + apply (covers_app (fun x => (l <= x < out_l o3)%nat)
               (fun x => (out_l o3 <= x < out_l o5)%nat)); auto;
        try (intros x; lia).
      apply (covers_app (fun x => (S l <= x < out_l o3)%nat)
               (fun x => x = l)); try (intros x; lia).
      * apply (covers_app (fun x => False)
                 (fun x => (S l <= x < out_l o3)%nat));
          try (intros x; tauto).
        -- apply covers_one. intros x. split; [tauto | discriminate].
        -- rewrite L1 in C3. exact C3.
      * apply covers_one. intros x.
        split; [now intros -> | now intros [= ->]].
    + intros w k Hk.
      apply in_app_or in Hk as [Hk | Hk]; [now apply (T5 w) |].
      apply in_app_or in Hk as [[X | []] | Hk]; [discriminate |].
      apply in_app_or in Hk as [Hk | [X | []]].
      * apply T3 in Hk. lia.
      * injection X as _ <-. lia.
Qed.

(** In the listing of a tree every label reserved by the emitter is
    defined by exactly one [L] line, [L] lines define nothing else (never
    label 0), and the operand of every [T] line is a label so defined. *)
Lemma outNod_labels (nod : nod_t) :
  let out := outNod nod (mkOut [] 1 [] []) in
  let ls := rev (out_lines out) in
  NoDup (lbls ls)
  /\ (forall l, In (LL l) ls <-> (1 <= l < out_l out)%nat)
  /\ (forall v l, In (LT v l) ls -> In (LL l) ls).
Proof.
  cbv zeta.
  assert (H : out_ok (mkOut [] 1 [] [])).
  { split; [cbn; lia | intros e []]. }
  destruct (outNod_grows nod _ H) as (O & L & new & E & [N C] & T).
  cbn [out_lines out_l] in *. rewrite app_nil_r in E. rewrite E.
  assert (M : forall l, In (LL l) (rev new) <-> (1 <= l < out_l (outNod nod (mkOut [] 1 [] [])))%nat).
  { intros l. rewrite <- in_rev, <- lbls_In. apply C. }
  split; [| split].
  - rewrite lbls_rev. now apply NoDup_rev.
  - exact M.
  - intros v l Hl. apply M. apply in_rev in Hl. now apply (T v).
Qed.

Lemma lbls_decl ls : forallb isDecl ls = true -> lbls ls = [].
Proof.
  induction ls as [| ln ls IH]; [reflexivity |].
  cbn [forallb]. intros H. apply andb_prop in H as [H1 H2].
  unfold lbls in *. cbn [flat_map]. rewrite (IH H2).
  destruct ln; try discriminate; reflexivity.
Qed.

Lemma decl_not_D ls n : forallb isDecl ls = true -> ~ In (LD n) ls.
Proof.
  intros H Hin. rewrite forallb_forall in H. now apply H in Hin.
Qed.

(** A run that prints the [D] line prints a listing in which no label is
    defined twice, [L,0] is the last line, and the operand of every [T]
    line is defined by an [L] line. *)
Theorem main_labels
    (sortv : (val_t -> val_t -> Z) -> vals_t -> vals_t) (tf fuel : nat)
    (q : bool) (nams : list nam_t) (infs : infs_t) (run : run_t) (n : nat) :
  main sortv tf fuel q nams infs = Some run ->
  In (LD n) (r_out run) ->
  NoDup (lbls (r_out run))
  /\ (exists body, r_out run = body ++ [LL 0])
  /\ (forall v l, In (LT v l) (r_out run) -> In (LL l) (r_out run)).
Proof.
  unfold main.
  destruct (main_pre nams infs) as [e | [vals tbl]];
    [intros [= <-] [] |].
  pose proof (decls_decl vals infs) as D.
  destruct (main_build sortv tf fuel q nams infs vals tbl)
    as [[st nod] | |]; [| | discriminate].
  2: { intros [= <-] H. now apply decl_not_D in H. }
  destruct (nodChk nod) as [| d0 ds].
  2: { intros [= <-] H. now apply decl_not_D in H. }
  intros [= <-] _. cbn [r_out].
  destruct (outNod_labels nod) as (N & M & T).
  set (body := rev (out_lines (outNod nod (mkOut [] 1 [] [])))) in *.
  set (o1 := map LI vals ++ outO None infs) in *.
  split; [| split].
  - rewrite lbls_app, (lbls_decl o1 D). cbn [app].
    change (lbls (LD (nod_d nod + 1) :: body ++ [LL 0]))
      with (lbls (body ++ [LL 0])).
    rewrite lbls_app. change (lbls [LL 0]) with [0%nat].
    apply NoDup_app; [assumption | repeat constructor; intros [] |].
    intros x Hx [<- | []]. apply lbls_In, M in Hx. lia.
  - exists (o1 ++ [LD (nod_d nod + 1)] ++ body).
    now rewrite <- !app_assoc.
  - intros v l H.
    apply in_app_or in H as [H | H].
    { rewrite forallb_forall in D. apply D in H. discriminate. }
    destruct H as [X | H]; [discriminate |].
    apply in_app_or in H as [H | [X | []]]; [| discriminate].
    apply in_or_app. right. right.
    apply in_or_app. left. now apply (T v).
Qed.

Lemma main_labels_witness :
  exists run,
    main (@qsort val_t) 50 50 false nams5 infs5 = Some run
    /\ NoDup (lbls (r_out run))
    /\ (exists body, r_out run = body ++ [LL 0])
    /\ (forall v l, In (LT v l) (r_out run) -> In (LL l) (r_out run)).
Proof.
  eexists. split; [vm_compute; reflexivity |].
  apply (main_labels (@qsort val_t) 50 50 false nams5 infs5 _ 3%nat).
  - vm_compute; reflexivity.
  - cbn. tauto.
Defined.

(** ** The order of the candidates *)

(** [valsInfsCmp] is a comparison function as [qsort] needs one: it
    returns -1, 0 or 1, swapping the arguments negates the result, and
    "not after" is transitive. *)
Theorem valsInfsCmp_consistent (cx : ctx_t) (a b c : val_t) :
  (valsInfsCmp cx a b = -1 \/ valsInfsCmp cx a b = 0
   \/ valsInfsCmp cx a b = 1)
  /\ valsInfsCmp cx b a = - valsInfsCmp cx a b
  /\ (valsInfsCmp cx a b <= 0 -> valsInfsCmp cx b c <= 0 ->
      valsInfsCmp cx a c <= 0).
Proof.
  unfold valsInfsCmp.
  generalize (othInfs cx a) (len (valInfsD cx a)) (othInfs cx b)
    (len (valInfsD cx b)) (othInfs cx c) (len (valInfsD cx c)).
  intros oa na ob nb oc nc. cbv zeta.
  set (ba := if na >? oa then na - oa else oa - na).
  set (bb := if nb >? ob then nb - ob else ob - nb).
  set (bc := if nc >? oc then nc - oc else oc - nc).
  set (da := if na >? oa then oa else na).
  set (db := if nb >? ob then ob else nb).
  set (dc := if nc >? oc then oc else nc).
  clearbody ba bb bc da db dc.
  repeat match goal with
         | |- context [?x <? ?y] => destruct (Z.ltb_spec x y)
         | |- context [?x >? ?y] => destruct (Z.gtb_spec x y)
         end; lia.
Qed.

(** ** The candidate loop in quick mode *)

Section Quick.
Variable cx : ctx_t.
Variable tf : nat.
Variable rec : rec_t.
Variable vals : vals_t.
Variable infs : infs_t.




End Quick.


(** ** The closure over single-condition inferences *)

Lemma chain_snoc infs u w b :
  chain infs u w -> In b infs -> inf_vals b = [w] ->
  chain infs u (inf_val b).
Proof.
  induction 1 as [v | u0 b0 w0 Hb0 E0 C IH]; intros Hb E.
  - apply (chain_step infs v b); auto. constructor.
  - apply (chain_step infs u0 b0); auto.
Qed.

Lemma seqAdd_has {A : Type} (cmp : A -> A -> Z) (v : list A) (x : A) :
  exists e, In e (snd (seqAdd cmp true v x)) /\ (e = x \/ cmp x e = 0).
Proof.
  unfold seqAdd.
  destruct (add_search cmp (S (length v)) v x 0 (length v)) as [e | pos]
    eqn:S.
  - apply add_search_inl in S as [He E]. exists e. cbn. auto.
  - exists x. cbn. split; [| now left]. apply In_insert_at. now left.
Qed.

Section Round.
Variable infs : infs_t.
Hypothesis infs_ok : Forall inf_ok infs.

(** The body of the inner loop, for the frontier value [x]. *)
Let body (x : val_t) (acc : infs_t * vals_t) (inf : inf_t)
    : infs_t * vals_t :=
  match inf_vals inf with
  | [c] =>
      if val_eqb c x then
        (snd (infsAdd true (fst acc) inf),
         snd (valsAdd true (snd acc) (inf_val inf)))
      else acc
  | _ => acc
  end.

(** What an accumulator holds beyond [acc0]: members of [infs] with
    their single condition in [S], and their conclusions. *)
Let within (S : val_t -> Prop) (acc0 acc : infs_t * vals_t) : Prop :=
  (forall y, In y (fst acc) ->
     In y (fst acc0)
     \/ (In y infs /\ exists w, inf_vals y = [w] /\ S w))
  /\ (forall z, In z (snd acc) ->
        In z (snd acc0)
        \/ exists a w, In a infs /\ inf_vals a = [w] /\ S w
                       /\ z = inf_val a).

Let above (acc0 acc : infs_t * vals_t) : Prop :=
  incl (fst acc0) (fst acc) /\ incl (snd acc0) (snd acc).

(** The single-condition inferences of [l] on [x] are in [acc], with their
    conclusions. *)
Let done (x : val_t) (l : infs_t) (acc : infs_t * vals_t) : Prop :=
  forall a, In a l -> inf_vals a = [x] ->
    (exists e, In e (fst acc) /\ infCmp a e = 0)
    /\ In (inf_val a) (snd acc).

Lemma body_above x acc inf : above acc (body x acc inf).
Proof.
  unfold body, above.
  destruct (inf_vals inf) as [| c [| ? ?]]; try (split; apply incl_refl).
  destruct (val_eqb c x); [| split; apply incl_refl].
  cbn [fst snd]. split; intros y Hy; now apply seqAdd_incl.
Qed.

Lemma body_within (S : val_t -> Prop) x acc0 acc inf :
  S x -> In inf infs -> within S acc0 acc -> within S acc0 (body x acc inf).
Proof.
  intros Sx Hi [W1 W2]. unfold body.
  destruct (inf_vals inf) as [| c [| ? ?]] eqn:E; try (split; assumption).
  destruct (val_eqb c x) eqn:V; [| split; assumption].
  apply val_eqb_eq in V. subst c. cbn [fst snd]. split.
  - intros y Hy. apply seqAdd_In in Hy as [-> | Hy]; [| auto].
    right. split; [assumption |]. now exists x.
  - intros z Hz. apply seqAdd_In in Hz as [-> | Hz]; [| auto].
    right. now exists inf, x.
Qed.

Lemma inner_facts (S : val_t -> Prop) x acc0 : forall l acc,
  S x -> incl l infs ->
  Forall val_ok (snd acc) ->
  within S acc0 acc ->
  let res := fold_left (body x) l acc in
  above acc res /\ within S acc0 res /\ Forall val_ok (snd res)
  /\ done x l res.
Proof.
  induction l as [| inf l IH]; intros acc Sx I F W; cbn [fold_left].
  - split; [split; apply incl_refl |]. split; [assumption |].
    split; [assumption |]. intros a [].
  - assert (Hi : In inf infs) by (apply I; now left).
    assert (Oi : inf_ok inf) by now apply (proj1 (Forall_forall _ _) infs_ok).
    pose proof (body_above x acc inf) as A1.
    pose proof (body_within S x acc0 acc inf Sx Hi W) as W1.
    assert (F1 : Forall val_ok (snd (body x acc inf))).
    { unfold body.
      destruct (inf_vals inf) as [| c [| ? ?]]; try assumption.
      destruct (val_eqb c x); [| assumption]. cbn [snd].
      apply Forall_forall. intros z Hz.
      apply seqAdd_In in Hz as [-> | Hz]; [apply Oi |].
      now apply (proj1 (Forall_forall _ _) F). }
    destruct (IH (body x acc inf) Sx
                (fun y Hy => I y (or_intror Hy)) F1 W1)
      as (A2 & W2 & F2 & D2).
    split; [| split; [assumption | split; [assumption |]]].
    + destruct A1 as [A11 A12], A2 as [A21 A22].
      split; eapply incl_tran; eassumption.
    + intros a [<- | Ha] E; [| now apply D2].
      assert (EB : body x acc inf
                   = (snd (infsAdd true (fst acc) inf),
                      snd (valsAdd true (snd acc) (inf_val inf))))
        by (unfold body; now rewrite E, val_eqb_refl).
      rewrite EB in A2 |- *.
      destruct A2 as [A21 A22].
      cbn [fst snd] in A21, A22. split.
      * destruct (seqAdd_has infCmp (fst acc) inf) as (e & He & [-> | Z0]).
        -- exists inf. split; [now apply A21 | apply infCmp_refl].
        -- exists e. split; [now apply A21 | assumption].
      * apply A22.
        destruct (seqAdd_has valCmp (snd acc) (inf_val inf))
          as (e & He & [-> | Z0]); [assumption |].
        assert (e = inf_val inf); [| now subst].
        symmetry. apply valCmp_eq; auto; [apply Oi |].
        apply seqAdd_In in He as [-> | He]; [apply Oi |].
        now apply (proj1 (Forall_forall _ _) F).
Qed.

Lemma round_facts (S : val_t -> Prop) : forall v1 acc0 acc,
  (forall x, In x v1 -> S x) ->
  Forall val_ok (snd acc) ->
  within S acc0 acc ->
  let res := fold_left (fun a x => fold_left (body x) infs a) v1 acc in
  above acc res /\ within S acc0 res /\ Forall val_ok (snd res)
  /\ forall x, In x v1 -> done x infs res.
Proof.
  induction v1 as [| x v1 IH]; intros acc0 acc HS F W; cbn [fold_left].
  - split; [split; apply incl_refl |]. split; [assumption |].
    split; [assumption |]. intros x [].
  - destruct (inner_facts S x acc0 infs acc (HS x (or_introl eq_refl))
                (incl_refl _) F W) as (A1 & W1 & F1 & D1).
    destruct (IH acc0 _ (fun y Hy => HS y (or_intror Hy)) F1 W1)
      as (A2 & W2 & F2 & D2).
    split; [| split; [assumption | split; [assumption |]]].
    + destruct A1 as [A11 A12], A2 as [A21 A22].
      split; eapply incl_tran; eassumption.
    + intros y [<- | Hy]; [| now apply D2].
      intros a Ha E. destruct (D1 a Ha E) as ((e & He & Z0) & Hc).
      destruct A2 as [A21 A22]. split; [| now apply A22].
      exists e. split; [now apply A21 | assumption].
Qed.

Lemma trn_round_facts (S : val_t -> Prop) v1 r :
  (forall x, In x v1 -> S x) ->
  let res := trn_round v1 infs r [] in
  incl r (fst res)
  /\ (forall y, In y (fst res) ->
        In y r \/ (In y infs /\ exists w, inf_vals y = [w] /\ S w))
  /\ (forall z, In z (snd res) ->
        exists a w, In a infs /\ inf_vals a = [w] /\ S w /\ z = inf_val a)
  /\ (forall x a, In x v1 -> In a infs -> inf_vals a = [x] ->
        (exists e, In e (fst res) /\ infCmp a e = 0)
        /\ In (inf_val a) (snd res)).
Proof.
  intros HS.
  destruct (round_facts S v1 (r, []) (r, []) HS (Forall_nil _))
    as ([A1 _] & [W1 W2] & _ & D).
  { split; intros y Hy; now left. }
  split; [exact A1 |]. split; [exact W1 |]. split.
  - intros z Hz. destruct (W2 z Hz) as [[] | H]. exact H.
  - intros x a Hx. now apply D.
Qed.

Lemma trn_loop_facts (v : val_t) : forall fuel v1 r r',
  (forall x, In x v1 -> chain infs v x) ->
  infsValTrnAdd_loop fuel v1 infs r = Some r' ->
  incl r r'
  /\ (forall y, In y r' ->
        In y r
        \/ (In y infs /\ exists w, inf_vals y = [w] /\ chain infs v w))
  /\ (forall u a w, In u v1 -> chain infs u w -> In a infs ->
        inf_vals a = [w] -> exists e, In e r' /\ infCmp a e = 0).
Proof.
  induction fuel as [| fuel IH]; intros v1 r r' HS H; [discriminate |].
  cbn [infsValTrnAdd_loop] in H.
  destruct (trn_round_facts (chain infs v) v1 r HS) as (A & W & Z & D).
  destruct (trn_round v1 infs r []) as [r1 v2]. cbn [fst snd] in *.
  assert (HS2 : forall x, In x v2 -> chain infs v x).
  { intros x Hx. destruct (Z x Hx) as (a & w & Ha & E & C & ->).
    now apply (chain_snoc infs v w a). }
  destruct v2 as [| z0 v2].
  - injection H as <-. split; [assumption |]. split; [assumption |].
    intros u a w Hu C Ha E.
    destruct C as [u | u b w Hb Eb C]; [now apply (D u a) |].
    exfalso. now destruct (D u b Hu Hb Eb) as [_ []].
  - destruct (IH _ _ _ HS2 H) as (A' & W' & D').
    split; [eapply incl_tran; eassumption |]. split.
    + intros y Hy. destruct (W' y Hy) as [H1 | H1]; [auto | now right].
    + intros u a w Hu C Ha E.
      destruct C as [u | u b w Hb Eb C].
      * destruct (D u a Hu Ha E) as ((e & He & Z0) & _).
        exists e. split; [now apply A' | assumption].
      * destruct (D u b Hu Hb Eb) as [_ Hin].
        now apply (D' (inf_val b) a w).
Qed.
End Round.

(** When [infsValTrnAdd] returns, it has added to [r] exactly the
    inferences of [infs] whose single condition is [val] or is reached
    from [val] through such inferences: nothing is removed from [r],
    nothing else is added, and each of them is in the result (up to
    [infCmp]). *)
Theorem infsValTrnAdd_closure (fuel : nat) (val : val_t) (infs : infs_t)
    (r r' : infs_t) :
  Forall inf_ok infs ->
  infsValTrnAdd fuel val infs r = Some r' ->
  incl r r'
  /\ (forall y, In y r' ->
        In y r
        \/ (In y infs /\ exists w, inf_vals y = [w] /\ chain infs val w))
  /\ (forall a w, In a infs -> inf_vals a = [w] -> chain infs val w ->
        exists e, In e r' /\ infCmp a e = 0).
Proof.
  intros F H. unfold infsValTrnAdd in H.
  change (snd (valsAdd true [] val)) with [val] in H.
  destruct (trn_loop_facts infs F val fuel [val] r r') as (A & W & D);
    [| assumption |].
  { intros x [<- | []]. constructor. }
  split; [assumption |]. split; [assumption |].
  intros a w Ha E C. apply (D val a w); auto. now left.
Qed.

Lemma infsValTrnAdd_closure_witness :
  exists r',
    infsValTrnAdd 5 vA1 infsC [] = Some r'
    /\ incl [] r'
    /\ (forall y, In y r' ->
          In y []
          \/ (In y infsC /\ exists w, inf_vals y = [w] /\ chain infsC vA1 w))
    /\ (forall a w, In a infsC -> inf_vals a = [w] -> chain infsC vA1 w ->
          exists e, In e r' /\ infCmp a e = 0).
Proof.
  eexists. split; [vm_compute; reflexivity |].
  apply (infsValTrnAdd_closure 5 vA1 infsC []).
  - repeat constructor.
  - vm_compute; reflexivity.
Defined.

(** ** The memoisation store *)

Lemma order_bldCmp : order_on bld_ok bldCmp.
Proof.
  exact (order_lex bld_vals bld_infs _ _ _ _ order_valsCmp
           (order_seq _ _ order_infCmp)).
Qed.

Lemma bsearch_go_ext {K K' A : Type} (f : K -> A -> Z) (g : K' -> A -> Z)
    k k' (v : list A) :
  (forall e, f k e = g k' e) ->
  forall fuel lo hi, bsearch_go fuel f k v lo hi = bsearch_go fuel g k' v lo hi.
Proof.
  intros E. induction fuel as [| fuel IH]; intros lo hi; [reflexivity |].
  cbn [bsearch_go]. destruct (lo <? hi)%nat; [| reflexivity].
  destruct (nth_error v ((lo + hi) / 2)) as [p |]; [| reflexivity].
  rewrite E, !IH. reflexivity.
Qed.

Lemma bldsFnd_bsearch blds vals infs n :
  bldsFnd blds vals infs = bsearch bldCmp (mkBld vals infs n) blds.
Proof. apply bsearch_go_ext. reflexivity. Qed.

Lemma sorted_unique {A : Type} (ok : A -> Prop) (cmp : A -> A -> Z)
    (v : list A) x e1 e2 :
  order_on ok cmp -> sorted cmp v -> Forall ok v -> ok x ->
  In e1 v -> In e2 v -> cmp x e1 = 0 -> cmp x e2 = 0 -> e1 = e2.
Proof.
  intros O S F Hx H1 H2 E1 E2.
  assert (K : forall e, In e v -> ok e) by now apply Forall_forall.
  apply in_split in H1 as (l1 & l2 & ->).
  destruct (sorted_split _ _ _ _ S) as [Sl Sr].
  assert (Z12 : cmp e2 e1 = 0).
  { rewrite <- (ord_eq_l _ _ O x e2 e1); auto. apply K, in_elt. }
  apply in_app_or in H2 as [H2 | [-> | H2]]; [| reflexivity |].
  - apply Sl in H2. lia.
  - pose proof (Sr _ H2) as H3.
    rewrite (ord_antisym _ _ O e1 e2) in Z12; [lia | |].
    + apply K, in_elt.
    + apply K, in_or_app. right. now right.
Qed.

Lemma bldsAdd_search_absent (v : list bld_t) (b : bld_t) :
  (forall e, In e v -> bldCmp b e <> 0) ->
  forall fuel lo hi,
    add_search bldCmp fuel v b lo hi = inr (bldsAdd_search fuel v b lo hi).
Proof.
  intros H. induction fuel as [| fuel IH]; intros lo hi; [reflexivity |].
  cbn [add_search bldsAdd_search].
  destruct (lo <? hi)%nat; [| reflexivity].
  destruct (nth_error v (lo + (hi - lo) / 2)) as [e |] eqn:N;
    [| reflexivity].
  destruct (Z.eqb_spec (bldCmp b e) 0) as [E | E].
  - exfalso. apply (H e); [apply (nth_error_In _ _ N) | assumption].
  - destruct (bldCmp b e <? 0); apply IH.
Qed.

Lemma bldsAdd_seqAdd (blds : list bld_t) (b : bld_t) :
  (forall e, In e blds -> bldCmp b e <> 0) ->
  bldsAdd blds b = snd (seqAdd bldCmp true blds b).
Proof.
  intros H. unfold bldsAdd, seqAdd.
  now rewrite (bldsAdd_search_absent blds b H).
Qed.

(** The lookup finds the entry with the given key when there is one. *)
Lemma bldsFnd_spec blds vals infs :
  store_sorted blds -> Forall val_ok vals -> Forall inf_ok infs ->
  match bldsFnd blds vals infs with
  | Some e =>
      In e blds /\ valsCmp vals (bld_vals e) = 0
      /\ infsCmp infs (bld_infs e) = 0
  | None => forall e, In e blds -> bldCmp (mkBld vals infs (nodNew 0)) e <> 0
  end.
Proof.
  intros [S F] Fv Fi.
  destruct (bldsFnd blds vals infs) as [e |] eqn:B.
  - now apply bldsFnd_some in B.
  - rewrite (bldsFnd_bsearch blds vals infs (nodNew 0)) in B.
    pose proof (bsearch_spec order_bldCmp blds
                  (mkBld vals infs (nodNew 0)) S F (conj Fv Fi)) as X.
    now rewrite B in X.
Qed.

Lemma lex_zero (r s : Z) :
  r = 0 -> s = 0 -> (let r0 := r in if r0 =? 0 then s else r0) = 0.
Proof. intros -> ->. reflexivity. Qed.

(** After [bldsAdd] of an entry whose key is absent, the store is still
    sorted, the lookup of that key returns the entry, and the lookup of
    any other key is what it was. *)
Theorem bldsAdd_bldsFnd (blds : list bld_t) (b : bld_t) :
  store_sorted blds -> bld_ok b ->
  bldsFnd blds (bld_vals b) (bld_infs b) = None ->
  store_sorted (bldsAdd blds b)
  /\ bldsFnd (bldsAdd blds b) (bld_vals b) (bld_infs b) = Some b
  /\ forall vals infs,
       Forall val_ok vals -> Forall inf_ok infs ->
       bldKeyCmp (vals, infs) b <> 0 ->
       bldsFnd (bldsAdd blds b) vals infs = bldsFnd blds vals infs.
Proof.
  pose proof order_bldCmp as O.
  intros [S F] Hb N.
  assert (A : forall e, In e blds -> bldCmp b e <> 0).
  { pose proof (bldsFnd_spec blds _ _ (conj S F) (proj1 Hb) (proj2 Hb))
      as X. rewrite N in X. exact X. }
  rewrite (bldsAdd_seqAdd blds b A).
  assert (S' : store_sorted (snd (seqAdd bldCmp true blds b))).
  { split; [now apply (seqAdd_sorted O) |].
    apply Forall_forall. intros e He.
    apply seqAdd_In in He as [-> | He]; [assumption |].
    now apply (proj1 (Forall_forall _ _) F). }
  assert (Ib : In b (snd (seqAdd bldCmp true blds b))).
  { destruct (seqAdd_absent O blds b S F Hb A) as (l1 & l2 & _ & -> & _).
    cbn. apply in_elt. }
  split; [exact S' |]. split.
  - pose proof (bldsFnd_spec _ (bld_vals b) (bld_infs b) S'
                  (proj1 Hb) (proj2 Hb)) as X.
    revert X.
    destruct (bldsFnd (snd (seqAdd bldCmp true blds b)) (bld_vals b)
                (bld_infs b)) as [e |]; intros X.
    + destruct X as (He & E1 & E2). f_equal.
      apply (sorted_unique bld_ok bldCmp _ b e b O (proj1 S') (proj2 S'));
        auto.
      * now apply lex_zero.
      * apply (ord_refl _ _ O). exact Hb.
    + exfalso. apply (X b Ib). apply (ord_refl _ _ O b Hb).
  - intros vals infs Fv Fi D.
    pose proof (bldsFnd_spec _ vals infs S' Fv Fi) as X1.
    pose proof (bldsFnd_spec _ vals infs (conj S F) Fv Fi) as X2.
    set (k := mkBld vals infs (nodNew 0)) in *.
    assert (Hk : bld_ok k) by (split; assumption).
    revert X1 X2.
    destruct (bldsFnd (snd (seqAdd bldCmp true blds b)) vals infs)
      as [e1 |], (bldsFnd blds vals infs) as [e2 |]; intros X1 X2.
    + destruct X1 as (H1 & V1 & I1), X2 as (H2 & V2 & I2). f_equal.
      apply (sorted_unique bld_ok bldCmp _ k e1 e2 O (proj1 S') (proj2 S'));
        auto.
      * now apply seqAdd_incl.
      * now apply lex_zero.
      * now apply lex_zero.
    + exfalso. destruct X1 as (H1 & V1 & I1).
      apply seqAdd_In in H1 as [-> | H1].
      * apply D. now apply lex_zero.
      * apply (X2 e1 H1). now apply lex_zero.
    + exfalso. destruct X2 as (H2 & V2 & I2).
      apply (X1 e2); [now apply seqAdd_incl |].
      now apply lex_zero.
    + reflexivity.
Qed.

Lemma bldsAdd_bldsFnd_witness :
  store_sorted (bldsAdd [] (mkBld vals1 infs1 (nodNew 0)))
  /\ bldsFnd (bldsAdd [] (mkBld vals1 infs1 (nodNew 0))) vals1 infs1
     = Some (mkBld vals1 infs1 (nodNew 0))
  /\ forall vals infs,
       Forall val_ok vals -> Forall inf_ok infs ->
       bldKeyCmp (vals, infs) (mkBld vals1 infs1 (nodNew 0)) <> 0 ->
       bldsFnd (bldsAdd [] (mkBld vals1 infs1 (nodNew 0))) vals infs
       = bldsFnd [] vals infs.
Proof.
  apply (bldsAdd_bldsFnd [] (mkBld vals1 infs1 (nodNew 0))).
  - split; constructor.
  - split; repeat constructor.
  - reflexivity.
Defined.

(** ** The store along a call of [nodBld] *)

Lemma mnsSiblings_incl cx infs t d :
  mnsSiblings cx infs t = Some d -> incl d infs.
Proof.
  unfold mnsSiblings.
  set (f := fun (d : option infs_t) s =>
              if val_eqb s t then d
              else Some (infsMnsInfs
                           (match d with Some d' => d' | None => infs end)
                           (valInfsD cx s))).
  assert (G : forall l acc,
             (forall d', acc = Some d' -> incl d' infs) ->
             forall d', fold_left f l acc = Some d' -> incl d' infs).
  { induction l as [| s l IH]; intros acc Ha; cbn [fold_left];
      [exact Ha |].
    apply IH. unfold f. destruct (val_eqb s t); [exact Ha |].
    intros d' [= <-] x Hx. apply infsMnsInfs_In in Hx.
    destruct acc as [a |]; [now apply (Ha a eq_refl) | assumption]. }
  apply (G _ None). discriminate.
Qed.

Lemma strip_incl n i : incl (strip n i) n.
Proof.
  unfold strip. destruct n as [| a n]; [apply incl_refl |].
  destruct i as [i |]; [| apply incl_refl].
  intros x Hx. unfold infsSrpInfs in Hx. now apply filter_In in Hx.
Qed.

Section StoreAlong.
Variable cx : ctx_t.
Variable tf : nat.
Variable q : bool.
Variable vals : vals_t.
Variable infs : infs_t.
(** A property of the store that the calls on the child frontiers
    keep. *)
Variable J : list bld_t -> Prop.
Variable rec : rec_t.
Hypothesis rec_keeps :
  forall s v i b s' m,
    (length v < length vals)%nat -> incl v vals -> incl i infs ->
    J (st_blds s) -> rec s v i b = Ret (s', m) -> J (st_blds s').

Lemma cand_blds st bd t st' c :
  In t vals -> J (st_blds st) ->
  cand cx tf rec st vals infs bd t = Ret (st', c) -> J (st_blds st').
Proof.
  intros Ht Hst. unfold cand.
  destruct (inflate tf infs (infsResVal cx vals infs t)) as [iV |];
    [| discriminate].
  destruct (inflate tf infs (infsResValNam cx vals infs t)) as [iO |];
    [| discriminate].
  destruct (mnsSiblings cx infs t) as [nV |] eqn:M; [| discriminate].
  apply mnsSiblings_incl in M.
  assert (IsV : incl (strip nV iV) infs).
  { eapply incl_tran; [apply strip_incl | exact M]. }
  assert (IsO : incl (strip (infsMnsInfs infs (valInfsD cx t)) iO) infs).
  { eapply incl_tran; [apply strip_incl |].
    intros x Hx. now apply infsMnsInfs_In in Hx. }
  set (sV := strip nV iV) in *.
  set (sO := strip (infsMnsInfs infs (valInfsD cx t)) iO) in *.
  pose proof (valsSubValNam_lt vals t sV Ht) as LV.
  pose proof (valsSubVal_lt vals t sO Ht) as LO.
  assert (IV : incl (valsSubValNam vals t sV) vals).
  { intros x Hx. unfold valsSubValNam in Hx. now apply filter_In in Hx. }
  assert (IO : incl (valsSubVal vals t sO) vals).
  { intros x Hx. unfold valsSubVal in Hx.
    destruct (_ =? 1)%nat; [apply filter_In in Hx as [Hx _] |];
      now apply filter_In in Hx. }
  set (fV := valsSubValNam vals t sV) in *.
  set (fO := valsSubVal vals t sO) in *.
  clearbody fV fO sV sO.
  set (st0 := mkBst (st_blds st) (S (st_next st))).
  assert (H0 : J (st_blds st0)) by exact Hst.
  clearbody st0.
  intros H.
  repeat (break_match; try discriminate);
    inversion H; subst; clear H;
    repeat match goal with
           | E : rec ?s ?v ?i ?b = Ret (?s', ?m) |- _ =>
               assert (J (st_blds s'))
                 by (apply (rec_keeps s v i b s' m); assumption);
               clear E
           end;
    assumption.
Qed.

Lemma step_blds s t s' :
  In t vals -> J (st_blds (l_st s)) ->
  nodBld_step cx tf q rec vals infs s t = Ret s' ->
  J (st_blds (l_st s')).
Proof.
  intros Ht Hs. unfold nodBld_step.
  destruct (l_brk s); [now intros [= <-] |].
  destruct (cand cx tf rec (l_st s) vals infs (l_bd s) t)
    as [[st c] | |] eqn:C; try discriminate.
  apply cand_blds in C; auto.
  intros H. repeat (break_match; try discriminate);
    injection H as <-; exact C.
Qed.

Lemma iter_blds vs : forall s sF,
  incl vs vals -> J (st_blds (l_st s)) ->
  nodBld_iter cx tf q rec vals infs s vs = Ret sF ->
  J (st_blds (l_st sF)).
Proof.
  induction vs as [| t vs IH]; intros s sF I Hs; cbn [nodBld_iter].
  - now intros [= <-].
  - destruct (nodBld_step cx tf q rec vals infs s t) as [s1 | |] eqn:S;
      try discriminate.
    apply step_blds in S; [| apply I; now left | assumption].
    apply IH; [| assumption]. intros x Hx. apply I. now right.
Qed.
End StoreAlong.

Lemma bldCmp_vals a b : bldCmp a b = 0 -> valsCmp (bld_vals a) (bld_vals b) = 0.
Proof.
  unfold bldCmp.
  destruct (Z.eqb_spec (valsCmp (bld_vals a) (bld_vals b)) 0); auto.
Qed.

Section Memo.
Variable cx : ctx_t.
Variable sortv : (val_t -> val_t -> Z) -> vals_t -> vals_t.
Variable tf : nat.
Variable q : bool.
Hypothesis sortv_incl : forall c l, incl (sortv c l) l.

(** A call of [nodBld] keeps the store sorted and only adds entries, for
    frontiers no longer than its own; afterwards the store answers the
    same frontier with the node returned, whatever the bound of the new
    call. *)
Theorem nodBld_memo : forall fuel st vals infs bd st' n,
  Forall val_ok vals -> Forall inf_ok infs ->
  store_sorted (st_blds st) ->
  nodBld cx sortv tf q fuel st vals infs bd = Ret (st', n) ->
  store_sorted (st_blds st')
  /\ incl (st_blds st) (st_blds st')
  /\ (forall b, In b (st_blds st') ->
        In b (st_blds st) \/ (length (bld_vals b) <= length vals)%nat)
  /\ forall fuel' bd',
       nodBld cx sortv tf q (S fuel') st' vals infs bd' = Ret (st', n).
Proof.
  induction fuel as [| fuel IH]; intros st vals infs bd st' n Fv Fi Hst H;
    [discriminate |].
  cbn [nodBld] in H. unfold nodBld_body in H.
  destruct (bldsFnd (st_blds st) vals infs) as [b |] eqn:F.
  - injection H as <- <-.
    split; [assumption |]. split; [apply incl_refl |].
    split; [now left |].
    intros fuel' bd'. cbn [nodBld]. unfold nodBld_body. now rewrite F.
  - unfold nodBld_fresh in H.
    destruct (nodBld_iter _ _ _ _ _ _ _ _) as [sF | |] eqn:E;
      try discriminate.
    injection H as <- <-. cbn [st_blds].
    set (J := fun blds : list bld_t =>
                store_sorted blds /\ incl (st_blds st) blds
                /\ forall b, In b blds ->
                     In b (st_blds st)
                     \/ (length (bld_vals b) < length vals)%nat).
    assert (G : J (st_blds (l_st sF))).
    { apply (iter_blds cx tf q vals infs J (nodBld cx sortv tf q fuel))
        in E; [exact E | | apply sortv_incl |].
      - intros s v i b s' m L Iv Ii (S1 & I1 & N1) R.
        apply IH in R as (S2 & I2 & N2 & _); auto.
        + split; [assumption |]. split; [eapply incl_tran; eassumption |].
          intros x Hx. destruct (N2 x Hx) as [Hx' | Hx']; [auto |].
          right. lia.
        + apply Forall_forall. intros x Hx.
          now apply (proj1 (Forall_forall _ _) Fv), Iv.
        + apply Forall_forall. intros x Hx.
          now apply (proj1 (Forall_forall _ _) Fi), Ii.
      - cbn. split; [assumption |]. split; [apply incl_refl | now left]. }
    destruct G as (S1 & I1 & N1).
    set (n := finish infs (l_nod sF)).
    assert (Hb : bld_ok (mkBld vals infs n)) by (split; assumption).
    assert (A : bldsFnd (st_blds (l_st sF)) vals infs = None).
    { pose proof (bldsFnd_spec _ vals infs S1 Fv Fi) as X. revert X.
      destruct (bldsFnd (st_blds (l_st sF)) vals infs) as [e |];
        [| reflexivity].
      intros (He & V & Z0). exfalso.
      destruct (N1 e He) as [Ho | L].
      - pose proof (bldsFnd_spec _ vals infs Hst Fv Fi) as Y.
        rewrite F in Y. apply (Y e Ho). now apply lex_zero.
      - apply seqCmp_length in V. lia. }
    destruct (bldsAdd_bldsFnd _ (mkBld vals infs n) S1 Hb A)
      as (S2 & L2 & _).
    split; [assumption |]. split.
    { intros x Hx. apply bldsAdd_In. right. now apply I1. }
    split.
    { intros x Hx. apply bldsAdd_In in Hx as [-> | Hx]; [right; cbn; lia |].
      destruct (N1 x Hx) as [? | ?]; [now left | right; lia]. }
    intros fuel' bd'. cbn [nodBld]. unfold nodBld_body. cbn [st_blds].
    cbn [bld_vals bld_infs] in L2. now rewrite L2.
Qed.
End Memo.

Lemma nodBld_memo_witness :
  exists st' n,
    nodBld cx1 (@qsort val_t) 50 false 50 (mkBst [] 0) vals1 infs1 2%nat
    = Ret (st', n)
    /\ store_sorted (st_blds st')
    /\ incl (st_blds (mkBst [] 0)) (st_blds st')
    /\ (forall b, In b (st_blds st') ->
          In b (st_blds (mkBst [] 0))
          \/ (length (bld_vals b) <= length vals1)%nat)
    /\ forall fuel' bd',
         nodBld cx1 (@qsort val_t) 50 false (S fuel') st' vals1 infs1 bd'
         = Ret (st', n).
Proof.
  eexists. eexists. split; [vm_compute; reflexivity |].
  apply (nodBld_memo cx1 (@qsort val_t) 50 false
           (fun c l => qsort_incl c l) 50 (mkBst [] 0) vals1 infs1 2%nat).
  - repeat constructor.
  - repeat constructor.
  - split; constructor.
  - vm_compute; reflexivity.
Defined.

(** ** The loader keeps its registries in order *)

Lemma substring_length : forall s n m,
  (String.length (String.substring n m s) <= m)%nat.
Proof.
  induction s as [| ch s IH]; intros [| n] [| m]; cbn; try lia.
  - specialize (IH 0%nat m). lia.
  - apply (IH n 0%nat).
  - apply (IH n (S m)).
Qed.

Lemma qsort_In {A : Type} (cmp : A -> A -> Z) (l : list A) y :
  In y (qsort cmp l) <-> In y l.
Proof.
  induction l as [| a l IH]; cbn [qsort fold_right]; [tauto |].
  fold (qsort cmp l). rewrite qsort_insert_In, IH. cbn. intuition congruence.
Qed.

Lemma seqAddQ_In {A : Type} (cmp : A -> A -> Z) (v : list A) (x y : A) :
  In y (snd (seqAddQ cmp true v x)) -> y = x \/ In y v.
Proof.
  unfold seqAddQ. destruct (bsearch cmp x v); cbn [snd]; [auto |].
  rewrite qsort_In, in_app_iff. cbn. intuition congruence.
Qed.

Lemma seqAddQ_incl {A : Type} (cmp : A -> A -> Z) (v : list A) (x y : A) :
  In y v -> In y (snd (seqAddQ cmp true v x)).
Proof.
  unfold seqAddQ. destruct (bsearch cmp x v); cbn [snd]; [auto |].
  rewrite qsort_In, in_app_iff. auto.
Qed.

Lemma seqAddQ_has {A : Type} (cmp : A -> A -> Z) (v : list A) (x : A) :
  exists e, In e (snd (seqAddQ cmp true v x)) /\ (e = x \/ cmp x e = 0).
Proof.
  unfold seqAddQ. destruct (bsearch cmp x v) as [e |] eqn:B; cbn [snd].
  - apply bsearch_some in B as [He E]. exists e. auto.
  - exists x. split; [| now left]. apply qsort_In, in_or_app.
    right. now left.
Qed.

Lemma sorted_map_nam (f : nam_t -> nam_t) (l : list nam_t) :
  (forall m, nam_sym (f m) = nam_sym m) ->
  sorted namCmp l -> sorted namCmp (map f l).
Proof.
  intros K. unfold sorted.
  induction 1 as [| a l S IH F]; cbn [map]; constructor; auto.
  apply Forall_map. apply Forall_forall. intros x Hx.
  unfold namCmp. rewrite !K.
  now apply (proj1 (Forall_forall _ _) F).
Qed.

Lemma namsAddVal_sym nams n val m' :
  In m' (namsAddVal nams n val) ->
  exists m, In m nams /\ nam_sym m' = nam_sym m
    /\ (m' = m
        \/ (nam_sym m = n
            /\ nam_vals m' = snd (valsAdd true (nam_vals m) val))).
Proof.
  unfold namsAddVal. intros H. apply in_map_iff in H as (m & <- & Hm).
  exists m. split; [assumption |].
  destruct (sym_eqb (nam_sym m) n) eqn:E; cbn; [| auto].
  split; [reflexivity |]. right. split; [| reflexivity].
  now apply String.eqb_eq in E.
Qed.

Lemma namsAddVal_keeps nams n val m :
  In m nams -> exists m', In m' (namsAddVal nams n val)
                          /\ nam_sym m' = nam_sym m.
Proof.
  intros H. unfold namsAddVal.
  exists (if sym_eqb (nam_sym m) n
          then mkNam (nam_sym m) (snd (valsAdd true (nam_vals m) val))
          else m).
  split.
  - apply in_map_iff. now exists m.
  - destruct (sym_eqb (nam_sym m) n); reflexivity.
Qed.

Section LoaderFacts.
Variable csvDecodeValue : sym_t -> Z * sym_t.

Lemma csvCb_name_ok r c i d st st' :
  csv_ok st -> 0 < i < 2 ^ 31 ->
  csvCb_name r c i d st = COk st' -> csv_ok st'.
Proof.
  intros ((Ss & Fs) & (Sn & Fn) & Hi & Hp & (Nc & Hc)) Bi.
  unfold csvCb_name.
  set (off := match c with O => 1%nat | S _ => O end).
  set (sym := String.substring off (Z.to_nat i - off) d).
  destruct (Z.to_nat i - off =? 0)%nat; [discriminate |].
  destruct (existsb (sym_eqb sym) (csv_col st)) eqn:X; [discriminate |].
  intros [= <-]. unfold csv_ok. cbn.
  assert (Os : sym_ok sym).
  { unfold sym_ok, sym_n.
    pose proof (substring_length d off (Z.to_nat i - off)). fold sym in H.
    lia. }
  assert (On : nam_wf (mkNam sym [])).
  { split; [exact Os |]. split; constructor. }
  assert (Fn' : Forall nam_ok (csv_nams st)).
  { eapply Forall_impl; [| exact Fn]. now intros m [? _]. }
  refine (conj (conj _ _) (conj (conj _ _) (conj Hi (conj Hp (conj _ _))))).
  - now apply (seqAddQ_sorted order_symCmp).
  - apply Forall_forall. intros y Hy.
    apply seqAddQ_In in Hy as [-> | Hy]; [assumption |].
    now apply (proj1 (Forall_forall _ _) Fs).
  - now apply (seqAddQ_sorted order_namCmp).
  - apply Forall_forall. intros y Hy.
    apply seqAddQ_In in Hy as [-> | Hy]; [assumption |].
    now apply (proj1 (Forall_forall _ _) Fn).
  - apply NoDup_app; [assumption | repeat constructor; intros [] |].
    intros x Hx [E | []].
    enough (true = false) by discriminate. rewrite <- X. symmetry.
    apply existsb_exists. exists x. split; [assumption |].
    rewrite E. apply String.eqb_refl.
  - intros n H. apply in_app_or in H as [H | [<- | []]].
    + destruct (Hc n H) as (On' & m & Hm & E). split; [assumption |].
      exists m. split; [now apply seqAddQ_incl | assumption].
    + split; [assumption |].
      destruct (seqAddQ_has namCmp (csv_nams st) (mkNam sym []))
        as (e & He & [-> | Z0]).
      * now exists (mkNam sym []).
      * exists e. split; [assumption |].
        apply seqAddQ_In in He as He'.
        destruct He' as [-> | He']; [reflexivity |].
        symmetry. apply symCmp_eq; auto.
        now apply (proj1 (Forall_forall _ _) Fn').
Qed.

Lemma csvCb_value_ok r c i d st st' :
  csv_ok st -> 0 < i < 2 ^ 31 ->
  csvCb_value r c i d st = COk st' -> csv_ok st'.
Proof.
  intros ((Ss & Fs) & (Sn & Fn) & Hi & Hp & (Nc & Hc)) Bi.
  unfold csvCb_value.
  destruct (length (csv_col st) <? c)%nat; [discriminate |].
  set (sym := String.substring 0 (Z.to_nat i) d).
  destruct (nth_error (csv_col st) c) as [n |] eqn:N; [| discriminate].
  apply nth_error_In in N. destruct (Hc n N) as (On & m0 & Hm0 & Em0).
  assert (Os : sym_ok sym).
  { unfold sym_ok, sym_n.
    pose proof (substring_length d 0 (Z.to_nat i)). fold sym in H. lia. }
  set (val := mkVal n sym).
  assert (Ov : val_ok val) by (split; assumption).
  assert (K1 : sorted symCmp (snd (symsAdd true (csv_syms st) sym)))
    by now apply (seqAddQ_sorted order_symCmp).
  assert (K2 : Forall sym_ok (snd (symsAdd true (csv_syms st) sym))).
  { apply Forall_forall. intros y Hy.
    apply seqAddQ_In in Hy as [-> | Hy]; [assumption |].
    now apply (proj1 (Forall_forall _ _) Fs). }
  assert (K3 : sorted namCmp (namsAddVal (csv_nams st) n val)).
  { apply sorted_map_nam; [| assumption].
    intros m. destruct (sym_eqb (nam_sym m) n); reflexivity. }
  assert (K4 : Forall nam_wf (namsAddVal (csv_nams st) n val)).
  { apply Forall_forall. intros m' Hm'.
    apply namsAddVal_sym in Hm' as (m & Hm & E & [-> | [En Ev]]).
    - now apply (proj1 (Forall_forall _ _) Fn).
    - destruct (proj1 (Forall_forall _ _) Fn m Hm) as (O1 & S1 & F1).
      assert (F1' : Forall val_ok (nam_vals m)).
      { eapply Forall_impl; [| exact F1]. now intros v [? _]. }
      split; [unfold nam_ok; rewrite E; exact O1 |]. rewrite Ev. split.
      + now apply (seqAdd_sorted order_valCmp).
      + apply Forall_forall. intros v Hv.
        apply seqAdd_In in Hv as [-> | Hv].
        * split; [assumption |]. cbn. congruence.
        * rewrite E. now apply (proj1 (Forall_forall _ _) F1). }
  assert (K5 : forall x, In x (csv_col st) ->
                 sym_ok x
                 /\ exists m, In m (namsAddVal (csv_nams st) n val)
                              /\ nam_sym m = x).
  { intros x Hx. destruct (Hc x Hx) as (Ox & m & Hm & E).
    split; [assumption |].
    destruct (namsAddVal_keeps (csv_nams st) n val m Hm) as (m' & Hm' & E').
    exists m'. split; [assumption | congruence]. }
  destruct c as [| c'].
  - intros [= <-]. unfold csv_ok. cbn.
    refine (conj (conj K1 K2) (conj (conj K3 K4)
              (conj Hi (conj _ (conj Nc K5))))).
    intros inf [= <-].
    split; [split; [exact Ov | constructor] | split; constructor].
  - destruct (csv_inf st) as [inf |] eqn:P; [| discriminate].
    destruct (Hp inf eq_refl) as ((Oc & Fc) & (Sc & _)).
    pose proof (seqAdd_sorted order_valCmp true (inf_vals inf) val Sc Fc Ov)
      as Sv.
    assert (Fv : Forall val_ok (snd (valsAdd true (inf_vals inf) val))).
    { apply Forall_forall. intros v Hv.
      apply seqAdd_In in Hv as [-> | Hv]; [assumption |].
      now apply (proj1 (Forall_forall _ _) Fc). }
    unfold valsAdd in *.
    destruct (seqAdd valCmp true (inf_vals inf) val) as [[e |] vs];
      [| discriminate].
    destruct (val_eqb e val); [| discriminate].
    intros [= <-]. unfold csv_ok. cbn.
    refine (conj (conj K1 K2) (conj (conj K3 K4)
              (conj Hi (conj _ (conj Nc K5))))).
    intros inf' [= <-]. cbn. split; split; assumption.
Qed.

Lemma csvCb_keeps (t : csvTp_t) (r : Z) (c : nat) (s : sym_t)
    (st st' : csv_t) :
  csv_ok st -> csvCb csvDecodeValue t r c s st = COk st' -> csv_ok st'.
Proof.
  intros H. pose proof H as ((Ss & Fs) & (Sn & Fn) & (Si & Fi & Ci) & Hp & Hc).
  unfold csvCb. destruct t.
  - intros [= <-]. exact H.
  - destruct (csv_inCom st); [now intros [= <-] |].
    destruct (String.length s =? 0)%nat.
    { destruct (csv_inNam st); [discriminate |].
      destruct c; [discriminate | now intros [= <-]]. }
    set (hash := match c with O => first_is ch_hash s | S _ => false end).
    set (at_ := match c with O => first_is ch_at s | S _ => false end).
    destruct hash; [intros [= <-]; exact H |].
    destruct (at_ && (String.length s <? 2)%nat); [discriminate |].
    set (st1 := if at_ then _ else st).
    assert (H1 : csv_ok st1).
    { unfold st1. destruct at_; [| exact H].
      unfold csv_ok. cbn.
      refine (conj (conj Ss Fs) (conj (conj Sn Fn)
                (conj (conj Si (conj Fi Ci)) (conj Hp (conj _ _))))).
      - constructor.
      - intros n []. }
    destruct (csvDecodeValue s) as [i d].
    destruct (Z.leb_spec i 0) as [L | L]; [discriminate |].
    destruct (Z.ltb_spec (int_of_u32 (u32 (sym_n s))) i) as [L' | L'];
      [discriminate |].
    cbn [orb].
    assert (Bi : 0 < i < 2 ^ 31).
    { split; [lia |]. unfold int_of_u32, u32 in L'.
      pose proof (Z.mod_pos_bound (sym_n s) (2 ^ 32) ltac:(lia)).
      destruct (Z.ltb_spec (sym_n s mod 2 ^ 32) (2 ^ 31)); lia. }
    destruct (csv_inNam st1).
    + now apply csvCb_name_ok.
    + now apply csvCb_value_ok.
  - destruct (csv_inf st) as [inf |] eqn:P; [| now intros [= <-]].
    destruct (Hp inf eq_refl) as (Oi & Cc).
    destruct (add_search _ _ _ _ _ _) as [e | lo]; [discriminate |].
    intros [= <-]. unfold csv_ok. cbn.
    refine (conj (conj Ss Fs) (conj (conj Sn Fn)
              (conj (conj _ (conj _ _)) (conj _ Hc)))); [| | | discriminate].
    + now apply (seqAdd_sorted order_infCmp).
    + apply Forall_forall. intros y Hy.
      apply seqAdd_In in Hy as [-> | Hy]; [assumption |].
      now apply (proj1 (Forall_forall _ _) Fi).
    + apply Forall_forall. intros y Hy.
      apply seqAdd_In in Hy as [-> | Hy]; [assumption |].
      now apply (proj1 (Forall_forall _ _) Ci).
Qed.

Lemma csvNew_ok fil : csv_ok (csvNew fil).
Proof.
  unfold csv_ok, csvNew. cbn.
  split; [split; constructor |]. split; [split; constructor |].
  split; [split; [constructor | split; constructor] |].
  split; [discriminate |]. split; [constructor | intros x []].
Qed.

Lemma csvFeed_keeps evs : forall st st',
  csv_ok st -> csvFeed csvDecodeValue evs st = COk st' -> csv_ok st'.
Proof.
  induction evs as [| [[[t r] c] s] evs IH]; intros st st' H;
    cbn [csvFeed].
  - now intros [= <-].
  - destruct (csvCb csvDecodeValue t r c s st) as [st1 | |] eqn:E;
      try discriminate.
    apply IH. now apply (csvCb_keeps t r c s st).
Qed.

(** After any sequence of callbacks that all return 0, started on the
    empty registries, the symbols, the names, the values of each name, the
    inferences and the conditions of each inference are sorted, every
    symbol is shorter than 2^31 bytes, and the columns of the current
    ['@'] row are distinct registered names. *)
Theorem csvFeed_ok (evs : list (csvTp_t * Z * nat * sym_t))
    (fil : String.string) (st : csv_t) :
  csvFeed csvDecodeValue evs (csvNew fil) = COk st -> csv_ok st.
Proof. apply csvFeed_keeps, csvNew_ok. Qed.

(** At the end of a record the pending inference is refused, with the
    rows of both, when an inference with the same conclusion and the same
    conditions is registered; otherwise it is registered. *)
Theorem csvCb_end_record (r : Z) (c : nat) (s : sym_t) (st : csv_t)
    (inf : inf_t) :
  csv_ok st -> csv_inf st = Some inf ->
  ((exists e, In e (csv_infs st) /\ infCmp inf e = 0) ->
   exists e,
     In e (csv_infs st) /\ infCmp inf e = 0
     /\ csvCb csvDecodeValue csvTp_Ce r c s st
        = CErr (EDuplicateInf (inf_fil e) (inf_row e) (inf_fil inf)
                  (inf_row inf)))
  /\ ((forall e, In e (csv_infs st) -> infCmp inf e <> 0) ->
      exists st',
        csvCb csvDecodeValue csvTp_Ce r c s st = COk st'
        /\ csv_inf st' = None
        /\ forall x, In x (csv_infs st') <-> x = inf \/ In x (csv_infs st)).
Proof.
  intros (_ & _ & (Si & Fi & _) & Hp & _) P.
  destruct (Hp inf P) as (Oi & _).
  unfold csvCb. rewrite P.
  pose proof (add_search_spec order_infCmp (csv_infs st) inf Si Fi Oi) as X.
  split.
  - intros (e & He & E).
    destruct (add_search _ _ _ _ _ _) as [e' | lo].
    + exists e'. destruct X as [He' E']. auto.
    + exfalso. destruct X as (_ & L & R).
      assert (Oe : inf_ok e) by now apply (proj1 (Forall_forall _ _) Fi).
      rewrite <- (firstn_skipn lo (csv_infs st)) in He.
      apply in_app_or in He as [He | He].
      * apply L in He.
        rewrite (ord_antisym _ _ order_infCmp e inf) in E by assumption.
        lia.
      * apply R in He. lia.
  - intros N.
    destruct (add_search infCmp (S (length (csv_infs st))) (csv_infs st)
                inf 0 (length (csv_infs st))) as [e' | lo] eqn:A.
    + exfalso. destruct X as [He' E']. now apply (N e').
    + eexists. split; [reflexivity |]. cbn. split; [reflexivity |].
      intros x. unfold infsAdd, seqAdd. rewrite A. cbn [snd].
      apply In_insert_at.
Qed.

(** A non-empty cell of a data row in a column past the first: beyond the
    number of names of the ['@'] row plus one it is refused as excess; at
    exactly that number the code reads the column table past its end. *)
Theorem csvCb_column_bound (r : Z) (c : nat) (s : sym_t) (st : csv_t)
    (i : Z) (d : sym_t) :
  csv_inCom st = false -> csv_inNam st = false ->
  (0 < c)%nat -> String.length s <> O ->
  csvDecodeValue s = (i, d) -> 0 < i <= int_of_u32 (u32 (sym_n s)) ->
  ((length (csv_col st) < c)%nat ->
   csvCb csvDecodeValue csvTp_Cv r c s st = CErr (EExcess (r + 1) c))
  /\ (c = length (csv_col st) ->
      csvCb csvDecodeValue csvTp_Cv r c s st = CUndef).
Proof.
  intros HC HN Hc Hs Hd Hi. unfold csvCb. rewrite HC.
  destruct (Nat.eqb_spec (String.length s) 0) as [Z0 | _]; [contradiction |].
  destruct c as [| c']; [lia |]. cbn [andb]. rewrite Hd, HN.
  destruct (Z.leb_spec i 0) as [L | _]; [lia |].
  destruct (Z.ltb_spec (int_of_u32 (u32 (sym_n s))) i) as [L | _]; [lia |].
  cbn [orb]. unfold csvCb_value. split.
  - intros L. apply Nat.ltb_lt in L. now rewrite L.
  - intros E.
    destruct (Nat.ltb_spec (length (csv_col st)) (S c')) as [L | _]; [lia |].
    assert (N : nth_error (csv_col st) (S c') = None)
      by (apply nth_error_None; lia).
    now rewrite N.
Qed.
End LoaderFacts.

Import Loads.

(** The sample tables are what the loader makes of their rows. *)
Lemma load_samples :
  (exists st, csvFeed plain rows1 (csvNew fil1) = COk st
              /\ csv_nams st = nams1 /\ csv_infs st = infs1)
  /\ (exists st, csvFeed plain rows5 (csvNew fil1) = COk st
                 /\ csv_nams st = nams5 /\ csv_infs st = infs5)
  /\ (exists st, csvFeed plain rowsC (csvNew fil1) = COk st
                 /\ csv_nams st = namsC /\ csv_infs st = infsC)
  /\ (exists st, csvFeed plain rowsY (csvNew fil1) = COk st
                 /\ csv_nams st = namsY /\ csv_infs st = infsY)
  /\ (exists st, csvFeed plain rowsU (csvNew fil1) = COk st
                 /\ csv_nams st = namsU /\ csv_infs st = infsU).
Proof.
  repeat split; eexists;
    (split; [vm_compute; reflexivity | split; reflexivity]).
Qed.

Lemma csvFeed_ok_witness :
  exists st, csvFeed plain rows5 (csvNew fil1) = COk st /\ csv_ok st.
Proof.
  eexists. split; [vm_compute; reflexivity |].
  apply (csvFeed_ok plain rows5 fil1). vm_compute; reflexivity.
Defined.

Lemma csvCb_end_record_witness :
  ((exists e, In e (csv_infs stP) /\ infCmp infS e = 0) ->
   exists e,
     In e (csv_infs stP) /\ infCmp infS e = 0
     /\ csvCb plain csvTp_Ce 7 0 cellB stP
        = CErr (EDuplicateInf (inf_fil e) (inf_row e) (inf_fil infS)
                  (inf_row infS)))
  /\ ((forall e, In e (csv_infs stP) -> infCmp infS e <> 0) ->
      exists st',
        csvCb plain csvTp_Ce 7 0 cellB stP = COk st'
        /\ csv_inf st' = None
        /\ forall x, In x (csv_infs st') <-> x = infS \/ In x (csv_infs stP)).
Proof.
  apply (csvCb_end_record plain 7 0 cellB stP infS).
  - unfold csv_ok, stP. cbn.
    split; [split; constructor |]. split; [split; constructor |].
    split; [split; [constructor | split; constructor] |].
    split; [| split; [constructor | intros x []]].
    intros inf [= <-]. split; split; repeat constructor.
  - reflexivity.
Defined.

Lemma csvCb_column_bound_witness :
  ((length (csv_col stC) < 1)%nat ->
   csvCb plain csvTp_Cv 1 1 cellB stC = CErr (EExcess (1 + 1) 1))
  /\ (1%nat = length (csv_col stC) ->
      csvCb plain csvTp_Cv 1 1 cellB stC = CUndef).
Proof.
  apply (csvCb_column_bound plain 1 1 cellB stC 1 cellB).
  - reflexivity.
  - reflexivity.
  - lia.
  - discriminate.
  - reflexivity.
  - vm_compute. split; [reflexivity | discriminate].
Defined.
